(** * Rover firmware: occupancy-grid mapper and navigation arbiter

    Shallow embedding of [mapping/slam_mapper.cpp],
    [modes/autonomous_mode.cpp], [actuators/motor_controller.cpp],
    [sensors/ultrasonic_sensor.cpp] and [sensors/ir_sensor.cpp] of the ESP32
    firmware.

    Conventions of the embedding.
    - A C [float] is a rational number ([Q]) and the arithmetic on it is
      exact; the coordinate transforms and the cell update are embedded a
      second time over IEEE binary32 (modules [Binary32] and [Grid32]),
      and what depends on the value a computation stores is stated there.
    - A read through a null pointer (the grid of a mapper that was never
      initialised, the sensors of a mode begun without them) does not
      complete; the properties of an operation that makes one assume the
      object is there.
    - [int] is [Z]; [unsigned long] and [uint32_t] are [Z] with the
      wrap-around at 2^32 written out ([Arduino.u32]).
    - [millis()] is an argument [now] of every operation that reads the clock:
      one reading per call of a public operation.
    - [MapCell** map] is a list of rows, indexed [map[y][x]].
    - Calls on collaborators (motors, audio, serial log) are appended to an
      event list carried by the state.
    - What the hardware answers ([analogRead], [pulseIn]) is an argument of
      the operation that reads it; what is written to a pin is a field of
      the state. *)

From Stdlib Require Import ZArith QArith Qround Qabs Qminmax Lqa Lia Bool String Ascii.
From Stdlib Require Import DecimalString DecimalPos DecimalZ.
From Stdlib Require Import Floats.SpecFloat.
From stdpp Require Import base tactics option list list_numbers.

Local Open Scope Z_scope.

(** ** The Arduino core as the firmware uses it *)

Module Arduino.

Definition Qltb (a b : Q) : bool := negb (Qle_bool b a).

(** [#define max(a,b) ((a)>(b)?(a):(b))] *)
Definition max (a b : Q) : Q := if Qltb b a then a else b.

(** [#define min(a,b) ((a)<(b)?(a):(b))] *)
Definition min (a b : Q) : Q := if Qltb a b then a else b.

(** [(int)f]: conversion of a float to int discards the fraction. *)
Definition truncate (q : Q) : Z := Z.quot (Qnum q) (Zpos (Qden q)).

(** Arithmetic of [unsigned long] / [uint32_t]. *)
Definition u32 (z : Z) : Z := z mod 2 ^ 32.

(** [PI] of Arduino.h, cut to 20 decimals. *)
Definition PI : Q := 314159265358979323846 # 100000000000000000000.

(** The macro [constrain(amt, low, high)] on [int] operands. *)
Definition constrain (amt low high : Z) : Z :=
  if amt <? low then low else if amt >? high then high else amt.

(** The macro on [float] operands. *)
Definition constrainQ (amt low high : Q) : Q :=
  if Qltb amt low then low else if Qltb high amt then high else amt.

End Arduino.

(** ** mapping/slam_mapper *)

Module SLAM.

Import Arduino.

Inductive MapCellType : Set :=
| UNKNOWN | FREE | OBSTACLE | WAYPOINT | CAR_POSITION.

Definition MapCellType_eqb (a b : MapCellType) : bool :=
  match a, b with
  | UNKNOWN, UNKNOWN | FREE, FREE | OBSTACLE, OBSTACLE
  | WAYPOINT, WAYPOINT | CAR_POSITION, CAR_POSITION => true
  | _, _ => false
  end.

Record MapCell : Type := mkCell {
  type : MapCellType;
  confidence : Q;
  timestamp : Z;
  visited : bool
}.

(** [Point] as [worldToMap] fills it: the two fields hold integers. *)
Record GridPoint : Set := mkGridPoint { gx : Z; gy : Z }.

#[global] Instance GridPoint_eq_dec : EqDecision GridPoint.
Proof. solve_decision. Defined.

(** [Point] as a world position. *)
Record Point : Type := mkPoint { x : Q; y : Q; angle : Q }.

Record Waypoint : Type := mkWaypoint {
  wp_id : Z;
  wp_x : Q;
  wp_y : Q;
  wp_name : string;
  wp_timestamp : Z;
  wp_visited : bool
}.

Record MapConfig : Type := mkConfig {
  cellSize : Q;
  mapWidth : Z;
  mapHeight : Z;
  originX : Q;
  originY : Q;
  maxRange : Q;
  minRange : Q
}.

Record SLAMMapper : Type := mkMapper {
  config : MapConfig;
  map : list (list MapCell);
  carPosition : Point;
  carAngle : Q;
  waypoints : list Waypoint;
  mapInitialized : bool;
  occupancyThreshold : Q;
  freeThreshold : Q;
  lastUltrasonicDistance : Q;
  lastIRLeft : Q;
  lastIRCenter : Q;
  lastIRRight : Q
}.

Definition set_map (m : SLAMMapper) (g : list (list MapCell)) : SLAMMapper :=
  mkMapper (config m) g (carPosition m) (carAngle m) (waypoints m)
           (mapInitialized m) (occupancyThreshold m) (freeThreshold m)
           (lastUltrasonicDistance m) (lastIRLeft m) (lastIRCenter m)
           (lastIRRight m).

(** The initial cell [{UNKNOWN, 0.0, 0, false}]. *)
Definition emptyCell : MapCell := mkCell UNKNOWN 0 0 false.

(** The defaults of the constructor. *)
Definition defaultConfig : MapConfig :=
  mkConfig (1 # 10) 200 200 10 10 4 (5 # 100).

Definition SLAMMapper_new : SLAMMapper :=
  mkMapper defaultConfig [] (mkPoint 0 0 0) 0 [] false (7 # 10) (3 # 10) 0 0 0 0.

Definition initialize (m : SLAMMapper) (cfg : MapConfig) : SLAMMapper :=
  mkMapper cfg
           (replicate (Z.to_nat (mapHeight cfg))
                      (replicate (Z.to_nat (mapWidth cfg)) emptyCell))
           (carPosition m) (carAngle m) (waypoints m) true
           (occupancyThreshold m) (freeThreshold m)
           (lastUltrasonicDistance m) (lastIRLeft m) (lastIRCenter m)
           (lastIRRight m).

(** The test [x >= 0 && x < mapWidth && y >= 0 && y < mapHeight]. *)
Definition inBounds (cfg : MapConfig) (px py : Z) : bool :=
  (0 <=? px) && (px <? mapWidth cfg) && (0 <=? py) && (py <? mapHeight cfg).

(** [map[y][x]], for the positions the array has. *)
Definition readCell (g : list (list MapCell)) (px py : Z) : option MapCell :=
  match g !! Z.to_nat py with
  | Some row => row !! Z.to_nat px
  | None => None
  end.

Definition writeCell (g : list (list MapCell)) (px py : Z) (c : MapCell)
  : list (list MapCell) :=
  match g !! Z.to_nat py with
  | Some row => <[Z.to_nat py := <[Z.to_nat px := c]> row]> g
  | None => g
  end.

(** Bounds-checked read of a cell of the mapper. *)
Definition cellAt (m : SLAMMapper) (px py : Z) : option MapCell :=
  if inBounds (config m) px py then readCell (map m) px py else None.

(** The body of [updateMapCell] on the referenced cell, in exact
    arithmetic. [Grid32.updateCell] is the same body over binary32, where
    the confidence it stores is rounded. *)
Definition updateCell (occ free : Q) (cell : MapCell) (ty : MapCellType)
           (conf : Q) (now : Z) : MapCell :=
  match ty with
  | OBSTACLE =>
      let c := if MapCellType_eqb (type cell) FREE
               then ((confidence cell + conf) / 2)%Q
               else max (confidence cell) conf in
      mkCell (if Qltb occ c then OBSTACLE else type cell) c now (visited cell)
  | FREE =>
      let c := if MapCellType_eqb (type cell) OBSTACLE
               then min (confidence cell) (1 - conf)%Q
               else max (confidence cell) conf in
      mkCell (if Qltb free c then FREE else type cell) c now (visited cell)
  | _ => mkCell ty conf now (visited cell)
  end.

(** [updateMapCell]. The code reads [map[y][x]] without testing that the
    grid is allocated; here the mapper is left as it is when the cell is
    not there, and the properties of the call are stated of cells that
    are. *)
Definition updateMapCell (m : SLAMMapper) (px py : Z) (ty : MapCellType)
           (conf : Q) (now : Z) : SLAMMapper :=
  if (px <? 0) || (px >=? mapWidth (config m))
     || (py <? 0) || (py >=? mapHeight (config m))
  then m
  else match readCell (map m) px py with
       | Some cell =>
           set_map m (writeCell (map m) px py
                        (updateCell (occupancyThreshold m) (freeThreshold m)
                                    cell ty conf now))
       | None => m
       end.

(** The allocation made by [initialize]: [mapHeight] rows of [mapWidth]
    cells. *)
Definition map_wf (m : SLAMMapper) : Prop :=
  length (map m) = Z.to_nat (mapHeight (config m))
  /\ Forall (fun row => length row = Z.to_nat (mapWidth (config m))) (map m).

(** *** Coordinate conversion *)

(** The two transforms in exact arithmetic; [Binary32.worldToMap] and
    [Binary32.mapToWorld] are the same transforms over binary32. *)
Definition worldToMap (cfg : MapConfig) (worldX worldY : Q) : GridPoint :=
  mkGridPoint (truncate ((worldX + originX cfg) / cellSize cfg)%Q)
              (truncate ((worldY + originY cfg) / cellSize cfg)%Q).

Definition mapToWorld (cfg : MapConfig) (mapX mapY : Z) : Point :=
  mkPoint (inject_Z mapX * cellSize cfg - originX cfg)%Q
          (inject_Z mapY * cellSize cfg - originY cfg)%Q
          0.

(** *** Integration of range readings *)

(** [cos] and [sin] of the C library. *)
Class Libm : Type := mkLibm { cos : Q -> Q; sin : Q -> Q }.

(** The endpoint of a beam of length [d] in direction [carAngle + a]. *)
Definition beamX `{Libm} (m : SLAMMapper) (d a : Q) : Q :=
  (x (carPosition m) + d * cos (carAngle m + a))%Q.

Definition beamY `{Libm} (m : SLAMMapper) (d a : Q) : Q :=
  (y (carPosition m) + d * sin (carAngle m + a))%Q.

Definition updateObstacle `{Libm} (m : SLAMMapper) (distance a : Q) (now : Z)
  : SLAMMapper :=
  let mapPos := worldToMap (config m) (beamX m distance a) (beamY m distance a) in
  if inBounds (config m) (gx mapPos) (gy mapPos)
  then updateMapCell m (gx mapPos) (gy mapPos) OBSTACLE (8 # 10) now
  else m.

(** [stepSize] and [steps] of [updateFreeSpace]. *)
Definition stepSize (m : SLAMMapper) : Q := (cellSize (config m) / 2)%Q.

Definition steps (m : SLAMMapper) (distance : Q) : Z :=
  truncate (distance / stepSize m)%Q.

(** The cell under the [i]-th sample of the ray. *)
Definition rayCell `{Libm} (m : SLAMMapper) (a : Q) (i : Z) : GridPoint :=
  let rayDistance := (inject_Z i * stepSize m)%Q in
  worldToMap (config m) (beamX m rayDistance a) (beamY m rayDistance a).

(** One iteration of the loop of [updateFreeSpace]. *)
Definition freeSpaceStep `{Libm} (a : Q) (now : Z) (m : SLAMMapper) (i : Z)
  : SLAMMapper :=
  let mapPos := rayCell m a i in
  if inBounds (config m) (gx mapPos) (gy mapPos)
  then updateMapCell m (gx mapPos) (gy mapPos) FREE (6 # 10) now
  else m.

(** [for (int i = 1; i < steps; i++)]. *)
Definition updateFreeSpace `{Libm} (m : SLAMMapper) (distance a : Q) (now : Z)
  : SLAMMapper :=
  fold_left (freeSpaceStep a now) (seqZ 1 (steps m distance - 1)) m.

Definition updateOccupancyGrid `{Libm} (m : SLAMMapper) (distance a : Q)
           (now : Z) : SLAMMapper :=
  let mapPos := worldToMap (config m) (beamX m distance a) (beamY m distance a) in
  if inBounds (config m) (gx mapPos) (gy mapPos)
  then updateFreeSpace (updateObstacle m distance a now) distance a now
  else m.

(** The ultrasonic branch of [processSensorData]. *)
Definition integrateUltrasonic `{Libm} (m : SLAMMapper) (now : Z) : SLAMMapper :=
  if Qltb (minRange (config m)) (lastUltrasonicDistance m)
     && Qltb (lastUltrasonicDistance m) (maxRange (config m))
  then updateOccupancyGrid m (lastUltrasonicDistance m) (carAngle m) now
  else m.

(** An infrared branch of [processSensorData], for the reading [d] taken at
    bearing [a]. *)
Definition integrateIR `{Libm} (m : SLAMMapper) (d a : Q) (now : Z) : SLAMMapper :=
  if Qltb 0 d && Qltb d (maxRange (config m))
  then updateOccupancyGrid m d a now
  else m.

(** [map[y][x].visited = true; map[y][x].timestamp = currentTime]. *)
Definition markVisited (m : SLAMMapper) (now : Z) : SLAMMapper :=
  let mapPos := worldToMap (config m) (x (carPosition m)) (y (carPosition m)) in
  if inBounds (config m) (gx mapPos) (gy mapPos)
  then match readCell (map m) (gx mapPos) (gy mapPos) with
       | Some c =>
           set_map m (writeCell (map m) (gx mapPos) (gy mapPos)
                                (mkCell (type c) (confidence c) now true))
       | None => m
       end
  else m.

Definition processSensorData `{Libm} (m : SLAMMapper) (now : Z) : SLAMMapper :=
  if negb (mapInitialized m) then m
  else
    let m1 := integrateUltrasonic m now in
    let m2 := integrateIR m1 (lastIRLeft m1)
                          (carAngle m1 - 30 * PI / 180)%Q now in
    let m3 := integrateIR m2 (lastIRCenter m2) (carAngle m2) now in
    let m4 := integrateIR m3 (lastIRRight m3)
                          (carAngle m3 + 30 * PI / 180)%Q now in
    markVisited m4 now.

Definition updateSensors (m : SLAMMapper) (ultrasonic irLeft irCenter irRight : Q)
  : SLAMMapper :=
  mkMapper (config m) (map m) (carPosition m) (carAngle m) (waypoints m)
           (mapInitialized m) (occupancyThreshold m) (freeThreshold m)
           ultrasonic irLeft irCenter irRight.

Definition updatePosition (m : SLAMMapper) (px py a : Q) (now : Z) : SLAMMapper :=
  let m1 := mkMapper (config m) (map m) (mkPoint px py (angle (carPosition m))) a
                     (waypoints m) (mapInitialized m) (occupancyThreshold m)
                     (freeThreshold m) (lastUltrasonicDistance m) (lastIRLeft m)
                     (lastIRCenter m) (lastIRRight m) in
  let mapPos := worldToMap (config m1) px py in
  if inBounds (config m1) (gx mapPos) (gy mapPos)
  then updateMapCell m1 (gx mapPos) (gy mapPos) CAR_POSITION 1 now
  else m1.

(** *** Waypoints *)

Definition set_waypoints (m : SLAMMapper) (w : list Waypoint) : SLAMMapper :=
  mkMapper (config m) (map m) (carPosition m) (carAngle m) w
           (mapInitialized m) (occupancyThreshold m) (freeThreshold m)
           (lastUltrasonicDistance m) (lastIRLeft m) (lastIRCenter m)
           (lastIRRight m).

(** [String(int)]. *)
Definition String_int (z : Z) : string := NilZero.string_of_int (Z.to_int z).

Definition addWaypoint (m : SLAMMapper) (px py : Q) (name : string) (now : Z)
  : SLAMMapper :=
  let name' := if (String.length name =? 0)%nat
               then ("Waypoint " ++ String_int (Z.of_nat (length (waypoints m)) + 1))%string
               else name in
  let waypoint := mkWaypoint now px py name' now false in
  let m1 := set_waypoints m (waypoints m ++ [waypoint]) in
  let mapPos := worldToMap (config m1) px py in
  if inBounds (config m1) (gx mapPos) (gy mapPos)
  then updateMapCell m1 (gx mapPos) (gy mapPos) WAYPOINT 1 now
  else m1.

Fixpoint eraseFirst (id : Z) (w : list Waypoint) : option (list Waypoint) :=
  match w with
  | [] => None
  | p :: w' =>
      if wp_id p =? id then Some w'
      else match eraseFirst id w' with
           | Some r => Some (p :: r)
           | None => None
           end
  end.

Definition removeWaypoint (m : SLAMMapper) (id : Z) : SLAMMapper * bool :=
  match eraseFirst id (waypoints m) with
  | Some w => (set_waypoints m w, true)
  | None => (m, false)
  end.

Definition clearMap (m : SLAMMapper) : SLAMMapper :=
  if negb (mapInitialized m) then m
  else set_waypoints
         (set_map m (replicate (Z.to_nat (mapHeight (config m)))
                               (replicate (Z.to_nat (mapWidth (config m))) emptyCell)))
         [].

(** *** Notions used to state the properties *)

(** [n] successive calls [updateMapCell(px, py, ty, conf)], one per clock
    reading of [ts]. *)
Definition repeatUpdate (m : SLAMMapper) (px py : Z) (ty : MapCellType)
           (conf : Q) (ts : list Z) : SLAMMapper :=
  fold_left (fun m' t => updateMapCell m' px py ty conf t) ts m.

(** The same succession of updates, seen on the cell alone. *)
Definition repeatCell (occ free : Q) (cell : MapCell) (ty : MapCellType)
           (conf : Q) (ts : list Z) : MapCell :=
  fold_left (fun c t => updateCell occ free c ty conf t) ts cell.

(** The cells the ray walk of [updateFreeSpace] samples. *)
Definition sampled `{Libm} (m : SLAMMapper) (distance a : Q) (px py : Z) : Prop :=
  exists i, 1 <= i < steps m distance /\ rayCell m a i = mkGridPoint px py.

(** An Obstacle cell carries a confidence above the free threshold. *)
Definition aboveFree (free : Q) (c : MapCell) : Prop :=
  type c = OBSTACLE -> (free < confidence c)%Q.

Definition obstacleAboveFree (m : SLAMMapper) : Prop :=
  forall px py c, cellAt m px py = Some c -> aboveFree (freeThreshold m) c.

(** The four beams [processSensorData] integrates: the ultrasonic reading,
    and an infrared reading taken at some bearing. *)
Inductive Beam : Type :=
| Ultrasonic
| Infrared (bearing reading : Q).

Definition integrate `{Libm} (m : SLAMMapper) (b : Beam) (now : Z) : SLAMMapper :=
  match b with
  | Ultrasonic => integrateUltrasonic m now
  | Infrared a d => integrateIR m d a now
  end.

Definition beamReading (m : SLAMMapper) (b : Beam) : Q :=
  match b with
  | Ultrasonic => lastUltrasonicDistance m
  | Infrared _ d => d
  end.

(** The lower bound the branch of the beam tests its reading against. *)
Definition beamFloor (m : SLAMMapper) (b : Beam) : Q :=
  match b with
  | Ultrasonic => minRange (config m)
  | Infrared _ _ => 0
  end.

(** The bearing [processSensorData] passes for the beam. *)
Definition beamBearing (m : SLAMMapper) (b : Beam) : Q :=
  match b with
  | Ultrasonic => carAngle m
  | Infrared a _ => a
  end.

(** The cell under the endpoint of the beam. *)
Definition endpointCell `{Libm} (m : SLAMMapper) (d a : Q) : GridPoint :=
  worldToMap (config m) (beamX m d a) (beamY m d a).

(** Two mappers that differ at most in their cells. *)
Definition sameFrame (m m' : SLAMMapper) : Prop :=
  config m' = config m
  /\ carPosition m' = carPosition m
  /\ carAngle m' = carAngle m
  /\ occupancyThreshold m' = occupancyThreshold m
  /\ freeThreshold m' = freeThreshold m.

(** A stand-in for the C library that allows evaluation: the series of
    cosine and sine cut after four terms, which is exact at 0
    ([cos 0 = 1], [sin 0 = 0]). *)
Definition seriesLibm : Libm :=
  mkLibm (fun a => 1 - a * a / 2 + a * a * a * a / 24
                   - a * a * a * a * a * a / 720)%Q
         (fun a => a - a * a * a / 6 + a * a * a * a * a / 120
                   - a * a * a * a * a * a * a / 5040)%Q.

(** The thresholds as the constructor sets them. *)
Definition defaultThresholds (m : SLAMMapper) : Prop :=
  occupancyThreshold m = (7 # 10)%Q /\ freeThreshold m = (3 # 10)%Q.

(** The states the public operations reach from a freshly constructed and
    initialised mapper, without loading a file. *)
Inductive reachable `{Libm} : SLAMMapper -> Prop :=
| reach_initialize cfg :
    reachable (initialize SLAMMapper_new cfg)
| reach_updatePosition m px py a now :
    reachable m -> reachable (updatePosition m px py a now)
| reach_updateSensors m ultrasonic irLeft irCenter irRight :
    reachable m -> reachable (updateSensors m ultrasonic irLeft irCenter irRight)
| reach_processSensorData m now :
    reachable m -> reachable (processSensorData m now)
| reach_addWaypoint m px py name now :
    reachable m -> reachable (addWaypoint m px py name now)
| reach_removeWaypoint m id :
    reachable m -> reachable (fst (removeWaypoint m id))
| reach_clearMap m :
    reachable m -> reachable (clearMap m).

(** A 10 x 10 grid of 1 m cells with origin (5, 5), ranges 0.05 m to 4 m. *)
Definition gridConfig : MapConfig := mkConfig 1 10 10 5 5 4 (5 # 100).

Definition gridMapper : SLAMMapper := initialize SLAMMapper_new gridConfig.

(** [updatePosition], [updateSensors] and [processSensorData] in a row. *)
Definition sense `{Libm} (m : SLAMMapper) (px py a : Q)
           (ultrasonic irLeft irCenter irRight : Q) (now : Z) : SLAMMapper :=
  processSensorData
    (updateSensors (updatePosition m px py a now)
                   ultrasonic irLeft irCenter irRight) now.

(** *** Serialisation *)

Local Open Scope string_scope.


(** What [String(float)] prints: the sign and the magnitude in hundredths
    (two decimal places, the default of the Arduino [String] constructor,
    rounded half up as [dtostrf] does). *)
Record Decimal2 : Set := mkDecimal2 { d2_neg : bool; d2_hundredths : Z }.

Definition float_decimal2 (q : Q) : Decimal2 :=
  mkDecimal2 (Qltb q 0) (Qfloor (Qabs q * 100 + (1 # 2))%Q).







(** The enumerators of [MapCellType], as [String(cell.type)] prints them. *)
Definition MapCellType_int (t : MapCellType) : Z :=
  match t with
  | UNKNOWN => 0 | FREE => 1 | OBSTACLE => 2 | WAYPOINT => 3 | CAR_POSITION => 4
  end.

(** The attributes of one [<cell .../>] element. *)
Record CellEntry : Set := mkCellEntry {
  ce_x : Z;
  ce_y : Z;
  ce_type : Z;
  ce_confidence : Decimal2;
  ce_visited : bool;
  ce_timestamp : Z
}.


Definition cellEntry (px py : Z) (cell : MapCell) : CellEntry :=
  mkCellEntry px py (MapCellType_int (type cell))
              (float_decimal2 (confidence cell)) (visited cell) (timestamp cell).

(** [cell.type != UNKNOWN || cell.visited]. *)
Definition listed (cell : MapCell) : bool :=
  negb (MapCellType_eqb (type cell) UNKNOWN) || visited cell.

(** The loops of [generateMapXML] over [y] and [x]. *)
Definition cellEntries (m : SLAMMapper) : list CellEntry :=
  flat_map (fun py =>
    flat_map (fun px =>
      match readCell (map m) px py with
      | Some cell => if listed cell then [cellEntry px py cell] else []
      | None => []
      end) (seqZ 0 (mapWidth (config m))))
    (seqZ 0 (mapHeight (config m))).













(** Modelled from the spec: [parseMapXML], which [loadMap] calls and which
    is defined nowhere in the sources. The loader reads a previously
    produced document, that is, the text [generateMapXML] writes: the
    prologue, the elements of the configuration and of the pose, then the
    [<cell .../>] elements and the [<waypoint .../>] elements, each
    attribute value being the text between its two double quotes. It
    rebuilds the state from what it read: every listed cell takes the
    classification, confidence, visited flag and timestamp of its element,
    any unlisted cell defaults to Unknown / confidence 0 / visited false,
    and the waypoints are those of the document, in order. *)





















Local Close Scope string_scope.

(** *** Statistics and the remaining operations *)

(** The counting loops of [getVisitedCells], [getObstacleCells] and
    [getFreeCells]: [count++] for every cell that passes the test. *)
Definition countCells (test : MapCell -> bool) (m : SLAMMapper) : Z :=
  fold_left
    (fun count py =>
       fold_left
         (fun count' px =>
            match readCell (map m) px py with
            | Some cell => if test cell then count' + 1 else count'
            | None => count'
            end)
         (seqZ 0 (mapWidth (config m))) count)
    (seqZ 0 (mapHeight (config m))) 0.

Definition getVisitedCells (m : SLAMMapper) : Z := countCells visited m.

Definition getObstacleCells (m : SLAMMapper) : Z :=
  countCells (fun cell => MapCellType_eqb (type cell) OBSTACLE) m.

Definition getFreeCells (m : SLAMMapper) : Z :=
  countCells (fun cell => MapCellType_eqb (type cell) FREE) m.

(** [(float)visitedCells / totalCells * 100.0]. *)
Definition getMapCoverage (m : SLAMMapper) : Q :=
  let totalCells := mapWidth (config m) * mapHeight (config m) in
  (inject_Z (getVisitedCells m) / inject_Z totalCells * 100)%Q.

Definition getWaypoints (m : SLAMMapper) : list Waypoint := waypoints m.

(** The loops of [clearMap] as written: [map[y][x] = {UNKNOWN, 0.0, 0, false}]
    for every [y] and [x], then [waypoints.clear()]. *)
Definition clearRow (g : list (list MapCell)) (w py : Z) : list (list MapCell) :=
  fold_left (fun g' px => writeCell g' px py emptyCell) (seqZ 0 w) g.

Definition clearMapLoops (m : SLAMMapper) : SLAMMapper :=
  if negb (mapInitialized m) then m
  else set_waypoints
         (set_map m (fold_left (fun g py => clearRow g (mapWidth (config m)) py)
                               (seqZ 0 (mapHeight (config m))) (map m)))
         [].

(** The cells of the grid in the order of the loops, row by row. *)
Definition allCells (m : SLAMMapper) : list MapCell :=
  flat_map (fun py =>
    flat_map (fun px =>
      match readCell (map m) px py with
      | Some cell => [cell]
      | None => []
      end) (seqZ 0 (mapWidth (config m))))
    (seqZ 0 (mapHeight (config m))).

(** What holds, in exact arithmetic, of every cell in a state reached
    without loading a file: the confidence lies in [0, 1]; an Obstacle
    holds more than 0.7; any other classified cell holds at least 0.4; an
    Unknown cell holds 0 and, unless visited, is the initial cell.
    [Grid32.cellInvariant] is its counterpart over binary32. *)
Definition cellInvariant (c : MapCell) : Prop :=
  (0 <= confidence c)%Q /\ (confidence c <= 1)%Q
  /\ (type c = OBSTACLE -> (7 # 10 < confidence c)%Q)
  /\ (type c <> UNKNOWN -> (4 # 10 <= confidence c)%Q)
  /\ (type c = UNKNOWN -> confidence c = 0%Q)
  /\ (type c = UNKNOWN -> visited c = false -> c = emptyCell).

(** Two mappers with the same configuration, thresholds and initialisation
    flag. *)
Definition sameGrid (m m' : SLAMMapper) : Prop :=
  config m' = config m
  /\ occupancyThreshold m' = occupancyThreshold m
  /\ freeThreshold m' = freeThreshold m
  /\ mapInitialized m' = mapInitialized m.

(** Every cell of [m] is still there in [m'], related to what it was. *)
Definition cellwise (R : MapCell -> MapCell -> Prop) (m m' : SLAMMapper) : Prop :=
  sameGrid m m'
  /\ forall px py c, cellAt m px py = Some c ->
       exists c', cellAt m' px py = Some c' /\ R c c'.

(** The four updates the mapper applies to a cell: the endpoint of a beam,
    a sample of its ray, a waypoint, the car. *)
Definition appliedUpdate (ty : MapCellType) (conf : Q) : Prop :=
  (ty = OBSTACLE /\ conf = (8 # 10)%Q)
  \/ (ty = FREE /\ conf = (6 # 10)%Q)
  \/ (ty = WAYPOINT /\ conf = 1%Q)
  \/ (ty = CAR_POSITION /\ conf = 1%Q).

(** The operations that update cells, applied in any order. *)
Inductive MapOp : Type :=
| OpUpdatePosition (px py a : Q)
| OpUpdateSensors (ultrasonic irLeft irCenter irRight : Q)
| OpProcessSensorData
| OpAddWaypoint (px py : Q) (name : string)
| OpRemoveWaypoint (id : Z).

Definition applyOp `{Libm} (m : SLAMMapper) (op : MapOp) (now : Z) : SLAMMapper :=
  match op with
  | OpUpdatePosition px py a => updatePosition m px py a now
  | OpUpdateSensors u l c r => updateSensors m u l c r
  | OpProcessSensorData => processSensorData m now
  | OpAddWaypoint px py name => addWaypoint m px py name now
  | OpRemoveWaypoint id => fst (removeWaypoint m id)
  end.

(** A run of operations, each with its clock reading. *)
Definition applyOps `{Libm} (m : SLAMMapper) (ops : list (MapOp * Z)) : SLAMMapper :=
  fold_left (fun m' o => applyOp m' (fst o) (snd o)) ops m.

End SLAM.

(** ** The coordinate transforms over IEEE binary32

    [float] on the ESP32 is IEEE binary32, round to nearest even. The two
    transforms of [slam_mapper.cpp] are embedded here over the specification
    of IEEE arithmetic of the standard library, at precision 24 and maximal
    exponent 128. *)

Module Binary32.

Definition prec : Z := 24.
Definition emax : Z := 128.

(** Conversion of an [int] to [float]. *)
Definition of_int (z : Z) : spec_float := binary_normalize prec emax z 0 false.

(** [(int)f] on a finite float. *)
Definition to_int (f : spec_float) : Z :=
  match f with
  | S754_finite s m e =>
      let v := if 0 <=? e then Zpos m * 2 ^ e else Zpos m / 2 ^ (- e) in
      if s then - v else v
  | _ => 0
  end.

Record MapConfig : Set := mkConfig {
  cellSize : spec_float;
  mapWidth : Z;
  mapHeight : Z;
  originX : spec_float;
  originY : spec_float
}.

(** The float nearest to 0.1 is 13421773 * 2^-27. *)
Definition float_0_1 : spec_float := S754_finite false 13421773 (-27).

(** The defaults of the constructor: 0.1 m cells, 200 x 200, origin (10, 10). *)
Definition defaultConfig : MapConfig :=
  mkConfig float_0_1 200 200 (of_int 10) (of_int 10).

Definition worldToMap (cfg : MapConfig) (worldX worldY : spec_float) : Z * Z :=
  (to_int (SFdiv prec emax (SFadd prec emax worldX (originX cfg)) (cellSize cfg)),
   to_int (SFdiv prec emax (SFadd prec emax worldY (originY cfg)) (cellSize cfg))).

Definition mapToWorld (cfg : MapConfig) (mapX mapY : Z) : spec_float * spec_float :=
  (SFsub prec emax (SFmul prec emax (of_int mapX) (cellSize cfg)) (originX cfg),
   SFsub prec emax (SFmul prec emax (of_int mapY) (cellSize cfg)) (originY cfg)).

Definition roundTrip (cfg : MapConfig) (mapX mapY : Z) : Z * Z :=
  let w := mapToWorld cfg mapX mapY in worldToMap cfg (fst w) (snd w).

(** One coordinate of [roundTrip]: cell size [cs], origin [o], index [g]. *)
Definition axisRoundTrip (cs o : spec_float) (g : Z) : Z :=
  to_int (SFdiv prec emax
                (SFadd prec emax
                       (SFsub prec emax (SFmul prec emax (of_int g) cs) o) o)
                cs).

(** The result is the index itself or the one below it. *)
Definition withinOneBelow (g r : Z) : bool := (r =? g) || (r =? g - 1).

(** Half a cell, as a [float]. *)
Definition halfCell (cs : spec_float) : spec_float := SFdiv prec emax cs (of_int 2).

(** The centre of a cell: the corner [mapToWorld] gives, plus half a cell
    on each axis. *)
Definition cellCentre (cfg : MapConfig) (mapX mapY : Z) : spec_float * spec_float :=
  let w := mapToWorld cfg mapX mapY in
  (SFadd prec emax (fst w) (halfCell (cellSize cfg)),
   SFadd prec emax (snd w) (halfCell (cellSize cfg))).

(** The point half a cell before the corner of cell (0, 0) on each axis. *)
Definition beforeOrigin (cfg : MapConfig) : spec_float * spec_float :=
  let w := mapToWorld cfg 0 0 in
  (SFsub prec emax (fst w) (halfCell (cellSize cfg)),
   SFsub prec emax (snd w) (halfCell (cellSize cfg))).

(** One coordinate of [worldToMap] at the centre of the cell of index [g]. *)
Definition axisCentre (cs o : spec_float) (g : Z) : Z :=
  to_int (SFdiv prec emax
                (SFadd prec emax
                       (SFadd prec emax
                              (SFsub prec emax (SFmul prec emax (of_int g) cs) o)
                              (halfCell cs))
                       o)
                cs).

End Binary32.

(** ** The cell update over IEEE binary32

    [float] on the ESP32 is IEEE binary32 and [double] is binary64, both
    round to nearest even. [updateMapCell] computes on [float] and, where an
    operand is a literal such as [2.0] or [1.0], on [double]. It is embedded
    here a second time over the specification of IEEE arithmetic of the
    standard library; a [float] is its canonical representation at
    precision 24, a [double] at precision 53. The grid carries the
    dimensions, the thresholds and the cells. An access outside the
    allocated cells, such as the read through the null [map] of a mapper
    that was never initialised, is a fault: the operation returns [None]. *)

Module Grid32.

Import SLAM.

(** A [float] promoted to [double]. *)
Definition to_double (f : spec_float) : spec_float :=
  match f with
  | S754_finite s m e => binary_normalize 53 1024 (cond_Zopp s (Zpos m)) e s
  | _ => f
  end.

(** A [double] stored into a [float]. *)
Definition to_float (d : spec_float) : spec_float :=
  match d with
  | S754_finite s m e => binary_normalize 24 128 (cond_Zopp s (Zpos m)) e s
  | _ => d
  end.

(** The [double] a decimal literal [num/den] denotes. *)
Definition literal (num den : Z) : spec_float :=
  SFdiv 53 1024 (binary_normalize 53 1024 num 0 false)
                (binary_normalize 53 1024 den 0 false).

(** The literals of the source as the [float] they are stored into: 0.7 is
    11744051 * 2^-24, 0.3 is 10066330 * 2^-25, 0.8 is 13421773 * 2^-24 and
    0.6 is 10066330 * 2^-24. *)
Definition float_0_7 : spec_float := Eval vm_compute in to_float (literal 7 10).
Definition float_0_3 : spec_float := Eval vm_compute in to_float (literal 3 10).
Definition float_0_8 : spec_float := Eval vm_compute in to_float (literal 8 10).
Definition float_0_6 : spec_float := Eval vm_compute in to_float (literal 6 10).
Definition float_1 : spec_float := Eval vm_compute in to_float (literal 1 1).
Definition float_0 : spec_float := S754_zero false.

(** [#define max(a,b) ((a)>(b)?(a):(b))] on two [float]s. *)
Definition max (a b : spec_float) : spec_float := if SFltb b a then a else b.

Record MapCell : Type := mkCell {
  type : MapCellType;
  confidence : spec_float;
  timestamp : Z;
  visited : bool
}.

(** [{UNKNOWN, 0.0, 0, false}]. *)
Definition emptyCell : MapCell := mkCell UNKNOWN float_0 0 false.

(** [(cell.confidence + confidence) / 2.0]: the sum is a [float], the
    division is done on [double], the quotient is stored into the
    [float]. *)
Definition blend (current incoming : spec_float) : spec_float :=
  to_float (SFdiv 53 1024 (to_double (SFadd 24 128 current incoming))
                  (literal 2 1)).

(** [min(cell.confidence, 1.0 - confidence)] with
    [#define min(a,b) ((a)<(b)?(a):(b))]: the difference and the comparison
    are done on [double], the result is stored into the [float]. *)
Definition erode (current incoming : spec_float) : spec_float :=
  let d := SFsub 53 1024 (literal 1 1) (to_double incoming) in
  if SFltb (to_double current) d then current else to_float d.

(** The body of [updateMapCell] on the cell [map[y][x]]. *)
Definition updateCell (occ free : spec_float) (cell : MapCell) (ty : MapCellType)
           (conf : spec_float) (now : Z) : MapCell :=
  match ty with
  | OBSTACLE =>
      let c := if MapCellType_eqb (type cell) FREE
               then blend (confidence cell) conf
               else max (confidence cell) conf in
      mkCell (if SFltb occ c then OBSTACLE else type cell) c now (visited cell)
  | FREE =>
      let c := if MapCellType_eqb (type cell) OBSTACLE
               then erode (confidence cell) conf
               else max (confidence cell) conf in
      mkCell (if SFltb free c then FREE else type cell) c now (visited cell)
  | _ => mkCell ty conf now (visited cell)
  end.

Record SLAMMapper : Type := mkMapper {
  mapWidth : Z;
  mapHeight : Z;
  map : list (list MapCell);
  mapInitialized : bool;
  occupancyThreshold : spec_float;
  freeThreshold : spec_float
}.

(** The constructor: 200 x 200, no cell allocated, thresholds 0.7 and 0.3. *)
Definition SLAMMapper_new : SLAMMapper :=
  mkMapper 200 200 [] false float_0_7 float_0_3.

Definition set_map (m : SLAMMapper) (g : list (list MapCell)) : SLAMMapper :=
  mkMapper (mapWidth m) (mapHeight m) g (mapInitialized m)
           (occupancyThreshold m) (freeThreshold m).

(** [initialize]: the configured dimensions, every cell
    [{UNKNOWN, 0.0, 0, false}]. *)
Definition initialize (m : SLAMMapper) (width height : Z) : SLAMMapper :=
  mkMapper width height
           (replicate (Z.to_nat height) (replicate (Z.to_nat width) emptyCell))
           true (occupancyThreshold m) (freeThreshold m).

Definition inBounds (m : SLAMMapper) (px py : Z) : bool :=
  (0 <=? px) && (px <? mapWidth m) && (0 <=? py) && (py <? mapHeight m).

(** [map[y][x]], read and written. *)
Definition readCell (g : list (list MapCell)) (px py : Z) : option MapCell :=
  g !! Z.to_nat py ≫= fun row => row !! Z.to_nat px.

Definition writeCell (g : list (list MapCell)) (px py : Z) (c : MapCell)
  : list (list MapCell) :=
  match g !! Z.to_nat py with
  | Some row => <[Z.to_nat py := <[Z.to_nat px := c]> row]> g
  | None => g
  end.

(** The cell at in-bounds coordinates. *)
Definition cellAt (m : SLAMMapper) (px py : Z) : option MapCell :=
  if inBounds m px py then readCell (map m) px py else None.

Definition updateMapCell (m : SLAMMapper) (px py : Z) (ty : MapCellType)
           (conf : spec_float) (now : Z) : option SLAMMapper :=
  if (px <? 0) || (px >=? mapWidth m) || (py <? 0) || (py >=? mapHeight m)
  then Some m
  else cell ← readCell (map m) px py;
       Some (set_map m (writeCell (map m) px py
                                  (updateCell (occupancyThreshold m)
                                              (freeThreshold m) cell ty conf now))).

(** The end of [processSensorData]: the cell under the car, when in bounds,
    is marked visited and stamped. *)
Definition markVisited (m : SLAMMapper) (px py : Z) (now : Z) : option SLAMMapper :=
  if negb (mapInitialized m) then Some m
  else if inBounds m px py then
    cell ← readCell (map m) px py;
    Some (set_map m (writeCell (map m) px py
                               (mkCell (type cell) (confidence cell) now true)))
  else Some m.

(** A counting loop whose body may fault. *)
Definition forEach {A : Type} (l : list Z) (body : A -> Z -> option A) (a : A)
  : option A :=
  foldl (fun acc i => acc ≫= fun a' => body a' i) (Some a) l.

(** The loops of [clearMap]: [map[y][x] = {UNKNOWN, 0.0, 0, false}] for
    every [y] and [x] of the configured dimensions. *)
Definition clearMap (m : SLAMMapper) : option SLAMMapper :=
  if negb (mapInitialized m) then Some m
  else g ← forEach (seqZ 0 (mapHeight m))
                   (fun g py =>
                      forEach (seqZ 0 (mapWidth m))
                              (fun g' px => _ ← readCell g' px py;
                                            Some (writeCell g' px py emptyCell))
                              g)
                   (map m);
       Some (set_map m g).

(** The four calls of [updateMapCell] in the source: [updateObstacle]
    passes Obstacle and 0.8, [updateFreeSpace] Free and 0.6, [addWaypoint]
    Waypoint and 1.0, [updatePosition] CarPosition and 1.0. *)
Inductive Caller : Set :=
| FromUpdateObstacle
| FromUpdateFreeSpace
| FromAddWaypoint
| FromUpdatePosition.

Definition callers : list Caller :=
  [FromUpdateObstacle; FromUpdateFreeSpace; FromAddWaypoint; FromUpdatePosition].

Definition classification (c : Caller) : MapCellType :=
  match c with
  | FromUpdateObstacle => OBSTACLE
  | FromUpdateFreeSpace => FREE
  | FromAddWaypoint => WAYPOINT
  | FromUpdatePosition => CAR_POSITION
  end.

Definition argument (c : Caller) : spec_float :=
  match c with
  | FromUpdateObstacle => float_0_8
  | FromUpdateFreeSpace => float_0_6
  | FromAddWaypoint | FromUpdatePosition => float_1
  end.

(** What the operations of the mapper do to the grid once their coordinate
    arithmetic has selected the cell [(px, py)]. *)
Inductive Write : Type :=
| WriteCell (px py : Z) (c : Caller)
| WriteVisited (px py : Z)
| WriteClear.

Definition write (m : SLAMMapper) (w : Write) (now : Z) : option SLAMMapper :=
  match w with
  | WriteCell px py c => updateMapCell m px py (classification c) (argument c) now
  | WriteVisited px py => markVisited m px py now
  | WriteClear => clearMap m
  end.

(** A run of writes, each with its clock reading. *)
Fixpoint writes (m : SLAMMapper) (l : list (Write * Z)) : option SLAMMapper :=
  match l with
  | [] => Some m
  | (w, now) :: l' => m' ← write m w now; writes m' l'
  end.

(** *** Notions used to state the properties *)




(** The rational a finite [float] denotes. *)
Definition value (f : spec_float) : Q :=
  match f with
  | S754_finite s m e =>
      let v := if 0 <=? e then inject_Z (Zpos m * 2 ^ e)
               else (inject_Z (Zpos m) / inject_Z (2 ^ (- e)))%Q in
      if s then (- v)%Q else v
  | _ => 0%Q
  end.

(** [1.0 - 0.6] stored into a [float]: 13421772 * 2^-25, just below 0.4. *)
Definition float_0_4_below : spec_float :=
  Eval vm_compute in erode float_1 float_0_6.

(** What holds of every cell in a state reached without loading a file:
    the confidence lies in [0, 1]; an Obstacle holds more than the float
    0.7; any other classified cell holds at least the float of
    [1.0 - 0.6]; an Unknown cell holds 0 and, unless visited, is the
    initial cell. *)
Definition cellInvariant (c : MapCell) : Prop :=
  SFleb float_0 (confidence c) = true
  /\ SFleb (confidence c) float_1 = true
  /\ (type c = OBSTACLE -> SFltb float_0_7 (confidence c) = true)
  /\ (type c <> UNKNOWN -> SFleb float_0_4_below (confidence c) = true)
  /\ (type c = UNKNOWN -> confidence c = float_0)
  /\ (type c = UNKNOWN -> visited c = false -> c = emptyCell).

(** Classification and confidence of a cell. *)
Definition State : Type := MapCellType * spec_float.

Definition state (c : MapCell) : State := (type c, confidence c).

(** One of the four calls, with the thresholds of the constructor, on a
    cell in state [s]. *)
Definition next (s : State) (c : Caller) : State :=
  state (updateCell float_0_7 float_0_3 (mkCell (fst s) (snd s) 0 false)
                    (classification c) (argument c) 0).

(** The ten states a cell can be in: initial; Obstacle at 0.8; Free at
    0.6; Waypoint and CarPosition at 1; Free at the float of [1.0 - 0.6];
    Obstacle at 0.70000005, the blend of 0.6 and 0.8; Obstacle and Free at
    1; Obstacle at 0.9, the blend of 1 and 0.8. *)
Definition states : list State :=
  [(UNKNOWN, S754_zero false);
   (OBSTACLE, S754_finite false 13421773 (-24));
   (FREE, S754_finite false 10066330 (-24));
   (WAYPOINT, S754_finite false 8388608 (-23));
   (CAR_POSITION, S754_finite false 8388608 (-23));
   (FREE, S754_finite false 13421772 (-25));
   (OBSTACLE, S754_finite false 11744052 (-24));
   (OBSTACLE, S754_finite false 8388608 (-23));
   (FREE, S754_finite false 8388608 (-23));
   (OBSTACLE, S754_finite false 15099494 (-24))].

#[global] Instance spec_float_eq_dec : EqDecision spec_float.
Proof. solve_decision. Defined.

#[global] Instance MapCellType_eq_dec : EqDecision MapCellType.
Proof. solve_decision. Defined.

(** A cell in one of the ten states, the initial cell if it is Unknown
    and not visited. *)
Definition settled (c : MapCell) : Prop :=
  state c ∈ states
  /\ (type c = UNKNOWN -> visited c = false -> c = emptyCell).

(** A grid of [h] rows of [w] cells that all satisfy [P]. *)
Definition gridOf (P : MapCell -> Prop) (w h : Z) (g : list (list MapCell)) : Prop :=
  length g = Z.to_nat h
  /\ Forall (fun row => length row = Z.to_nat w /\ Forall P row) g.

(** An initialised mapper with the thresholds of the constructor whose
    grid is allocated and holds settled cells. *)
Definition sound (m : SLAMMapper) : Prop :=
  mapInitialized m = true
  /\ occupancyThreshold m = float_0_7
  /\ freeThreshold m = float_0_3
  /\ gridOf settled (mapWidth m) (mapHeight m) (map m).

End Grid32.

(** ** modes/autonomous_mode *)

Module Nav.

Import Arduino.

Inductive NavigationState : Set :=
| NAV_FORWARD | NAV_TURN_LEFT | NAV_TURN_RIGHT | NAV_BACKWARD
| NAV_STOP | NAV_AVOID_LEFT | NAV_AVOID_RIGHT.

Definition NavigationState_eqb (a b : NavigationState) : bool :=
  match a, b with
  | NAV_FORWARD, NAV_FORWARD | NAV_TURN_LEFT, NAV_TURN_LEFT
  | NAV_TURN_RIGHT, NAV_TURN_RIGHT | NAV_BACKWARD, NAV_BACKWARD
  | NAV_STOP, NAV_STOP | NAV_AVOID_LEFT, NAV_AVOID_LEFT
  | NAV_AVOID_RIGHT, NAV_AVOID_RIGHT => true
  | _, _ => false
  end.

Inductive SystemSound : Set := SOUND_ALERT | SOUND_POWER_OFF | SOUND_SIREN.

(** Calls on the collaborators. *)
Inductive Event : Set :=
| moveForward (speed : Z)
| moveBackward (speed : Z)
| turnLeft (speed : Z)
| turnRight (speed : Z)
| motorsStop
| playSystemSound (s : SystemSound)
| logNavigationEvent (event : string).

(** What the sensors answer during one tick: [isObstacleDetected()] of the
    three infrared sensors and [getDistance()] of the ultrasonic sensor. *)
Record Sensors : Type := mkSensors {
  irLeft : bool;
  irCenter : bool;
  irRight : bool;
  distance : Q
}.

(** The fields of the class that the navigation logic reads or writes.
    [motors], [audio] and [sensors] tell whether the pointers are set. *)
Record AutonomousMode : Type := mkMode {
  motors : bool;
  audio : bool;
  sensors : bool;
  isActive : bool;
  isPaused : bool;
  lastUpdate : Z;
  updateInterval : Z;
  obstacleDetected : bool;
  obstacleDistance : Q;
  obstacleStartTime : Z;
  lineFollowingEnabled : bool;
  linePosition : Z;
  lastLinePosition : Z;
  currentState : NavigationState;
  lastState : NavigationState;
  stateStartTime : Z;
  stateTimeout : Z;
  baseSpeed : Z;
  turnSpeed : Z;
  avoidSpeed : Z;
  reverseSpeed : Z;
  safetyEnabled : bool;
  lastSafetyCheck : Z;
  safetyCheckInterval : Z;
  maxObstacleTime : Z;
  events : list Event
}.

Definition set_collaborators (m : AutonomousMode) (mo au se : bool) : AutonomousMode :=
  mkMode mo au se (isActive m) (isPaused m) (lastUpdate m) (updateInterval m)
        (obstacleDetected m) (obstacleDistance m) (obstacleStartTime m)
        (lineFollowingEnabled m) (linePosition m) (lastLinePosition m)
        (currentState m) (lastState m) (stateStartTime m) (stateTimeout m)
        (baseSpeed m) (turnSpeed m) (avoidSpeed m) (reverseSpeed m)
        (safetyEnabled m) (lastSafetyCheck m) (safetyCheckInterval m)
        (maxObstacleTime m) (events m).

Definition set_activity (m : AutonomousMode) (a p : bool) : AutonomousMode :=
  mkMode (motors m) (audio m) (sensors m) a p (lastUpdate m)
        (updateInterval m) (obstacleDetected m) (obstacleDistance m)
        (obstacleStartTime m) (lineFollowingEnabled m) (linePosition m)
        (lastLinePosition m) (currentState m) (lastState m) (stateStartTime m)
        (stateTimeout m) (baseSpeed m) (turnSpeed m) (avoidSpeed m)
        (reverseSpeed m) (safetyEnabled m) (lastSafetyCheck m)
        (safetyCheckInterval m) (maxObstacleTime m) (events m).

Definition set_lastUpdate (m : AutonomousMode) (t : Z) : AutonomousMode :=
  mkMode (motors m) (audio m) (sensors m) (isActive m) (isPaused m) t
        (updateInterval m) (obstacleDetected m) (obstacleDistance m)
        (obstacleStartTime m) (lineFollowingEnabled m) (linePosition m)
        (lastLinePosition m) (currentState m) (lastState m) (stateStartTime m)
        (stateTimeout m) (baseSpeed m) (turnSpeed m) (avoidSpeed m)
        (reverseSpeed m) (safetyEnabled m) (lastSafetyCheck m)
        (safetyCheckInterval m) (maxObstacleTime m) (events m).

Definition set_obstacle (m : AutonomousMode) (d : bool) (dist : Q) (t : Z) : AutonomousMode :=
  mkMode (motors m) (audio m) (sensors m) (isActive m) (isPaused m)
        (lastUpdate m) (updateInterval m) d dist t (lineFollowingEnabled m)
        (linePosition m) (lastLinePosition m) (currentState m) (lastState m)
        (stateStartTime m) (stateTimeout m) (baseSpeed m) (turnSpeed m)
        (avoidSpeed m) (reverseSpeed m) (safetyEnabled m) (lastSafetyCheck m)
        (safetyCheckInterval m) (maxObstacleTime m) (events m).

Definition set_line (m : AutonomousMode) (p : Z) : AutonomousMode :=
  mkMode (motors m) (audio m) (sensors m) (isActive m) (isPaused m)
        (lastUpdate m) (updateInterval m) (obstacleDetected m)
        (obstacleDistance m) (obstacleStartTime m) (lineFollowingEnabled m) p
        p (currentState m) (lastState m) (stateStartTime m) (stateTimeout m)
        (baseSpeed m) (turnSpeed m) (avoidSpeed m) (reverseSpeed m)
        (safetyEnabled m) (lastSafetyCheck m) (safetyCheckInterval m)
        (maxObstacleTime m) (events m).

Definition set_lineFollowingEnabled (m : AutonomousMode) (b : bool) : AutonomousMode :=
  mkMode (motors m) (audio m) (sensors m) (isActive m) (isPaused m)
        (lastUpdate m) (updateInterval m) (obstacleDetected m)
        (obstacleDistance m) (obstacleStartTime m) b (linePosition m)
        (lastLinePosition m) (currentState m) (lastState m) (stateStartTime m)
        (stateTimeout m) (baseSpeed m) (turnSpeed m) (avoidSpeed m)
        (reverseSpeed m) (safetyEnabled m) (lastSafetyCheck m)
        (safetyCheckInterval m) (maxObstacleTime m) (events m).

Definition set_currentState (m : AutonomousMode) (s : NavigationState) : AutonomousMode :=
  mkMode (motors m) (audio m) (sensors m) (isActive m) (isPaused m)
        (lastUpdate m) (updateInterval m) (obstacleDetected m)
        (obstacleDistance m) (obstacleStartTime m) (lineFollowingEnabled m)
        (linePosition m) (lastLinePosition m) s (lastState m)
        (stateStartTime m) (stateTimeout m) (baseSpeed m) (turnSpeed m)
        (avoidSpeed m) (reverseSpeed m) (safetyEnabled m) (lastSafetyCheck m)
        (safetyCheckInterval m) (maxObstacleTime m) (events m).

Definition set_stateStartTime (m : AutonomousMode) (t : Z) : AutonomousMode :=
  mkMode (motors m) (audio m) (sensors m) (isActive m) (isPaused m)
        (lastUpdate m) (updateInterval m) (obstacleDetected m)
        (obstacleDistance m) (obstacleStartTime m) (lineFollowingEnabled m)
        (linePosition m) (lastLinePosition m) (currentState m) (lastState m) t
        (stateTimeout m) (baseSpeed m) (turnSpeed m) (avoidSpeed m)
        (reverseSpeed m) (safetyEnabled m) (lastSafetyCheck m)
        (safetyCheckInterval m) (maxObstacleTime m) (events m).

Definition enter_state (m : AutonomousMode) (s : NavigationState) (t : Z) : AutonomousMode :=
  mkMode (motors m) (audio m) (sensors m) (isActive m) (isPaused m)
        (lastUpdate m) (updateInterval m) (obstacleDetected m)
        (obstacleDistance m) (obstacleStartTime m) (lineFollowingEnabled m)
        (linePosition m) (lastLinePosition m) s (currentState m) t
        (stateTimeout m) (baseSpeed m) (turnSpeed m) (avoidSpeed m)
        (reverseSpeed m) (safetyEnabled m) (lastSafetyCheck m)
        (safetyCheckInterval m) (maxObstacleTime m) (events m).

Definition set_safetyEnabled (m : AutonomousMode) (b : bool) : AutonomousMode :=
  mkMode (motors m) (audio m) (sensors m) (isActive m) (isPaused m)
        (lastUpdate m) (updateInterval m) (obstacleDetected m)
        (obstacleDistance m) (obstacleStartTime m) (lineFollowingEnabled m)
        (linePosition m) (lastLinePosition m) (currentState m) (lastState m)
        (stateStartTime m) (stateTimeout m) (baseSpeed m) (turnSpeed m)
        (avoidSpeed m) (reverseSpeed m) b (lastSafetyCheck m)
        (safetyCheckInterval m) (maxObstacleTime m) (events m).

Definition set_lastSafetyCheck (m : AutonomousMode) (t : Z) : AutonomousMode :=
  mkMode (motors m) (audio m) (sensors m) (isActive m) (isPaused m)
        (lastUpdate m) (updateInterval m) (obstacleDetected m)
        (obstacleDistance m) (obstacleStartTime m) (lineFollowingEnabled m)
        (linePosition m) (lastLinePosition m) (currentState m) (lastState m)
        (stateStartTime m) (stateTimeout m) (baseSpeed m) (turnSpeed m)
        (avoidSpeed m) (reverseSpeed m) (safetyEnabled m) t
        (safetyCheckInterval m) (maxObstacleTime m) (events m).

Definition emit (m : AutonomousMode) (e : Event) : AutonomousMode :=
  mkMode (motors m) (audio m) (sensors m) (isActive m) (isPaused m)
        (lastUpdate m) (updateInterval m) (obstacleDetected m)
        (obstacleDistance m) (obstacleStartTime m) (lineFollowingEnabled m)
        (linePosition m) (lastLinePosition m) (currentState m) (lastState m)
        (stateStartTime m) (stateTimeout m) (baseSpeed m) (turnSpeed m)
        (avoidSpeed m) (reverseSpeed m) (safetyEnabled m) (lastSafetyCheck m)
        (safetyCheckInterval m) (maxObstacleTime m) (events m ++ [e]).

Definition AutonomousMode_new : AutonomousMode :=
  mkMode false false false false false 0 100 false 0 0 true 0 0
         NAV_FORWARD NAV_FORWARD 0 3000 150 120 100 100 true 0 500 10000 [].

Definition begin (m : AutonomousMode) (irSensors ultrasonic motors audio : bool)
  : AutonomousMode :=
  set_collaborators m motors audio (irSensors && ultrasonic).

Definition stateNames (s : NavigationState) : string :=
  match s with
  | NAV_FORWARD => "FORWARD"
  | NAV_TURN_LEFT => "TURN_LEFT"
  | NAV_TURN_RIGHT => "TURN_RIGHT"
  | NAV_BACKWARD => "BACKWARD"
  | NAV_STOP => "STOP"
  | NAV_AVOID_LEFT => "AVOID_LEFT"
  | NAV_AVOID_RIGHT => "AVOID_RIGHT"
  end.

Definition start (m : AutonomousMode) (now : Z) : AutonomousMode :=
  if isActive m then m
  else
    let m1 := set_activity m true false in
    let m2 := set_stateStartTime (set_currentState m1 NAV_FORWARD) now in
    let m3 := set_lastUpdate m2 now in
    let m4 := if audio m3 then emit m3 (playSystemSound SOUND_ALERT) else m3 in
    emit m4 (logNavigationEvent "Mode started").

Definition stop (m : AutonomousMode) : AutonomousMode :=
  if negb (isActive m) then m
  else
    let m1 := set_currentState (set_activity m false false) NAV_STOP in
    let m2 := if motors m1 then emit m1 motorsStop else m1 in
    let m3 := if audio m2 then emit m2 (playSystemSound SOUND_POWER_OFF) else m2 in
    emit m3 (logNavigationEvent "Mode stopped").

Definition pause (m : AutonomousMode) : AutonomousMode :=
  if negb (isActive m) || isPaused m then m
  else
    let m1 := set_currentState (set_activity m (isActive m) true) NAV_STOP in
    let m2 := if motors m1 then emit m1 motorsStop else m1 in
    emit m2 (logNavigationEvent "Mode paused").

Definition resume (m : AutonomousMode) (now : Z) : AutonomousMode :=
  if negb (isActive m) || negb (isPaused m) then m
  else
    let m1 := set_activity m (isActive m) false in
    let m2 := set_stateStartTime (set_currentState m1 NAV_FORWARD) now in
    emit m2 (logNavigationEvent "Mode resumed").

Definition setState (m : AutonomousMode) (state : NavigationState) (now : Z)
  : AutonomousMode :=
  if NavigationState_eqb state (currentState m) then m
  else emit (enter_state m state now)
            (logNavigationEvent ("State: " ++ stateNames state)).

Definition updateSensors (m : AutonomousMode) (s : Sensors) (now : Z)
  : AutonomousMode :=
  if negb (sensors m) then m
  else
    let detected := irLeft s || irCenter s || irRight s || Qltb (distance s) 20 in
    set_obstacle m detected (distance s)
                 (if detected
                  then if obstacleStartTime m =? 0 then now else obstacleStartTime m
                  else 0).

Definition checkSafety (m : AutonomousMode) (now : Z) : AutonomousMode :=
  if u32 (now - lastSafetyCheck m) <? u32 (safetyCheckInterval m) then m
  else
    let m1 :=
      if obstacleDetected m && (0 <? obstacleStartTime m)
      then if u32 (now - obstacleStartTime m) >? u32 (maxObstacleTime m)
           then
             let a := setState m NAV_STOP now in
             let b := if audio a then emit a (playSystemSound SOUND_SIREN) else a in
             emit b (logNavigationEvent "Safety stop - prolonged obstacle")
           else m
      else m in
    set_lastSafetyCheck m1 now.

Definition avoidObstacles (m : AutonomousMode) (s : Sensors) (now : Z)
  : AutonomousMode :=
  if negb (obstacleDetected m) then m
  else
    let leftObstacle := irLeft s in
    let centerObstacle := irCenter s in
    let rightObstacle := irRight s in
    if centerObstacle then
      if Qltb (obstacleDistance m) 15 then setState m NAV_BACKWARD now
      else if negb leftObstacle && rightObstacle then setState m NAV_AVOID_LEFT now
      else if leftObstacle && negb rightObstacle then setState m NAV_AVOID_RIGHT now
      else setState m NAV_BACKWARD now
    else if leftObstacle then setState m NAV_AVOID_RIGHT now
    else if rightObstacle then setState m NAV_AVOID_LEFT now
    else m.

(** [followLine]. The code reads [irSensors[0..2]] without testing the
    pointer; [s] is what the three sensors answer, and the properties of a
    tick that gets here assume the sensors attached. *)
Definition followLine (m : AutonomousMode) (s : Sensors) (now : Z)
  : AutonomousMode :=
  if negb (lineFollowingEnabled m) then m
  else
    let leftLine := irLeft s in
    let centerLine := irCenter s in
    let rightLine := irRight s in
    let position :=
      if leftLine && centerLine && rightLine then 0
      else if leftLine && centerLine then -1
      else if centerLine && rightLine then 1
      else if leftLine then -2
      else if rightLine then 2
      else if lastLinePosition m <? 0 then -2 else 2 in
    let m1 := set_line m position in
    if position =? 0 then setState m1 NAV_FORWARD now
    else if position <? 0 then setState m1 NAV_TURN_LEFT now
    else setState m1 NAV_TURN_RIGHT now.

Definition processObstacles (m : AutonomousMode) (s : Sensors) (now : Z)
  : AutonomousMode :=
  if obstacleDetected m then avoidObstacles m s now else m.

Definition processLineFollowing (m : AutonomousMode) (s : Sensors) (now : Z)
  : AutonomousMode :=
  if negb (obstacleDetected m) then followLine m s now else m.

(** The motor call that [executeState] makes for a state. *)
Definition directive (m : AutonomousMode) (s : NavigationState) : Event :=
  match s with
  | NAV_FORWARD => moveForward (baseSpeed m)
  | NAV_TURN_LEFT => turnLeft (turnSpeed m)
  | NAV_TURN_RIGHT => turnRight (turnSpeed m)
  | NAV_BACKWARD => moveBackward (reverseSpeed m)
  | NAV_STOP => motorsStop
  | NAV_AVOID_LEFT => turnLeft (avoidSpeed m)
  | NAV_AVOID_RIGHT => turnRight (avoidSpeed m)
  end.

Definition executeState (m : AutonomousMode) : AutonomousMode :=
  if negb (motors m) then m else emit m (directive m (currentState m)).

Definition navigate (m : AutonomousMode) (s : Sensors) (now : Z) : AutonomousMode :=
  let m1 := processObstacles m s now in
  let m2 := if lineFollowingEnabled m1 then processLineFollowing m1 s now else m1 in
  executeState m2.

Definition isStateTimeout (m : AutonomousMode) (now : Z) : bool :=
  u32 (now - stateStartTime m) >? u32 (stateTimeout m).

Definition updateState (m : AutonomousMode) (now : Z) : AutonomousMode :=
  if isStateTimeout m now then
    match currentState m with
    | NAV_BACKWARD => setState m NAV_FORWARD now
    | NAV_AVOID_LEFT | NAV_AVOID_RIGHT => setState m NAV_FORWARD now
    | _ => m
    end
  else m.

(** One call of [update()] at clock reading [now]. *)
Definition update (m : AutonomousMode) (s : Sensors) (now : Z) : AutonomousMode :=
  if negb (isActive m) || isPaused m then m
  else if u32 (now - lastUpdate m) <? u32 (updateInterval m) then m
  else
    let m1 := updateSensors m s now in
    let m2 := if safetyEnabled m1 then checkSafety m1 now else m1 in
    let m3 := navigate m2 s now in
    let m4 := updateState m3 now in
    set_lastUpdate m4 now.

(** The motor calls among the events, oldest first. *)
Definition isDirective (e : Event) : bool :=
  match e with
  | playSystemSound _ | logNavigationEvent _ => false
  | _ => true
  end.

Definition directives (l : list Event) : list Event := List.filter isDirective l.

(** *** Notions used to state the properties *)

(** Successive calls of [update()] at the clock readings [times], the
    sensors answering [s] throughout. *)
Definition ticks (m : AutonomousMode) (s : Sensors) (times : list Z)
  : AutonomousMode :=
  fold_left (fun m' t => update m' s t) times m.

(** The clock readings [t0 + 100], [t0 + 200], ..., [t0 + 100 * n]. *)
Definition every100ms (t0 n : Z) : list Z :=
  (fun k => t0 + 100 * k) <$> seqZ 1 n.

(** The state of a tick that passed the gates of [update()], at the point
    where [updateState] is called. *)
Definition beforeUpdateState (m : AutonomousMode) (s : Sensors) (now : Z)
  : AutonomousMode :=
  let m1 := updateSensors m s now in
  let m2 := if safetyEnabled m1 then checkSafety m1 now else m1 in
  navigate m2 s now.

(** The obstacle-priority table in the words of the specification; [None]
    where the table is silent. *)
Definition priorityTable (left center right : bool) (dist : Q)
  : option NavigationState :=
  if center then
    if Qltb dist 15 then Some NAV_BACKWARD
    else match left, right with
         | false, true => Some NAV_AVOID_LEFT
         | true, false => Some NAV_AVOID_RIGHT
         | _, _ => Some NAV_BACKWARD
         end
  else match left, right with
       | true, false => Some NAV_AVOID_RIGHT
       | false, true => Some NAV_AVOID_LEFT
       | _, _ => None
       end.

Definition avoiding (s : NavigationState) : bool :=
  match s with
  | NAV_BACKWARD | NAV_AVOID_LEFT | NAV_AVOID_RIGHT => true
  | _ => false
  end.

(** Two states with the same obstacle condition, motors and speeds. *)
Definition sameDrive (m m' : AutonomousMode) : Prop :=
  obstacleDetected m' = obstacleDetected m
  /\ obstacleDistance m' = obstacleDistance m
  /\ motors m' = motors m
  /\ baseSpeed m' = baseSpeed m
  /\ turnSpeed m' = turnSpeed m
  /\ avoidSpeed m' = avoidSpeed m
  /\ reverseSpeed m' = reverseSpeed m.

(** Two states with the same navigation state, state clock and switches. *)
Definition sameState (m m' : AutonomousMode) : Prop :=
  currentState m' = currentState m
  /\ stateStartTime m' = stateStartTime m
  /\ stateTimeout m' = stateTimeout m
  /\ obstacleDetected m' = obstacleDetected m
  /\ lineFollowingEnabled m' = lineFollowingEnabled m.

(** A rover with all collaborators attached, started at clock reading 1000. *)
Definition rover : AutonomousMode :=
  start (begin AutonomousMode_new true true true true) 1000.

(** *** The remaining public functions *)

Definition set_speeds (m : AutonomousMode) (b t a r : Z) : AutonomousMode :=
  mkMode (motors m) (audio m) (sensors m) (isActive m) (isPaused m)
        (lastUpdate m) (updateInterval m) (obstacleDetected m)
        (obstacleDistance m) (obstacleStartTime m) (lineFollowingEnabled m)
        (linePosition m) (lastLinePosition m) (currentState m) (lastState m)
        (stateStartTime m) (stateTimeout m) b t a r
        (safetyEnabled m) (lastSafetyCheck m) (safetyCheckInterval m)
        (maxObstacleTime m) (events m).

Definition setLineFollowing (m : AutonomousMode) (enable : bool) : AutonomousMode :=
  set_lineFollowingEnabled m enable.

Definition setSafetyEnabled (m : AutonomousMode) (enable : bool) : AutonomousMode :=
  set_safetyEnabled m enable.

Definition setBaseSpeed (m : AutonomousMode) (speed : Z) : AutonomousMode :=
  set_speeds m (constrain speed 0 255) (turnSpeed m) (avoidSpeed m) (reverseSpeed m).

Definition setTurnSpeed (m : AutonomousMode) (speed : Z) : AutonomousMode :=
  set_speeds m (baseSpeed m) (constrain speed 0 255) (avoidSpeed m) (reverseSpeed m).

Definition setAvoidSpeed (m : AutonomousMode) (speed : Z) : AutonomousMode :=
  set_speeds m (baseSpeed m) (turnSpeed m) (constrain speed 0 255) (reverseSpeed m).

Definition setReverseSpeed (m : AutonomousMode) (speed : Z) : AutonomousMode :=
  set_speeds m (baseSpeed m) (turnSpeed m) (avoidSpeed m) (constrain speed 0 255).

Definition planPath (m : AutonomousMode) (s : Sensors) (now : Z) : AutonomousMode :=
  if obstacleDetected m then avoidObstacles m s now
  else if lineFollowingEnabled m then followLine m s now
  else setState m NAV_FORWARD now.

Definition reset (m : AutonomousMode) : AutonomousMode :=
  let m1 := stop m in
  mkMode (motors m1) (audio m1) (sensors m1) (isActive m1) (isPaused m1)
        (lastUpdate m1) (updateInterval m1) false 0 (obstacleStartTime m1)
        (lineFollowingEnabled m1) 0 0 NAV_FORWARD NAV_FORWARD 0
        (stateTimeout m1) (baseSpeed m1) (turnSpeed m1) (avoidSpeed m1)
        (reverseSpeed m1) (safetyEnabled m1) (lastSafetyCheck m1)
        (safetyCheckInterval m1) (maxObstacleTime m1) (events m1).

(** A call of a public function, with the sensor answers it reads. *)
Inductive Call : Type :=
| CallStart
| CallStop
| CallPause
| CallResume
| CallSetLineFollowing (enable : bool)
| CallSetSafetyEnabled (enable : bool)
| CallSetBaseSpeed (speed : Z)
| CallSetTurnSpeed (speed : Z)
| CallSetAvoidSpeed (speed : Z)
| CallSetReverseSpeed (speed : Z)
| CallUpdate (s : Sensors)
| CallNavigate (s : Sensors)
| CallAvoidObstacles (s : Sensors)
| CallFollowLine (s : Sensors)
| CallPlanPath (s : Sensors)
| CallSetState (state : NavigationState)
| CallUpdateState
| CallReset.

Definition call (m : AutonomousMode) (c : Call) (now : Z) : AutonomousMode :=
  match c with
  | CallStart => start m now
  | CallStop => stop m
  | CallPause => pause m
  | CallResume => resume m now
  | CallSetLineFollowing enable => setLineFollowing m enable
  | CallSetSafetyEnabled enable => setSafetyEnabled m enable
  | CallSetBaseSpeed speed => setBaseSpeed m speed
  | CallSetTurnSpeed speed => setTurnSpeed m speed
  | CallSetAvoidSpeed speed => setAvoidSpeed m speed
  | CallSetReverseSpeed speed => setReverseSpeed m speed
  | CallUpdate s => update m s now
  | CallNavigate s => navigate m s now
  | CallAvoidObstacles s => avoidObstacles m s now
  | CallFollowLine s => followLine m s now
  | CallPlanPath s => planPath m s now
  | CallSetState state => setState m state now
  | CallUpdateState => updateState m now
  | CallReset => reset m
  end.

(** A run of calls, each with its clock reading. *)
Definition calls (m : AutonomousMode) (l : list (Call * Z)) : AutonomousMode :=
  fold_left (fun m' c => call m' (fst c) (snd c)) l m.

(** The speed a motor call carries. *)
Definition commandedSpeed (e : Event) : option Z :=
  match e with
  | moveForward v | moveBackward v | turnLeft v | turnRight v => Some v
  | _ => None
  end.

Definition speedsInRange (m : AutonomousMode) : Prop :=
  0 <= baseSpeed m <= 255 /\ 0 <= turnSpeed m <= 255
  /\ 0 <= avoidSpeed m <= 255 /\ 0 <= reverseSpeed m <= 255.

(** Same motors and speeds. *)
Definition sameSpeeds (m m' : AutonomousMode) : Prop :=
  motors m' = motors m
  /\ baseSpeed m' = baseSpeed m
  /\ turnSpeed m' = turnSpeed m
  /\ avoidSpeed m' = avoidSpeed m
  /\ reverseSpeed m' = reverseSpeed m.

(** From [m] to [m'] the speeds are kept and the motor calls [l] are made. *)
Definition drives (m m' : AutonomousMode) (l : list Event) : Prop :=
  sameSpeeds m m'
  /\ directives (events m') = directives (events m) ++ l.

(** The tick passes the gates of [update()]. *)
Definition running (m : AutonomousMode) (now : Z) : Prop :=
  isActive m = true /\ isPaused m = false
  /\ (u32 (now - lastUpdate m) <? u32 (updateInterval m)) = false.

(** No proximity sensor is triggered and the ranger reads 20 cm or more. *)
Definition clearWay (s : Sensors) : Prop :=
  irLeft s = false /\ irCenter s = false /\ irRight s = false
  /\ Qltb (distance s) 20 = false.

(** No proximity sensor is triggered and the ranger reads below 20 cm. *)
Definition rangerOnly (s : Sensors) : Prop :=
  irLeft s = false /\ irCenter s = false /\ irRight s = false
  /\ Qltb (distance s) 20 = true.

Definition obstacleSince (m : AutonomousMode) (now : Z) : Z :=
  if obstacleStartTime m =? 0 then now else obstacleStartTime m.

(** The watchdog of [checkSafety] acts in a tick at [now] in which the
    obstacle condition holds: the safety features are on, the check is due,
    and the obstacle has lasted longer than [maxObstacleTime]. *)
Definition watchdogFires (m : AutonomousMode) (now : Z) : bool :=
  safetyEnabled m
  && negb (u32 (now - lastSafetyCheck m) <? u32 (safetyCheckInterval m))
  && (0 <? obstacleSince m now)
  && (u32 (now - obstacleSince m now) >? u32 (maxObstacleTime m)).

(** Same obstacle flag and line positions. *)
Definition sameLine (m m' : AutonomousMode) : Prop :=
  obstacleDetected m' = obstacleDetected m
  /\ linePosition m' = linePosition m
  /\ lastLinePosition m' = lastLinePosition m.

End Nav.

(** ** actuators/motor_controller

    The state holds the fields of the class, the level last written to each
    of the four direction pins and the duty last written to each of the two
    enable pins; the six pin numbers are taken to be distinct. [millis()]
    is the argument [now]. *)

Module Motor.

Import Arduino.

Inductive MotorDirection : Set :=
| MOTOR_FORWARD | MOTOR_BACKWARD | MOTOR_LEFT | MOTOR_RIGHT | MOTOR_STOP.

Record MotorController : Type := mkMotor {
  in1 : bool;
  in2 : bool;
  in3 : bool;
  in4 : bool;
  ena : Z;
  enb : Z;
  leftSpeed : Z;
  rightSpeed : Z;
  currentDirection : MotorDirection;
  isMoving : bool;
  maxSpeed : Z;
  minSpeed : Z;
  safetyEnabled : bool;
  lastCommandTime : Z;
  commandTimeout : Z
}.

(** [digitalWrite] on the four direction pins and [analogWrite] on the two
    enable pins. *)
Definition write_pins (m : MotorController) (a b c d : bool) (l r : Z)
  : MotorController :=
  mkMotor a b c d l r (leftSpeed m) (rightSpeed m) (currentDirection m)
          (isMoving m) (maxSpeed m) (minSpeed m) (safetyEnabled m)
          (lastCommandTime m) (commandTimeout m).

Definition set_wheels (m : MotorController) (l r : Z) : MotorController :=
  mkMotor (in1 m) (in2 m) (in3 m) (in4 m) (ena m) (enb m) l r
          (currentDirection m) (isMoving m) (maxSpeed m) (minSpeed m)
          (safetyEnabled m) (lastCommandTime m) (commandTimeout m).

Definition set_motion (m : MotorController) (d : MotorDirection) (moving : bool)
  : MotorController :=
  mkMotor (in1 m) (in2 m) (in3 m) (in4 m) (ena m) (enb m) (leftSpeed m)
          (rightSpeed m) d moving (maxSpeed m) (minSpeed m) (safetyEnabled m)
          (lastCommandTime m) (commandTimeout m).

Definition set_lastCommandTime (m : MotorController) (t : Z) : MotorController :=
  mkMotor (in1 m) (in2 m) (in3 m) (in4 m) (ena m) (enb m) (leftSpeed m)
          (rightSpeed m) (currentDirection m) (isMoving m) (maxSpeed m)
          (minSpeed m) (safetyEnabled m) t (commandTimeout m).

Definition set_limits (m : MotorController) (hi lo : Z) : MotorController :=
  mkMotor (in1 m) (in2 m) (in3 m) (in4 m) (ena m) (enb m) (leftSpeed m)
          (rightSpeed m) (currentDirection m) (isMoving m) hi lo
          (safetyEnabled m) (lastCommandTime m) (commandTimeout m).

Definition set_safety (m : MotorController) (enable : bool) (timeout : Z)
  : MotorController :=
  mkMotor (in1 m) (in2 m) (in3 m) (in4 m) (ena m) (enb m) (leftSpeed m)
          (rightSpeed m) (currentDirection m) (isMoving m) (maxSpeed m)
          (minSpeed m) enable (lastCommandTime m) timeout.

(** [int] addition on the target: two's complement, 32 bits. *)
Definition i32 (z : Z) : Z := (z + 2 ^ 31) mod 2 ^ 32 - 2 ^ 31.

Definition MotorController_new : MotorController :=
  mkMotor false false false false 0 0 0 0 MOTOR_STOP false 255 50 true 0 5000.

Definition constrainSpeed (m : MotorController) (speed : Z) : Z :=
  constrain speed (- maxSpeed m) (maxSpeed m).

Definition isCommandValid (m : MotorController) (now : Z) : bool :=
  negb (safetyEnabled m)
  || (u32 (now - lastCommandTime m) <? u32 (commandTimeout m)).

Definition updateMotors (m : MotorController) : MotorController :=
  let l :=
    if leftSpeed m >? 0 then (true, false, leftSpeed m)
    else if leftSpeed m <? 0 then (false, true, - leftSpeed m)
    else (false, false, 0) in
  let r :=
    if rightSpeed m >? 0 then (true, false, rightSpeed m)
    else if rightSpeed m <? 0 then (false, true, - rightSpeed m)
    else (false, false, 0) in
  write_pins m (fst (fst l)) (snd (fst l)) (fst (fst r)) (snd (fst r))
             (snd l) (snd r).

Definition setSpeeds (m : MotorController) (l r : Z) : MotorController :=
  updateMotors (set_wheels m (constrainSpeed m l) (constrainSpeed m r)).

Definition moveForward (m : MotorController) (speed now : Z) : MotorController :=
  if negb (isCommandValid m now) then m
  else
    let speed' := constrainSpeed m speed in
    set_lastCommandTime (set_motion (setSpeeds m speed' speed') MOTOR_FORWARD true) now.

Definition moveBackward (m : MotorController) (speed now : Z) : MotorController :=
  if negb (isCommandValid m now) then m
  else
    let speed' := constrainSpeed m speed in
    set_lastCommandTime
      (set_motion (setSpeeds m (- speed') (- speed')) MOTOR_BACKWARD true) now.

Definition turnLeft (m : MotorController) (speed now : Z) : MotorController :=
  if negb (isCommandValid m now) then m
  else
    let speed' := constrainSpeed m speed in
    set_lastCommandTime (set_motion (setSpeeds m (- speed') speed') MOTOR_LEFT true) now.

Definition turnRight (m : MotorController) (speed now : Z) : MotorController :=
  if negb (isCommandValid m now) then m
  else
    let speed' := constrainSpeed m speed in
    set_lastCommandTime (set_motion (setSpeeds m speed' (- speed')) MOTOR_RIGHT true) now.

Definition stop (m : MotorController) (now : Z) : MotorController :=
  set_lastCommandTime (set_motion (setSpeeds m 0 0) MOTOR_STOP false) now.

Definition begin (m : MotorController) (now : Z) : MotorController := stop m now.

Definition setDirection (m : MotorController) (direction : MotorDirection)
           (speed now : Z) : MotorController :=
  match direction with
  | MOTOR_FORWARD => moveForward m speed now
  | MOTOR_BACKWARD => moveBackward m speed now
  | MOTOR_LEFT => turnLeft m speed now
  | MOTOR_RIGHT => turnRight m speed now
  | MOTOR_STOP => stop m now
  end.

Definition setMaxSpeed (m : MotorController) (speed : Z) : MotorController :=
  set_limits m (constrain speed 0 255) (minSpeed m).

Definition setMinSpeed (m : MotorController) (speed : Z) : MotorController :=
  set_limits m (maxSpeed m) (constrain speed 0 255).

Definition adjustSpeed (m : MotorController) (deltaSpeed : Z) : MotorController :=
  let l := constrainSpeed m (i32 (leftSpeed m + deltaSpeed)) in
  let m1 := set_wheels m l (rightSpeed m) in
  let r := constrainSpeed m1 (i32 (rightSpeed m1 + deltaSpeed)) in
  updateMotors (set_wheels m1 (leftSpeed m1) r).

Definition enableSafety (m : MotorController) (enable : bool) : MotorController :=
  set_safety m enable (commandTimeout m).

Definition setCommandTimeout (m : MotorController) (timeoutMs : Z) : MotorController :=
  set_safety m (safetyEnabled m) timeoutMs.

Definition emergencyStop (m : MotorController) (now : Z) : MotorController :=
  set_lastCommandTime (set_motion (setSpeeds m 0 0) MOTOR_STOP false) now.

Definition checkSafety (m : MotorController) (now : Z) : MotorController :=
  if negb (safetyEnabled m) then m
  else if isMoving m && (u32 (now - lastCommandTime m) >? u32 (commandTimeout m))
       then emergencyStop m now
       else m.

Definition coast (m : MotorController) : MotorController :=
  set_motion (write_pins m false false false false 0 0) MOTOR_STOP false.

(** The pins of [brake()] during its [delay(100)]. *)
Definition brakePins (m : MotorController) : MotorController :=
  write_pins m true true true true 0 0.

(** [brake()], entered at [now]: [stop()] runs after the delay. *)
Definition brake (m : MotorController) (now : Z) : MotorController :=
  stop (brakePins m) (now + 100).

(** A call of a public function. *)
Inductive Call : Type :=
| CallSetDirection (direction : MotorDirection) (speed : Z)
| CallSetSpeeds (l r : Z)
| CallSetMaxSpeed (speed : Z)
| CallSetMinSpeed (speed : Z)
| CallAdjustSpeed (deltaSpeed : Z)
| CallEnableSafety (enable : bool)
| CallSetCommandTimeout (timeoutMs : Z)
| CallCheckSafety
| CallEmergencyStop
| CallCoast
| CallBrake.

Definition call (m : MotorController) (c : Call) (now : Z) : MotorController :=
  match c with
  | CallSetDirection direction speed => setDirection m direction speed now
  | CallSetSpeeds l r => setSpeeds m l r
  | CallSetMaxSpeed speed => setMaxSpeed m speed
  | CallSetMinSpeed speed => setMinSpeed m speed
  | CallAdjustSpeed deltaSpeed => adjustSpeed m deltaSpeed
  | CallEnableSafety enable => enableSafety m enable
  | CallSetCommandTimeout timeoutMs => setCommandTimeout m timeoutMs
  | CallCheckSafety => checkSafety m now
  | CallEmergencyStop => emergencyStop m now
  | CallCoast => coast m
  | CallBrake => brake m now
  end.

(** A run of calls, each with its clock reading. *)
Definition calls (m : MotorController) (l : list (Call * Z)) : MotorController :=
  fold_left (fun m' c => call m' (fst c) (snd c)) l m.

(** *** Notions used to state the properties *)

(** What holds of the outputs: the duties lie within 0..255 and no motor
    has both of its direction pins high. *)
Definition outputsSafe (m : MotorController) : Prop :=
  0 <= ena m <= 255 /\ 0 <= enb m <= 255
  /\ in1 m && in2 m = false /\ in3 m && in4 m = false.

Definition speedsBounded (m : MotorController) : Prop :=
  0 <= maxSpeed m <= 255
  /\ - 255 <= leftSpeed m <= 255 /\ - 255 <= rightSpeed m <= 255.

(** The safety features are on and the time since the last accepted command
    has reached the timeout. *)
Definition locked (m : MotorController) (now : Z) : Prop :=
  safetyEnabled m = true
  /\ (u32 (now - lastCommandTime m) <? u32 (commandTimeout m)) = false.

(** The state without the field [minSpeed]. *)
Definition forgetMinSpeed (m : MotorController) : MotorController :=
  set_limits m (maxSpeed m) 0.

(** The motors are stopped: wheel speeds 0, direction pins low, duties 0. *)
Definition halted (m : MotorController) : Prop :=
  leftSpeed m = 0 /\ rightSpeed m = 0
  /\ in1 m = false /\ in2 m = false /\ in3 m = false /\ in4 m = false
  /\ ena m = 0 /\ enb m = 0
  /\ isMoving m = false /\ currentDirection m = MOTOR_STOP.

(** The levels of [in1], [in2], [in3], [in4] and the duties of [ena], [enb]. *)
Definition outputs (m : MotorController) : bool * bool * bool * bool * Z * Z :=
  (in1 m, in2 m, in3 m, in4 m, ena m, enb m).

(** Moving exactly when the direction is not Stop. *)
Definition motionConsistent (m : MotorController) : Prop :=
  isMoving m = true <-> currentDirection m <> MOTOR_STOP.

(** A run of movement commands [(direction, speed, clock reading)]. *)
Definition commands (m : MotorController) (l : list (MotorDirection * Z * Z))
  : MotorController :=
  fold_left (fun m' c => setDirection m' (fst (fst c)) (snd (fst c)) (snd c)) l m.

(** What every call keeps. *)
Definition sound (m : MotorController) : Prop :=
  speedsBounded m /\ outputsSafe m /\ motionConsistent m.

End Motor.

(** ** sensors/ultrasonic_sensor

    [measureDistance] reads the echo pin through [pulseIn]; the duration it
    returns, in microseconds and 0 on a timeout, is an argument of the
    functions that measure. [millis()] is the argument [now]. *)

Module Ultrasonic.

Import Arduino.

Record UltrasonicSensor : Type := mkUltrasonic {
  triggerPin : Z;
  echoPin : Z;
  distance : Q;
  obstacleDetected : bool;
  lastUpdate : Z;
  updateInterval : Z;
  obstacleThreshold : Q;
  maxDistance : Q;
  lastReadings : list Q;
  readingIndex : Z;
  isStable : bool
}.

Definition UltrasonicSensor_new : UltrasonicSensor :=
  mkUltrasonic (-1) (-1) 0 false 0 100 20 400 (replicate 5 0%Q) 0 false.

Definition measureDistance (duration : Z) : Q :=
  if duration =? 0 then (- 1)%Q
  else ((inject_Z duration * (343 # 10000)) / 2)%Q.

(** In [begin] the parameter [echoPin] hides the member of that name:
    [echoPin = echoPin;] assigns the parameter to itself and the member
    keeps its value. *)
Definition begin (m : UltrasonicSensor) (trigPin echoPin' : Z)
           (obstacleThresh maxDist : Q) (duration : Z) : UltrasonicSensor :=
  mkUltrasonic trigPin (echoPin m) (distance m) (obstacleDetected m)
               (lastUpdate m) (updateInterval m) obstacleThresh maxDist
               (replicate 5 (measureDistance duration)) (readingIndex m)
               (isStable m).

Definition isReadingValid (m : UltrasonicSensor) (reading : Q) : bool :=
  Qltb 0 reading && negb (Qltb (maxDistance m) reading).

Definition set_filter (m : UltrasonicSensor) (readings : list Q) (index : Z)
           (stable : bool) : UltrasonicSensor :=
  mkUltrasonic (triggerPin m) (echoPin m) (distance m) (obstacleDetected m)
               (lastUpdate m) (updateInterval m) (obstacleThreshold m)
               (maxDistance m) readings index stable.

Definition set_reading (m : UltrasonicSensor) (d : Q) (detected : bool)
  : UltrasonicSensor :=
  mkUltrasonic (triggerPin m) (echoPin m) d detected (lastUpdate m)
               (updateInterval m) (obstacleThreshold m) (maxDistance m)
               (lastReadings m) (readingIndex m) (isStable m).

Definition set_lastUpdate (m : UltrasonicSensor) (t : Z) : UltrasonicSensor :=
  mkUltrasonic (triggerPin m) (echoPin m) (distance m) (obstacleDetected m) t
               (updateInterval m) (obstacleThreshold m) (maxDistance m)
               (lastReadings m) (readingIndex m) (isStable m).

Definition set_thresholds (m : UltrasonicSensor) (threshold maxDist : Q)
  : UltrasonicSensor :=
  mkUltrasonic (triggerPin m) (echoPin m) (distance m) (obstacleDetected m)
               (lastUpdate m) (updateInterval m) threshold maxDist
               (lastReadings m) (readingIndex m) (isStable m).

Definition updateFilter (m : UltrasonicSensor) (newReading : Q) : UltrasonicSensor :=
  set_filter m (<[Z.to_nat (readingIndex m) := newReading]> (lastReadings m))
             ((readingIndex m + 1) mod 5) (isStable m).

(** The loop of [getFilteredDistance]: the sum and the number of the
    positive readings. *)
Definition positiveReadings (readings : list Q) : Q * Z :=
  fold_left (fun acc r => if Qltb 0 r then ((fst acc + r)%Q, snd acc + 1) else acc)
            readings (0%Q, 0).

(** [getFilteredDistance]: the sum over the count, in exact arithmetic
    (the [float] sum and quotient of the code are rounded). *)
Definition getFilteredDistance (m : UltrasonicSensor) : Q :=
  let acc := positiveReadings (lastReadings m) in
  if snd acc >? 0 then (fst acc / inject_Z (snd acc))%Q else 0%Q.

Definition checkStability (m : UltrasonicSensor) : bool :=
  match lastReadings m with
  | first :: _ =>
      if Qeq_bool first 0 then false
      else
        let sum := fold_left Qplus (lastReadings m) 0%Q in
        let average := (sum / 5)%Q in
        let variance :=
          fold_left (fun v r => (v + (r - average) * (r - average))%Q)
                    (lastReadings m) 0%Q in
        Qltb (variance / 5) 25
  | [] => false
  end.

Definition update (m : UltrasonicSensor) (duration now : Z) : UltrasonicSensor :=
  if (triggerPin m =? -1) || (echoPin m =? -1) then m
  else if u32 (now - lastUpdate m) <? u32 (updateInterval m) then m
  else
    let newDistance := measureDistance duration in
    let m1 :=
      if isReadingValid m newDistance then
        let a := updateFilter m newDistance in
        let d := getFilteredDistance a in
        let b := set_reading a d (Qltb d (obstacleThreshold a) && Qltb 0 d) in
        set_filter b (lastReadings b) (readingIndex b) (checkStability b)
      else m in
    set_lastUpdate m1 now.

Definition getDistance (m : UltrasonicSensor) : Q := distance m.

Definition isObstacleDetected (m : UltrasonicSensor) : bool := obstacleDetected m.

Definition setObstacleThreshold (m : UltrasonicSensor) (threshold : Q)
  : UltrasonicSensor :=
  set_thresholds m threshold (maxDistance m).

Definition setMaxDistance (m : UltrasonicSensor) (maxDist : Q) : UltrasonicSensor :=
  set_thresholds m (obstacleThreshold m) maxDist.

Definition isValidReading (m : UltrasonicSensor) : bool :=
  Qltb 0 (distance m) && negb (Qltb (maxDistance m) (distance m)).

Definition resetFilter (m : UltrasonicSensor) : UltrasonicSensor :=
  set_filter m (replicate 5 0%Q) 0 false.

(** A call of a public function that changes the state, with the duration
    [pulseIn] returns where the function measures. *)
Inductive Call : Type :=
| CallBegin (trigPin echoPin' : Z) (obstacleThresh maxDist : Q) (duration : Z)
| CallUpdate (duration : Z)
| CallSetObstacleThreshold (threshold : Q)
| CallSetMaxDistance (maxDist : Q)
| CallResetFilter.

Definition call (m : UltrasonicSensor) (c : Call) (now : Z) : UltrasonicSensor :=
  match c with
  | CallBegin trigPin echoPin' obstacleThresh maxDist duration =>
      begin m trigPin echoPin' obstacleThresh maxDist duration
  | CallUpdate duration => update m duration now
  | CallSetObstacleThreshold threshold => setObstacleThreshold m threshold
  | CallSetMaxDistance maxDist => setMaxDistance m maxDist
  | CallResetFilter => resetFilter m
  end.

(** A run of calls on a freshly constructed sensor. *)
Definition calls (l : list (Call * Z)) : UltrasonicSensor :=
  fold_left (fun m' c => call m' (fst c) (snd c)) l UltrasonicSensor_new.

End Ultrasonic.

(** ** sensors/ir_sensor

    The values [analogRead] returns are arguments: the 200 readings of
    [calibrate], the reading of [update]. The counter [calibrationCount],
    a static local of [update] shared by all sensors, is threaded through
    [update]. *)

Module IR.

Import Arduino.

Record IRSensor : Type := mkIR {
  pin : Z;
  threshold : Z;
  obstacleDetected : bool;
  rawValue : Z;
  lastUpdate : Z;
  updateInterval : Z;
  minValue : Z;
  maxValue : Z;
  isCalibrated : bool
}.

Definition IRSensor_new : IRSensor := mkIR (-1) 500 false 0 0 50 4095 0 false.

Definition set_calibration (m : IRSensor) (th lo hi : Z) (calibrated : bool)
  : IRSensor :=
  mkIR (pin m) th (obstacleDetected m) (rawValue m) (lastUpdate m)
       (updateInterval m) lo hi calibrated.

(** The loop of [calibrate] over the readings taken. *)
Definition range (readings : list Z) : Z * Z :=
  fold_left (fun acc value =>
               (if value <? fst acc then value else fst acc,
                if value >? snd acc then value else snd acc))
            readings (4095, 0).

(** The threshold is computed in double precision and cut to [int]; on
    readings of the converter the cut of the exact value is the same. *)
Definition calibrate (m : IRSensor) (readings : list Z) : IRSensor :=
  let lo := fst (range readings) in
  let hi := snd (range readings) in
  set_calibration m (truncate (inject_Z lo + inject_Z (hi - lo) * (8 # 10))%Q)
                  lo hi true.

Definition begin (m : IRSensor) (sensorPin obstacleThreshold : Z)
           (readings : list Z) : IRSensor :=
  calibrate (mkIR sensorPin obstacleThreshold (obstacleDetected m) (rawValue m)
                  (lastUpdate m) (updateInterval m) (minValue m) (maxValue m)
                  (isCalibrated m))
            readings.

Definition update (calibrationCount : Z) (m : IRSensor) (raw now : Z)
  : Z * IRSensor :=
  if pin m =? -1 then (calibrationCount, m)
  else if u32 (now - lastUpdate m) <? u32 (updateInterval m)
       then (calibrationCount, m)
       else
         let lo := if negb (isCalibrated m) && (raw <? minValue m)
                   then raw else minValue m in
         let hi := if negb (isCalibrated m) && (raw >? maxValue m)
                   then raw else maxValue m in
         let count := if isCalibrated m then calibrationCount
                      else calibrationCount + 1 in
         let calibrated := isCalibrated m || (count >=? 100) in
         (count,
          mkIR (pin m) (threshold m) (raw >? threshold m) raw now
               (updateInterval m) lo hi calibrated).

Definition setThreshold (m : IRSensor) (newThreshold : Z) : IRSensor :=
  set_calibration m newThreshold (minValue m) (maxValue m) (isCalibrated m).

Definition resetCalibration (m : IRSensor) : IRSensor :=
  set_calibration m 500 4095 0 false.

Definition getDistance (m : IRSensor) : Q :=
  if negb (isCalibrated m) || (maxValue m =? minValue m) then (- 1)%Q
  else
    let normalizedValue :=
      (inject_Z (rawValue m - minValue m) / inject_Z (maxValue m - minValue m))%Q in
    constrainQ (100 * (1 - normalizedValue))%Q 0 100.

(** The reading is one an [analogRead] of the 12-bit converter returns. *)
Definition adc (value : Z) : Prop := 0 <= value <= 4095.

(** The sensor with the reading [raw] in place of its last reading. *)
Definition withRaw (m : IRSensor) (raw : Z) : IRSensor :=
  mkIR (pin m) (threshold m) (obstacleDetected m) raw (lastUpdate m)
       (updateInterval m) (minValue m) (maxValue m) (isCalibrated m).

End IR.

(** ** The mode driving the controller

    [AutonomousMode] holds a pointer to the [MotorController] and to the
    [UltrasonicSensor]; the calls it makes on the motors during a tick
    reach the controller at the clock reading of the tick. *)

Module Rover.

Import Arduino Nav.

(** The call on the controller that an event of the mode stands for. *)
Definition deliver (mc : Motor.MotorController) (now : Z) (e : Event)
  : Motor.MotorController :=
  match e with
  | moveForward speed => Motor.moveForward mc speed now
  | moveBackward speed => Motor.moveBackward mc speed now
  | turnLeft speed => Motor.turnLeft mc speed now
  | turnRight speed => Motor.turnRight mc speed now
  | motorsStop => Motor.stop mc now
  | playSystemSound _ | logNavigationEvent _ => mc
  end.

(** One call of [update()] of the mode; the motor calls it makes are
    carried out on the controller. *)
Definition tick (r : AutonomousMode * Motor.MotorController) (s : Sensors)
           (now : Z) : AutonomousMode * Motor.MotorController :=
  let m' := update (fst r) s now in
  (m',
   fold_left (fun mc e => deliver mc now e)
             (drop (length (directives (events (fst r)))) (directives (events m')))
             (snd r)).

(** What the sensors answer when the ranger is the sensor [u]. *)
Definition readings (left center right : bool) (u : Ultrasonic.UltrasonicSensor)
  : Sensors :=
  mkSensors left center right (Ultrasonic.getDistance u).

End Rover.

(** * Properties *)

Module ArduinoFacts.

Import Arduino.

Lemma Qltb_lt (a b : Q) : Qltb a b = true <-> (a < b)%Q.
Proof.
  unfold Qltb. rewrite negb_true_iff, <- not_true_iff_false, Qle_bool_iff.
  split; [apply Qnot_le_lt | apply Qlt_not_le].
Qed.

Lemma Qltb_ge (a b : Q) : Qltb a b = false <-> (b <= a)%Q.
Proof. unfold Qltb. rewrite negb_false_iff. apply Qle_bool_iff. Qed.

Lemma Qltb_spec (a b : Q) : reflect (a < b)%Q (Qltb a b).
Proof.
  destruct (Qltb a b) eqn:E; constructor.
  - now apply Qltb_lt.
  - apply Qltb_ge in E. now apply Qle_not_lt.
Qed.

Lemma max_Qmax (a b : Q) : (max a b == Qmax a b)%Q.
Proof.
  unfold max. destruct (Qltb_spec b a) as [L | L].
  - symmetry. apply Q.max_l. now apply Qlt_le_weak.
  - symmetry. apply Q.max_r. now apply Qnot_lt_le.
Qed.

Lemma min_Qmin (a b : Q) : (min a b == Qmin a b)%Q.
Proof.
  unfold min. destruct (Qltb_spec a b) as [L | L].
  - symmetry. apply Q.min_l. now apply Qlt_le_weak.
  - symmetry. apply Q.min_r. now apply Qnot_lt_le.
Qed.

Lemma max_ub_l (a b : Q) : (a <= max a b)%Q.
Proof.
  unfold max. destruct (Qltb_spec b a) as [L | L]; [apply Qle_refl |].
  now apply Qnot_lt_le.
Qed.

Lemma max_ub_r (a b : Q) : (b <= max a b)%Q.
Proof.
  unfold max. destruct (Qltb_spec b a) as [L | L]; [| apply Qle_refl].
  now apply Qlt_le_weak.
Qed.

Lemma max_lub (a b c : Q) : (a <= c)%Q -> (b <= c)%Q -> (max a b <= c)%Q.
Proof. unfold max. now destruct (Qltb b a). Qed.

Lemma min_glb_lt (a b c : Q) : (c < a)%Q -> (c < b)%Q -> (c < min a b)%Q.
Proof. unfold min. now destruct (Qltb a b). Qed.

Lemma truncate_inject_Z (q : Q) (z : Z) : (q == inject_Z z)%Q -> truncate q = z.
Proof.
  unfold truncate, Qeq. destruct q as [n d]; simpl. intros E.
  rewrite Z.mul_1_r in E. subst n. now apply Z.quot_mul.
Qed.

End ArduinoFacts.

Module SLAMFacts.

Import Arduino ArduinoFacts SLAM.

(** *** The cell array *)

Lemma inBounds_spec (cfg : MapConfig) (px py : Z) :
  inBounds cfg px py = true
  <-> 0 <= px < mapWidth cfg /\ 0 <= py < mapHeight cfg.
Proof. unfold inBounds. rewrite !andb_true_iff. lia. Qed.

Lemma guard_inBounds (cfg : MapConfig) (px py : Z) :
  (px <? 0) || (px >=? mapWidth cfg) || (py <? 0) || (py >=? mapHeight cfg)
  = negb (inBounds cfg px py).
Proof.
  unfold inBounds.
  destruct (Z.ltb_spec px 0), (Z.leb_spec 0 px), (Z.ltb_spec px (mapWidth cfg)),
    (Z.ltb_spec py 0), (Z.leb_spec 0 py), (Z.ltb_spec py (mapHeight cfg));
    rewrite ?Z.geb_leb; simpl;
    repeat match goal with
           | |- context [?a <=? ?b] => destruct (Z.leb_spec a b)
           end; simpl; try reflexivity; lia.
Qed.

Lemma readCell_writeCell_eq (g : list (list MapCell)) (px py : Z) (c c' : MapCell) :
  readCell g px py = Some c -> readCell (writeCell g px py c') px py = Some c'.
Proof.
  unfold readCell, writeCell. destruct (g !! Z.to_nat py) as [row |] eqn:R; [| done].
  intros C. rewrite list_lookup_insert_eq by (eapply lookup_lt_Some; eauto).
  apply list_lookup_insert_eq. eapply lookup_lt_Some; eauto.
Qed.

Lemma readCell_writeCell_ne (g : list (list MapCell)) (px py qx qy : Z) (c : MapCell) :
  0 <= px -> 0 <= py -> 0 <= qx -> 0 <= qy -> (px, py) <> (qx, qy) ->
  readCell (writeCell g px py c) qx qy = readCell g qx qy.
Proof.
  intros Hpx Hpy Hqx Hqy Hne. unfold readCell, writeCell.
  destruct (g !! Z.to_nat py) as [row |] eqn:R; [| done].
  destruct (decide (py = qy)) as [-> | Hy].
  - rewrite list_lookup_insert_eq by (eapply lookup_lt_Some; eauto).
    rewrite R. apply list_lookup_insert_ne.
    intros E. apply Hne. f_equal. lia.
  - rewrite list_lookup_insert_ne by lia. done.
Qed.

Lemma config_updateMapCell (m : SLAMMapper) px py ty conf now :
  config (updateMapCell m px py ty conf now) = config m.
Proof.
  unfold updateMapCell. destruct (_ || _); [done |].
  now destruct (readCell (map m) px py).
Qed.

Lemma thresholds_updateMapCell (m : SLAMMapper) px py ty conf now :
  occupancyThreshold (updateMapCell m px py ty conf now) = occupancyThreshold m
  /\ freeThreshold (updateMapCell m px py ty conf now) = freeThreshold m.
Proof.
  unfold updateMapCell. destruct (_ || _); [done |].
  now destruct (readCell (map m) px py).
Qed.

Lemma pose_updateMapCell (m : SLAMMapper) px py ty conf now :
  carPosition (updateMapCell m px py ty conf now) = carPosition m
  /\ carAngle (updateMapCell m px py ty conf now) = carAngle m.
Proof.
  unfold updateMapCell. destruct (_ || _); [done |].
  now destruct (readCell (map m) px py).
Qed.

Lemma cellAt_updateMapCell_eq (m : SLAMMapper) px py ty conf now cell :
  cellAt m px py = Some cell ->
  cellAt (updateMapCell m px py ty conf now) px py
  = Some (updateCell (occupancyThreshold m) (freeThreshold m) cell ty conf now).
Proof.
  unfold cellAt. rewrite config_updateMapCell.
  destruct (inBounds (config m) px py) eqn:B; [| done].
  intros C. unfold updateMapCell. rewrite guard_inBounds, B. simpl.
  rewrite C. simpl. eapply readCell_writeCell_eq; eauto.
Qed.

Lemma cellAt_updateMapCell_ne (m : SLAMMapper) px py qx qy ty conf now :
  (px, py) <> (qx, qy) ->
  cellAt (updateMapCell m px py ty conf now) qx qy = cellAt m qx qy.
Proof.
  intros Hne. unfold cellAt. rewrite config_updateMapCell.
  destruct (inBounds (config m) qx qy) eqn:Bq; [| done].
  unfold updateMapCell. rewrite guard_inBounds.
  destruct (inBounds (config m) px py) eqn:Bp; [| done]. simpl.
  destruct (readCell (map m) px py) as [c |]; [| done]. simpl.
  apply inBounds_spec in Bp, Bq.
  apply readCell_writeCell_ne; [lia .. | done].
Qed.


(** *** Readings that are not integrated *)

(** C10. For every reading whose projected endpoint cell falls outside the
    grid, the integration step performs no cell update at all: neither the
    endpoint nor the cells of the ray inside the grid are touched, and the
    mapper is left as it was. *)
Theorem endpoint_outside_no_update `{Libm} (m : SLAMMapper) (d a : Q) (now : Z) :
  inBounds (config m)
           (gx (worldToMap (config m) (beamX m d a) (beamY m d a)))
           (gy (worldToMap (config m) (beamX m d a) (beamY m d a))) = false ->
  updateOccupancyGrid m d a now = m
  /\ integrateIR m d a now = m
  /\ (d = lastUltrasonicDistance m -> a = carAngle m ->
      integrateUltrasonic m now = m).
Proof.
  intros B.
  assert (U : updateOccupancyGrid m d a now = m)
    by (unfold updateOccupancyGrid; now rewrite B).
  split; [exact U |]. split.
  - unfold integrateIR. rewrite U. now destruct (_ && _).
  - intros -> ->. unfold integrateUltrasonic. rewrite U. now destruct (_ && _).
Qed.

Lemma endpoint_outside_no_update_witness :
  let m := updatePosition gridMapper 3 0 0 10 in
  updateOccupancyGrid (H := seriesLibm) m 3 0 11 = m
  /\ integrateIR (H := seriesLibm) m 3 0 11 = m
  /\ (3%Q = lastUltrasonicDistance m -> 0%Q = carAngle m ->
      integrateUltrasonic (H := seriesLibm) m 11 = m).
Proof.
  apply (endpoint_outside_no_update (H := seriesLibm)
           (updatePosition gridMapper 3 0 0 10) 3 0 11).
  reflexivity.
Defined.

(** C3 (amended). A reading is discarded, leaving every cell (classification,
    confidence, visited flag, timestamp) as it was and raising nothing, when
    it is at or above [maxRange], or at or below the lower bound of its
    branch: [minRange] for the ultrasonic beam, 0 for an infrared beam. *)
Theorem out_of_range_discarded `{Libm} (m : SLAMMapper) (b : Beam) (now : Z) :
  (beamReading m b <= beamFloor m b)%Q
  \/ (maxRange (config m) <= beamReading m b)%Q ->
  integrate m b now = m.
Proof.
  destruct b as [| a d]; simpl; intros R.
  - unfold integrateUltrasonic.
    destruct (Qltb_spec (minRange (config m)) (lastUltrasonicDistance m)) as [L | L];
      [| done].
    destruct (Qltb_spec (lastUltrasonicDistance m) (maxRange (config m))) as [U | U];
      [| done].
    exfalso. destruct R as [R | R]; [apply (Qlt_not_le _ _ L R) | apply (Qlt_not_le _ _ U R)].
  - unfold integrateIR.
    destruct (Qltb_spec 0 d) as [L | L]; [| done].
    destruct (Qltb_spec d (maxRange (config m))) as [U | U]; [| done].
    exfalso. destruct R as [R | R]; [apply (Qlt_not_le _ _ L R) | apply (Qlt_not_le _ _ U R)].
Qed.

Lemma out_of_range_discarded_witness :
  integrate (H := seriesLibm)
            (updateSensors gridMapper (3 # 100) 0 0 0) Ultrasonic 42
  = updateSensors gridMapper (3 # 100) 0 0 0.
Proof.
  apply (out_of_range_discarded (H := seriesLibm)
           (updateSensors gridMapper (3 # 100) 0 0 0) Ultrasonic 42).
  left. vm_compute. discriminate.
Defined.

(** C3 as stated fails on the infrared beams: the centre infrared reading
    0.03 m lies below [minRange = 0.05] and is integrated all the same; the
    cell under its endpoint turns Obstacle with confidence 0.8. *)
Lemma infrared_below_minRange_integrated :
  let m := updateSensors gridMapper 0 0 (3 # 100) 0 in
  (lastIRCenter m < minRange (config m))%Q
  /\ cellAt m 5 5 = Some emptyCell
  /\ cellAt (integrateIR (H := seriesLibm) m (lastIRCenter m) (carAngle m) 42) 5 5
     = Some (mkCell OBSTACLE (8 # 10) 42 false)
  /\ cellAt (processSensorData (H := seriesLibm) m 42) 5 5
     = Some (mkCell OBSTACLE (8 # 10) 42 true).
Proof. vm_compute. repeat split; reflexivity. Qed.

(** *** The ray walk *)

Lemma sameFrame_refl (m : SLAMMapper) : sameFrame m m.
Proof. now repeat split. Qed.

Lemma sameFrame_trans (m1 m2 m3 : SLAMMapper) :
  sameFrame m1 m2 -> sameFrame m2 m3 -> sameFrame m1 m3.
Proof.
  intros (A1 & A2 & A3 & A4 & A5) (B1 & B2 & B3 & B4 & B5).
  repeat split; congruence.
Qed.

Lemma sameFrame_updateMapCell (m : SLAMMapper) px py ty conf now :
  sameFrame m (updateMapCell m px py ty conf now).
Proof.
  unfold sameFrame.
  pose proof (config_updateMapCell m px py ty conf now).
  pose proof (thresholds_updateMapCell m px py ty conf now) as [? ?].
  pose proof (pose_updateMapCell m px py ty conf now) as [? ?].
  auto.
Qed.

Lemma rayCell_sameFrame `{Libm} (m m' : SLAMMapper) (a : Q) (i : Z) :
  sameFrame m m' -> rayCell m' a i = rayCell m a i.
Proof.
  intros (E1 & E2 & E3 & _). unfold rayCell, beamX, beamY, stepSize.
  now rewrite E1, E2, E3.
Qed.

Lemma sameFrame_freeSpaceStep `{Libm} (m : SLAMMapper) (a : Q) (now i : Z) :
  sameFrame m (freeSpaceStep a now m i).
Proof.
  unfold freeSpaceStep. destruct (inBounds _ _ _).
  - apply sameFrame_updateMapCell.
  - apply sameFrame_refl.
Qed.

Lemma sameFrame_updateObstacle `{Libm} (m : SLAMMapper) (d a : Q) (now : Z) :
  sameFrame m (updateObstacle m d a now).
Proof.
  unfold updateObstacle. destruct (inBounds _ _ _).
  - apply sameFrame_updateMapCell.
  - apply sameFrame_refl.
Qed.

Lemma cellAt_inBounds (m : SLAMMapper) px py c :
  cellAt m px py = Some c -> inBounds (config m) px py = true.
Proof. unfold cellAt. now destruct (inBounds (config m) px py). Qed.

Lemma freeSpaceStep_hit `{Libm} (m : SLAMMapper) (a : Q) (now i px py : Z) c :
  rayCell m a i = mkGridPoint px py ->
  cellAt m px py = Some c ->
  cellAt (freeSpaceStep a now m i) px py
  = Some (updateCell (occupancyThreshold m) (freeThreshold m) c FREE (6 # 10) now).
Proof.
  intros R C. unfold freeSpaceStep. rewrite R. cbn [gx gy].
  rewrite (cellAt_inBounds _ _ _ _ C). now apply cellAt_updateMapCell_eq.
Qed.

Lemma freeSpaceStep_miss `{Libm} (m : SLAMMapper) (a : Q) (now i px py : Z) :
  rayCell m a i <> mkGridPoint px py ->
  cellAt (freeSpaceStep a now m i) px py = cellAt m px py.
Proof.
  intros R. unfold freeSpaceStep. destruct (inBounds _ _ _); [| done].
  apply cellAt_updateMapCell_ne. intros E. apply R.
  destruct (rayCell m a i) as [u v]. simpl in E. now inversion E.
Qed.

(** A Free update turns a cell Free unless it is an Obstacle at or below the
    free threshold. *)
Lemma updateCell_FREE_commits (occ free : Q) (c : MapCell) (now : Z) :
  (free < 4 # 10)%Q ->
  (type c = OBSTACLE -> (free < confidence c)%Q) ->
  type (updateCell occ free c FREE (6 # 10) now) = FREE.
Proof.
  intros F I. unfold updateCell. simpl.
  destruct (MapCellType_eqb (type c) OBSTACLE) eqn:E.
  - assert (T : type c = OBSTACLE) by (now destruct (type c)).
    rewrite (proj2 (Qltb_lt _ _)); [done |].
    apply min_glb_lt; [auto |]. lra.
  - rewrite (proj2 (Qltb_lt _ _)); [done |].
    apply Qlt_le_trans with (6 # 10)%Q; [lra | apply max_ub_r].
Qed.

Lemma walk_keeps_free `{Libm} (a : Q) (now px py : Z) (l : list Z) :
  forall m : SLAMMapper,
    (freeThreshold m < 4 # 10)%Q ->
    (exists c, cellAt m px py = Some c /\ type c = FREE) ->
    exists c', cellAt (fold_left (freeSpaceStep a now) l m) px py = Some c'
               /\ type c' = FREE.
Proof.
  induction l as [| i l IH]; intros m F (c & C & T); simpl; [eauto |].
  pose proof (sameFrame_freeSpaceStep m a now i) as (_ & _ & _ & _ & Ef).
  apply IH; [now rewrite Ef |].
  destruct (decide (rayCell m a i = mkGridPoint px py)) as [R | R].
  - rewrite (freeSpaceStep_hit _ _ _ _ _ _ _ R C). eexists; split; [done |].
    apply updateCell_FREE_commits; [done |]. rewrite T. discriminate.
  - rewrite (freeSpaceStep_miss _ _ _ _ _ _ R). eauto.
Qed.

Lemma walk_frees_sampled `{Libm} (a : Q) (now px py : Z) (l : list Z) :
  forall m : SLAMMapper,
    (freeThreshold m < 4 # 10)%Q ->
    (exists c, cellAt m px py = Some c
               /\ (type c = OBSTACLE -> (freeThreshold m < confidence c)%Q)) ->
    (exists i, i ∈ l /\ rayCell m a i = mkGridPoint px py) ->
    exists c', cellAt (fold_left (freeSpaceStep a now) l m) px py = Some c'
               /\ type c' = FREE.
Proof.
  induction l as [| j l IH]; intros m F (c & C & I) (i & Hi & R).
  - now apply elem_of_nil in Hi.
  - simpl.
    pose proof (sameFrame_freeSpaceStep m a now j) as S.
    pose proof S as (_ & _ & _ & _ & Ef).
    destruct (decide (rayCell m a j = mkGridPoint px py)) as [Rj | Rj].
    + apply walk_keeps_free; [now rewrite Ef |].
      rewrite (freeSpaceStep_hit _ _ _ _ _ _ _ Rj C). eexists; split; [done |].
      now apply updateCell_FREE_commits.
    + apply IH; [now rewrite Ef | |].
      * rewrite (freeSpaceStep_miss _ _ _ _ _ _ Rj), Ef. eauto.
      * apply elem_of_cons in Hi as [-> | Hi]; [done |].
        exists i. split; [done |]. now rewrite (rayCell_sameFrame _ _ _ _ S).
Qed.

Lemma integrate_in_range `{Libm} (m : SLAMMapper) (b : Beam) (now : Z) :
  (beamFloor m b < beamReading m b)%Q ->
  (beamReading m b < maxRange (config m))%Q ->
  integrate m b now
  = updateOccupancyGrid m (beamReading m b) (beamBearing m b) now.
Proof.
  intros L U. destruct b as [| a d]; simpl in *.
  - unfold integrateUltrasonic.
    now rewrite (proj2 (Qltb_lt _ _) L), (proj2 (Qltb_lt _ _) U).
  - unfold integrateIR.
    now rewrite (proj2 (Qltb_lt _ _) L), (proj2 (Qltb_lt _ _) U).
Qed.

Lemma updateOccupancyGrid_frees_sampled `{Libm} (m : SLAMMapper) (d a : Q)
      (now px py : Z) (c : MapCell) :
  (freeThreshold m < 4 # 10)%Q ->
  inBounds (config m) (gx (endpointCell m d a)) (gy (endpointCell m d a)) = true ->
  sampled m d a px py ->
  mkGridPoint px py <> endpointCell m d a ->
  cellAt m px py = Some c ->
  (type c = OBSTACLE -> (freeThreshold m < confidence c)%Q) ->
  exists c', cellAt (updateOccupancyGrid m d a now) px py = Some c'
             /\ type c' = FREE.
Proof.
  intros F B (i & Hi & R) N C I.
  unfold updateOccupancyGrid. fold (endpointCell m d a). rewrite B.
  unfold updateFreeSpace.
  pose proof (sameFrame_updateObstacle m d a now) as S.
  pose proof S as (Ec & _ & _ & _ & Ef).
  assert (C' : cellAt (updateObstacle m d a now) px py = Some c).
  { unfold updateObstacle. fold (endpointCell m d a). rewrite B.
    rewrite cellAt_updateMapCell_ne; [done |].
    intros E. apply N. destruct (endpointCell m d a) as [u v].
    simpl in E. now inversion E. }
  apply walk_frees_sampled.
  - now rewrite Ef.
  - exists c. split; [done |]. now rewrite Ef.
  - exists i. split.
    + apply elem_of_seqZ. unfold steps, stepSize in *. rewrite Ec. lia.
    + now rewrite (rayCell_sameFrame _ _ _ _ S).
Qed.




(** *** Repeated updates of one cell *)

Lemma cellAt_repeatUpdate (ty : MapCellType) (conf : Q) (px py : Z) (ts : list Z) :
  forall (m : SLAMMapper) (c : MapCell),
    cellAt m px py = Some c ->
    cellAt (repeatUpdate m px py ty conf ts) px py
    = Some (repeatCell (occupancyThreshold m) (freeThreshold m) c ty conf ts).
Proof.
  unfold repeatUpdate, repeatCell.
  induction ts as [| t ts IH]; intros m c C; simpl; [done |].
  pose proof (thresholds_updateMapCell m px py ty conf t) as [Eo Ef].
  rewrite (IH _ _ (cellAt_updateMapCell_eq _ _ _ _ _ _ _ C)).
  now rewrite Eo, Ef.
Qed.

Lemma repeatCell_snoc (occ free : Q) (c : MapCell) ty conf (ts : list Z) (t : Z) :
  repeatCell occ free c ty conf (ts ++ [t])
  = updateCell occ free (repeatCell occ free c ty conf ts) ty conf t.
Proof. unfold repeatCell. now rewrite fold_left_app. Qed.

Lemma repeatCell_cons (occ free : Q) (c : MapCell) ty conf (ts : list Z) (t : Z) :
  repeatCell occ free c ty conf (t :: ts)
  = repeatCell occ free (updateCell occ free c ty conf t) ty conf ts.
Proof. reflexivity. Qed.

(** One Obstacle update at 0.9 of a cell that is not Free, or that holds at
    most 0.9: the confidence does not decrease, and the cell is again of
    that kind. *)
Lemma obstacle_update_step (occ free : Q) (c : MapCell) (t : Z) :
  type c <> FREE \/ (confidence c <= 9 # 10)%Q ->
  (confidence c <= confidence (updateCell occ free c OBSTACLE (9 # 10) t))%Q
  /\ (type (updateCell occ free c OBSTACLE (9 # 10) t) <> FREE
      \/ (confidence (updateCell occ free c OBSTACLE (9 # 10) t) <= 9 # 10)%Q).
Proof.
  intros J. unfold updateCell. cbn [confidence type].
  destruct (MapCellType_eqb (type c) FREE) eqn:E.
  - assert (T : type c = FREE) by (now destruct (type c)).
    destruct J as [J | J]; [done |].
    unfold Qdiv. change (/ 2)%Q with (1 # 2)%Q.
    split; [lra | right; lra].
  - split; [apply max_ub_l | left].
    destruct (Qltb occ (max (confidence c) (9 # 10))); [discriminate |].
    intros T. rewrite T in E. discriminate.
Qed.

Lemma obstacle_update_bound (occ free : Q) (c : MapCell) (t : Z) (B : Q) :
  (confidence c <= B)%Q -> (9 # 10 <= B)%Q ->
  (confidence (updateCell occ free c OBSTACLE (9 # 10) t) <= B)%Q.
Proof.
  intros Hc HB. unfold updateCell. cbn [confidence type].
  destruct (MapCellType_eqb (type c) FREE); [| now apply max_lub].
  unfold Qdiv. change (/ 2)%Q with (1 # 2)%Q. lra.
Qed.

Lemma repeatCell_kind (occ free : Q) (ts : list Z) :
  forall c : MapCell,
    type c <> FREE \/ (confidence c <= 9 # 10)%Q ->
    type (repeatCell occ free c OBSTACLE (9 # 10) ts) <> FREE
    \/ (confidence (repeatCell occ free c OBSTACLE (9 # 10) ts) <= 9 # 10)%Q.
Proof.
  induction ts as [| t ts IH]; intros c J; [done |].
  rewrite repeatCell_cons. apply IH. now apply obstacle_update_step.
Qed.

Lemma repeatCell_bound (occ free : Q) (B : Q) (ts : list Z) :
  forall c : MapCell,
    (confidence c <= B)%Q -> (9 # 10 <= B)%Q ->
    (confidence (repeatCell occ free c OBSTACLE (9 # 10) ts) <= B)%Q.
Proof.
  induction ts as [| t ts IH]; intros c Hc HB; [done |].
  rewrite repeatCell_cons. apply IH; [| done]. now apply obstacle_update_bound.
Qed.

(** C9 (amended). For every cell and every number of updates with
    (Obstacle, 0.9): the confidence never exceeds the larger of the initial
    confidence and 0.9, hence never exceeds 1.0 when it started at most at
    1.0; and for a cell that is not Free, or whose confidence is at most
    0.9, the next update never lowers the confidence. The sequence is
    bounded by the larger of the initial confidence and 0.9; it does not
    approach 1.0. *)
Theorem repeated_obstacle_updates (m : SLAMMapper) (px py : Z) (c0 : MapCell)
        (ts : list Z) (t : Z) :
  cellAt m px py = Some c0 ->
  exists c c',
    cellAt (repeatUpdate m px py OBSTACLE (9 # 10) ts) px py = Some c
    /\ cellAt (repeatUpdate m px py OBSTACLE (9 # 10) (ts ++ [t])) px py = Some c'
    /\ (type c0 <> FREE \/ (confidence c0 <= 9 # 10)%Q ->
        (confidence c <= confidence c')%Q)
    /\ (confidence c' <= Qmax (confidence c0) (9 # 10))%Q
    /\ ((confidence c0 <= 1)%Q -> (confidence c' <= 1)%Q).
Proof.
  intros C.
  exists (repeatCell (occupancyThreshold m) (freeThreshold m) c0 OBSTACLE (9 # 10) ts).
  exists (repeatCell (occupancyThreshold m) (freeThreshold m) c0 OBSTACLE (9 # 10)
                     (ts ++ [t])).
  split; [now apply cellAt_repeatUpdate |].
  split; [now apply cellAt_repeatUpdate |].
  split; [| split].
  - intros J. rewrite repeatCell_snoc. apply obstacle_update_step.
    now apply repeatCell_kind.
  - apply repeatCell_bound; [apply Q.le_max_l | apply Q.le_max_r].
  - intros H1. apply repeatCell_bound; [done | lra].
Qed.

Lemma repeated_obstacle_updates_witness :
  exists c c',
    cellAt (repeatUpdate gridMapper 1 1 OBSTACLE (9 # 10) [10; 20]) 1 1 = Some c
    /\ cellAt (repeatUpdate gridMapper 1 1 OBSTACLE (9 # 10) ([10; 20] ++ [30])) 1 1
       = Some c'
    /\ (type emptyCell <> FREE \/ (confidence emptyCell <= 9 # 10)%Q ->
        (confidence c <= confidence c')%Q)
    /\ (confidence c' <= Qmax (confidence emptyCell) (9 # 10))%Q
    /\ ((confidence emptyCell <= 1)%Q -> (confidence c' <= 1)%Q).
Proof.
  apply (repeated_obstacle_updates gridMapper 1 1 emptyCell [10; 20] 30).
  reflexivity.
Defined.

Lemma repeatCell_settled (free : Q) (ts : list Z) :
  forall c : MapCell,
    type c = OBSTACLE -> confidence c = (9 # 10)%Q ->
    confidence (repeatCell (7 # 10) free c OBSTACLE (9 # 10) ts) = (9 # 10)%Q.
Proof.
  induction ts as [| t ts IH]; intros c T K; [done |].
  rewrite repeatCell_cons.
  apply IH; unfold updateCell; cbn [type confidence]; rewrite T, K; reflexivity.
Qed.

(** C9 as stated fails in two ways. The cell under the car, Free with
    confidence 1.0 after a first reading, drops to 0.95 on an update with
    (Obstacle, 0.9): the sequence decreases. And on a fresh cell every
    update after the first leaves the confidence at 0.9: the sequence stays
    0.1 away from 1.0 however long it runs. *)
Lemma obstacle_updates_neither_monotone_nor_to_one :
  (let m := sense (H := seriesLibm) gridMapper 0 0 0 3 0 0 0 10 in
   cellAt m 5 5 = Some (mkCell FREE 1 10 true)
   /\ cellAt (updateMapCell m 5 5 OBSTACLE (9 # 10) 11) 5 5
      = Some (mkCell OBSTACLE (19 # 20) 11 true)
   /\ (19 # 20 < 1)%Q)
  /\ (forall (t : Z) (ts : list Z),
        confidence <$> cellAt (repeatUpdate gridMapper 1 1 OBSTACLE (9 # 10) (t :: ts)) 1 1
        = Some (9 # 10)%Q).
Proof.
  split.
  - vm_compute. repeat split; reflexivity.
  - intros t ts.
    rewrite (cellAt_repeatUpdate OBSTACLE (9 # 10) 1 1 (t :: ts) gridMapper emptyCell
               eq_refl).
    rewrite repeatCell_cons. cbn [fmap option_fmap option_map]. f_equal.
    now apply repeatCell_settled.
Qed.

(** *** Saving and loading *)




Lemma In_cellEntries (m : SLAMMapper) (e : CellEntry) :
  In e (cellEntries m)
  <-> exists px py c,
        inBounds (config m) px py = true
        /\ readCell (map m) px py = Some c
        /\ listed c = true
        /\ e = cellEntry px py c.
Proof.
  unfold cellEntries. rewrite in_flat_map. split.
  - intros (py & Hy & He). apply in_flat_map in He as (px & Hx & He).
    apply list_elem_of_In, elem_of_seqZ in Hy, Hx.
    destruct (readCell (map m) px py) as [c |] eqn:R; [| done].
    destruct (listed c) eqn:Li; [| done].
    destruct He as [<- | []]. exists px, py, c.
    repeat split; try done. apply inBounds_spec. lia.
  - intros (px & py & c & B & R & Li & ->). apply inBounds_spec in B.
    exists py. split; [apply list_elem_of_In, elem_of_seqZ; lia |].
    apply in_flat_map. exists px.
    split; [apply list_elem_of_In, elem_of_seqZ; lia |].
    rewrite R, Li. now left.
Qed.






(** *** Reading the document back *)

Local Open Scope string_scope.



































Local Close Scope string_scope.




(** *** Obstacle cells in reachable states *)

Lemma updateMapCell_absent (m : SLAMMapper) px py ty conf now :
  cellAt m px py = None -> updateMapCell m px py ty conf now = m.
Proof.
  unfold cellAt, updateMapCell. rewrite guard_inBounds.
  destruct (inBounds (config m) px py); cbn [negb]; [| done].
  now intros ->.
Qed.

Lemma updateCell_aboveFree (occ free : Q) (c : MapCell) (ty : MapCellType)
      (conf : Q) (now : Z) :
  (free <= occ)%Q ->
  (ty = FREE -> conf = (6 # 10)%Q /\ (free < 4 # 10)%Q) ->
  aboveFree free c ->
  aboveFree free (updateCell occ free c ty conf now).
Proof.
  intros Ho Hf I. destruct ty.
  - unfold aboveFree, updateCell. cbn [type]. discriminate.
  - destruct (Hf eq_refl) as [-> F]. unfold aboveFree.
    rewrite (updateCell_FREE_commits occ free c now F I). discriminate.
  - unfold aboveFree, updateCell. cbn [type confidence].
    destruct (Qltb_spec occ (if MapCellType_eqb (type c) FREE
                             then ((confidence c + conf) / 2)%Q
                             else max (confidence c) conf)) as [L | L].
    + intros _. eapply Qle_lt_trans; eauto.
    + intros T. destruct (MapCellType_eqb (type c) FREE) eqn:E.
      * rewrite T in E. discriminate.
      * eapply Qlt_le_trans; [apply (I T) | apply max_ub_l].
  - unfold aboveFree, updateCell. cbn [type]. discriminate.
  - unfold aboveFree, updateCell. cbn [type]. discriminate.
Qed.

Lemma obstacleAboveFree_updateMapCell (m : SLAMMapper) px py ty conf now :
  (freeThreshold m <= occupancyThreshold m)%Q ->
  (ty = FREE -> conf = (6 # 10)%Q /\ (freeThreshold m < 4 # 10)%Q) ->
  obstacleAboveFree m ->
  obstacleAboveFree (updateMapCell m px py ty conf now).
Proof.
  intros Ho Hf I qx qy c' C'.
  pose proof (thresholds_updateMapCell m px py ty conf now) as [_ ->].
  destruct (decide ((px, py) = (qx, qy))) as [E | N].
  - inversion E; subst qx qy.
    destruct (cellAt m px py) as [c |] eqn:C.
    + rewrite (cellAt_updateMapCell_eq _ _ _ _ _ _ _ C) in C'.
      inversion C'; subst c'. apply updateCell_aboveFree; eauto.
    + rewrite (updateMapCell_absent _ _ _ _ _ _ C), C in C'. discriminate.
  - rewrite (cellAt_updateMapCell_ne _ _ _ _ _ _ _ _ N) in C'. eauto.
Qed.

Lemma stable_updateMapCell (m : SLAMMapper) px py ty conf now :
  (ty = FREE -> conf = (6 # 10)%Q) ->
  defaultThresholds m /\ obstacleAboveFree m ->
  defaultThresholds (updateMapCell m px py ty conf now)
  /\ obstacleAboveFree (updateMapCell m px py ty conf now).
Proof.
  intros Hf [[Eo Ef] I].
  pose proof (thresholds_updateMapCell m px py ty conf now) as [Eo' Ef'].
  split; [split; congruence |].
  apply obstacleAboveFree_updateMapCell; [| | done].
  - rewrite Eo, Ef. discriminate.
  - intros T. split; [auto |]. rewrite Ef. reflexivity.
Qed.

Lemma stable_updateOccupancyGrid `{Libm} (m : SLAMMapper) (d a : Q) (now : Z) :
  defaultThresholds m /\ obstacleAboveFree m ->
  defaultThresholds (updateOccupancyGrid m d a now)
  /\ obstacleAboveFree (updateOccupancyGrid m d a now).
Proof.
  intros I. unfold updateOccupancyGrid. destruct (inBounds _ _ _); [| done].
  unfold updateFreeSpace.
  assert (I' : defaultThresholds (updateObstacle m d a now)
               /\ obstacleAboveFree (updateObstacle m d a now)).
  { unfold updateObstacle. destruct (inBounds _ _ _); [| done].
    apply stable_updateMapCell; [discriminate | done]. }
  generalize (seqZ 1 (steps (updateObstacle m d a now) d - 1)).
  generalize dependent (updateObstacle m d a now). clear I.
  intros m' I' l. revert m' I'.
  induction l as [| i l IH]; intros m' I'; [done |].
  cbn [fold_left]. apply IH. unfold freeSpaceStep.
  destruct (inBounds _ _ _); [| done]. now apply stable_updateMapCell.
Qed.

Lemma stable_set_cell (m : SLAMMapper) (px py : Z) (c c' : MapCell) :
  inBounds (config m) px py = true ->
  readCell (map m) px py = Some c ->
  type c' = type c -> confidence c' = confidence c ->
  defaultThresholds m /\ obstacleAboveFree m ->
  defaultThresholds (set_map m (writeCell (map m) px py c'))
  /\ obstacleAboveFree (set_map m (writeCell (map m) px py c')).
Proof.
  intros B R T K [D I]. split; [done |].
  intros qx qy c2. unfold cellAt. cbn [config set_map map freeThreshold].
  destruct (inBounds (config m) qx qy) eqn:Bq; [| done].
  destruct (decide ((px, py) = (qx, qy))) as [E | N].
  - inversion E; subst qx qy. rewrite (readCell_writeCell_eq _ _ _ _ _ R).
    intros [= <-]. unfold aboveFree. rewrite T, K.
    apply (I px py c). unfold cellAt. now rewrite B.
  - apply inBounds_spec in B, Bq.
    rewrite readCell_writeCell_ne by (lia || done).
    intros C2. apply (I qx qy c2). unfold cellAt.
    rewrite (proj2 (inBounds_spec _ _ _) Bq). done.
Qed.

Lemma cellAt_replicate (m : SLAMMapper) (px py : Z) (c : MapCell) :
  readCell (replicate (Z.to_nat (mapHeight (config m)))
                      (replicate (Z.to_nat (mapWidth (config m))) emptyCell))
           px py = Some c ->
  c = emptyCell.
Proof.
  unfold readCell. intros R.
  destruct (replicate _ _ !! Z.to_nat py) as [row |] eqn:Row; [| done].
  apply lookup_replicate in Row as [-> _].
  now apply lookup_replicate in R as [-> _].
Qed.

(** In every state reached without loading a file the thresholds are the
    defaults and every Obstacle cell holds a confidence above the free
    threshold. *)
Lemma reachable_obstacleAboveFree `{Libm} (m : SLAMMapper) :
  reachable m -> defaultThresholds m /\ obstacleAboveFree m.
Proof.
  induction 1 as [cfg | m px py a now _ IH | m u l c r _ IH | m now _ IH
                 | m px py name now _ IH | m id _ IH | m _ IH].
  - split; [done |]. intros px py c. unfold cellAt, initialize. cbn [config map].
    destruct (inBounds cfg px py); [| done].
    intros R.
    assert (c = emptyCell) as ->.
    { apply (cellAt_replicate (initialize SLAMMapper_new cfg) px py). exact R. }
    discriminate.
  - unfold updatePosition.
    match goal with
    | |- context [inBounds (config ?m1) _ _] => set (m1' := m1)
    end.
    assert (I1 : defaultThresholds m1' /\ obstacleAboveFree m1') by exact IH.
    destruct (inBounds _ _ _); [| done].
    apply stable_updateMapCell; [discriminate | done].
  - exact IH.
  - unfold processSensorData. destruct (negb (mapInitialized m)); [done |].
    unfold markVisited.
    match goal with
    | |- context [inBounds (config ?m4) _ _] => set (m4' := m4)
    end.
    assert (I4 : defaultThresholds m4' /\ obstacleAboveFree m4').
    { subst m4'. unfold integrateIR, integrateUltrasonic.
      repeat match goal with
             | |- context [if ?b && ?b' then updateOccupancyGrid ?m' ?d ?a ?t else _] =>
                 destruct (b && b')
             | |- _ /\ obstacleAboveFree (updateOccupancyGrid _ _ _ _) =>
                 apply stable_updateOccupancyGrid
             end; exact IH. }
    destruct (inBounds _ _ _) eqn:B; [| done].
    destruct (readCell _ _ _) as [c |] eqn:R; [| done].
    eapply stable_set_cell; eauto.
  - unfold addWaypoint.
    match goal with
    | |- context [inBounds (config ?m1) _ _] => set (m1' := m1)
    end.
    assert (I1 : defaultThresholds m1' /\ obstacleAboveFree m1') by exact IH.
    destruct (inBounds _ _ _); [| done].
    apply stable_updateMapCell; [discriminate | done].
  - unfold removeWaypoint. now destruct (eraseFirst id (waypoints m)).
  - unfold clearMap. destruct (negb (mapInitialized m)); [done |].
    destruct IH as [D _]. split; [done |].
    intros px py c. unfold cellAt. cbn [config set_waypoints set_map map].
    destruct (inBounds (config m) px py); [| done].
    intros R. apply cellAt_replicate in R as ->. discriminate.
Qed.

(** In a reachable state the conditions of C4 on the thresholds and on the
    prior state of the cell hold by themselves. *)
Lemma reachable_ray_cells_freed `{Libm} (m : SLAMMapper) (b : Beam)
      (now px py : Z) (c : MapCell) :
  reachable m ->
  (beamFloor m b < beamReading m b)%Q ->
  (beamReading m b < maxRange (config m))%Q ->
  inBounds (config m)
           (gx (endpointCell m (beamReading m b) (beamBearing m b)))
           (gy (endpointCell m (beamReading m b) (beamBearing m b))) = true ->
  sampled m (beamReading m b) (beamBearing m b) px py ->
  mkGridPoint px py <> endpointCell m (beamReading m b) (beamBearing m b) ->
  cellAt m px py = Some c ->
  exists c', cellAt (integrate m b now) px py = Some c' /\ type c' = FREE.
Proof.
  intros Re L U B S N C.
  destruct (reachable_obstacleAboveFree m Re) as [[_ Ef] I].
  rewrite (integrate_in_range _ _ _ L U).
  apply (updateOccupancyGrid_frees_sampled m _ _ now px py c); try done.
  - rewrite Ef. reflexivity.
  - apply (I px py c C).
Qed.

End SLAMFacts.

Module Binary32Facts.

Import Binary32.

Lemma roundTrip_axes (cfg : MapConfig) (mapX mapY : Z) :
  roundTrip cfg mapX mapY
  = (axisRoundTrip (cellSize cfg) (originX cfg) mapX,
     axisRoundTrip (cellSize cfg) (originY cfg) mapY).
Proof. reflexivity. Qed.

Lemma default_axis_within_one (g : Z) :
  0 <= g < 200 ->
  withinOneBelow g (axisRoundTrip float_0_1 (of_int 10) g) = true.
Proof.
  intros Hg.
  assert (A : forallb (fun k => withinOneBelow k (axisRoundTrip float_0_1 (of_int 10) k))
                      (seqZ 0 200) = true) by (vm_compute; reflexivity).
  rewrite forallb_forall in A. apply A.
  apply list_elem_of_In, elem_of_seqZ. lia.
Qed.

(** C7 (amended). In exact arithmetic, for every configuration with a
    non-zero cell size and all integer grid coordinates, [worldToMap] after
    [mapToWorld] returns the coordinates. In binary32 arithmetic with the
    default configuration (0.1 m cells, origin (10, 10), 200 x 200) every
    in-bounds coordinate comes back as itself or as the index below it. *)
Theorem grid_world_roundtrip :
  (forall (cfg : SLAM.MapConfig) (mapX mapY : Z),
      ~ (SLAM.cellSize cfg == 0)%Q ->
      SLAM.worldToMap cfg (SLAM.x (SLAM.mapToWorld cfg mapX mapY))
                      (SLAM.y (SLAM.mapToWorld cfg mapX mapY))
      = SLAM.mkGridPoint mapX mapY)
  /\ (forall mapX mapY : Z,
         0 <= mapX < mapWidth defaultConfig ->
         0 <= mapY < mapHeight defaultConfig ->
         withinOneBelow mapX (fst (roundTrip defaultConfig mapX mapY)) = true
         /\ withinOneBelow mapY (snd (roundTrip defaultConfig mapX mapY)) = true).
Proof.
  split.
  - intros cfg mapX mapY Hc. unfold SLAM.worldToMap, SLAM.mapToWorld.
    cbn [SLAM.x SLAM.y].
    f_equal; apply ArduinoFacts.truncate_inject_Z; now field.
  - intros mapX mapY Hx Hy. rewrite roundTrip_axes. cbn [fst snd].
    split; now apply default_axis_within_one.
Qed.

Lemma grid_world_roundtrip_witness :
  SLAM.worldToMap SLAM.defaultConfig
                  (SLAM.x (SLAM.mapToWorld SLAM.defaultConfig 2 2))
                  (SLAM.y (SLAM.mapToWorld SLAM.defaultConfig 2 2))
  = SLAM.mkGridPoint 2 2
  /\ withinOneBelow 2 (fst (roundTrip defaultConfig 2 2)) = true
  /\ withinOneBelow 2 (snd (roundTrip defaultConfig 2 2)) = true.
Proof.
  split.
  - apply (proj1 grid_world_roundtrip SLAM.defaultConfig 2 2).
    vm_compute. discriminate.
  - apply (proj2 grid_world_roundtrip 2 2);
      cbv [mapWidth mapHeight defaultConfig]; lia.
Defined.

(** C7 as stated fails under the rounding of binary32: with the default
    configuration the in-bounds cell (2, 2) maps to a world point that maps
    back to cell (1, 1). The float nearest to 2 * 0.1 - 10 is
    -9.80000019...; adding 10 gives 0.19999981..., which divided by the
    float nearest to 0.1 is 1.999998..., cut to 1. *)
Lemma roundtrip_loses_a_cell :
  (0 <= 2 < mapWidth defaultConfig /\ 0 <= 2 < mapHeight defaultConfig)
  /\ mapToWorld defaultConfig 2 2
     = (S754_finite true 10276045 (-20), S754_finite true 10276045 (-20))
  /\ roundTrip defaultConfig 2 2 = (1, 1).
Proof.
  split; [cbv [mapWidth mapHeight defaultConfig]; lia |].
  split; vm_compute; reflexivity.
Qed.

Lemma default_axis_centre (g : Z) :
  0 <= g < 200 -> axisCentre float_0_1 (of_int 10) g = g.
Proof.
  intros Hg.
  assert (A : forallb (fun k => axisCentre float_0_1 (of_int 10) k =? k)
                      (seqZ 0 200) = true) by (vm_compute; reflexivity).
  rewrite forallb_forall in A. apply Z.eqb_eq, A.
  apply list_elem_of_In, elem_of_seqZ. lia.
Qed.

(** X4. In binary32 arithmetic with the default configuration, [worldToMap]
    gives the centre of every in-bounds cell (the corner [mapToWorld]
    returns, plus half a cell on each axis) the coordinates of that cell.
    The conversion cuts towards zero: the point half a cell before the
    corner of cell (0, 0) on both axes, which lies outside the grid, is
    given the coordinates (0, 0) and not (-1, -1). *)
Theorem centre_keeps_its_cell (mapX mapY : Z) :
  0 <= mapX < mapWidth defaultConfig ->
  0 <= mapY < mapHeight defaultConfig ->
  worldToMap defaultConfig (fst (cellCentre defaultConfig mapX mapY))
                           (snd (cellCentre defaultConfig mapX mapY))
  = (mapX, mapY)
  /\ worldToMap defaultConfig (fst (beforeOrigin defaultConfig))
                              (snd (beforeOrigin defaultConfig))
     = (0, 0).
Proof.
  intros Hx Hy. split; [| vm_compute; reflexivity].
  change (worldToMap defaultConfig (fst (cellCentre defaultConfig mapX mapY))
                     (snd (cellCentre defaultConfig mapX mapY)))
    with (axisCentre float_0_1 (of_int 10) mapX,
          axisCentre float_0_1 (of_int 10) mapY).
  now rewrite !default_axis_centre.
Qed.

Lemma centre_keeps_its_cell_witness :
  worldToMap defaultConfig (fst (cellCentre defaultConfig 2 199))
                           (snd (cellCentre defaultConfig 2 199))
  = (2, 199)
  /\ worldToMap defaultConfig (fst (beforeOrigin defaultConfig))
                              (snd (beforeOrigin defaultConfig))
     = (0, 0).
Proof.
  apply (centre_keeps_its_cell 2 199); cbv [mapWidth mapHeight defaultConfig]; lia.
Defined.

End Binary32Facts.

(** ** The cell update over binary32 *)

Module Grid32Facts.

Import SLAM Grid32.

(** *** Reading and writing the grid *)

Lemma gridOf_read (P : MapCell -> Prop) (w h : Z) (g : list (list MapCell))
      (px py : Z) :
  gridOf P w h g -> 0 <= px < w -> 0 <= py < h ->
  exists c, readCell g px py = Some c /\ P c.
Proof.
  intros [L F] Hx Hy. unfold readCell.
  destruct (lookup_lt_is_Some_2 g (Z.to_nat py)) as [row R]; [lia |].
  rewrite R. cbn.
  destruct (proj1 (Forall_lookup _ _) F _ _ R) as [Lr Fr].
  destruct (lookup_lt_is_Some_2 row (Z.to_nat px)) as [c C]; [lia |].
  exists c. split; [exact C |]. exact (proj1 (Forall_lookup _ _) Fr _ _ C).
Qed.

Lemma gridOf_write (P : MapCell -> Prop) (w h : Z) (g : list (list MapCell))
      (px py : Z) (c : MapCell) :
  gridOf P w h g -> P c -> gridOf P w h (writeCell g px py c).
Proof.
  intros [L F] Pc. unfold writeCell.
  destruct (g !! Z.to_nat py) as [row |] eqn:R; [| now split].
  destruct (proj1 (Forall_lookup _ _) F _ _ R) as [Lr Fr].
  split; [now rewrite length_insert |].
  apply Forall_insert; [exact F |].
  split; [now rewrite length_insert | now apply Forall_insert].
Qed.

Lemma gridOf_replicate (P : MapCell -> Prop) (w h : Z) (c : MapCell) :
  P c -> gridOf P w h (replicate (Z.to_nat h) (replicate (Z.to_nat w) c)).
Proof.
  intros Pc. split; [apply length_replicate |].
  apply Forall_replicate. split; [apply length_replicate |].
  now apply Forall_replicate.
Qed.



Lemma bounds_guard (m : SLAMMapper) (px py : Z) :
  (px <? 0) || (px >=? mapWidth m) || (py <? 0) || (py >=? mapHeight m)
  = negb (inBounds m px py).
Proof. unfold inBounds. lia. Qed.

Lemma bounds_spec (m : SLAMMapper) (px py : Z) :
  inBounds m px py = true <-> 0 <= px < mapWidth m /\ 0 <= py < mapHeight m.
Proof. unfold inBounds. lia. Qed.

(** *** The update rule *)







(** *** What holds of every cell *)

Lemma state_updateCell (cell : MapCell) (c : Caller) (now : Z) :
  state (updateCell float_0_7 float_0_3 cell (classification c) (argument c) now)
  = next (state cell) c.
Proof. now destruct c. Qed.

(** The ten states are closed under the four calls, and none of the calls
    leaves a cell Unknown. *)
Lemma states_closed (s : State) (c : Caller) :
  s ∈ states -> next s c ∈ states /\ fst (next s c) <> UNKNOWN.
Proof.
  intros Hs.
  assert (A : Forall (fun s => Forall (fun c => next s c ∈ states
                                                /\ fst (next s c) <> UNKNOWN)
                                      callers) states).
  { apply (bool_decide_unpack _). vm_compute. exact I. }
  pose proof (proj1 (Forall_forall _ _) A s Hs) as Hc.
  apply (proj1 (Forall_forall _ _) Hc c). unfold callers.
  destruct c; repeat constructor.
Qed.

Lemma states_invariant (c : MapCell) :
  settled c -> cellInvariant c.
Proof.
  intros [Hs E]. unfold cellInvariant.
  assert (A : Forall (fun s : State =>
                        SFleb float_0 (snd s) = true
                        /\ SFleb (snd s) float_1 = true
                        /\ (fst s = OBSTACLE -> SFltb float_0_7 (snd s) = true)
                        /\ (fst s <> UNKNOWN -> SFleb float_0_4_below (snd s) = true)
                        /\ (fst s = UNKNOWN -> snd s = float_0)) states).
  { unfold states. repeat constructor; cbn; try done. }
  pose proof (proj1 (Forall_forall _ _) A _ Hs) as (H0 & H1 & H2 & H3 & H4).
  cbn [state fst snd] in *. repeat split; auto.
Qed.

Lemma settled_emptyCell : settled emptyCell.
Proof. split; [| done]. unfold states. constructor. Qed.

Lemma settled_updateCell (cell : MapCell) (c : Caller) (now : Z) :
  settled cell ->
  settled (updateCell float_0_7 float_0_3 cell (classification c) (argument c) now).
Proof.
  intros [Hs _]. destruct (states_closed _ c Hs) as [Hs' N].
  rewrite <- state_updateCell with (now := now) in Hs', N.
  split; [exact Hs' |]. intros T. now cbn [state fst] in N.
Qed.

Lemma settled_visit (cell : MapCell) (now : Z) :
  settled cell -> settled (mkCell (type cell) (confidence cell) now true).
Proof. intros [Hs _]. split; [exact Hs | discriminate]. Qed.

Lemma forEach_invariant {A : Type} (P : A -> Prop) (Q : Z -> Prop)
      (body : A -> Z -> option A) (l : list Z) (a : A) :
  (forall a i, P a -> Q i -> exists a', body a i = Some a' /\ P a') ->
  Forall Q l -> P a ->
  exists a', forEach l body a = Some a' /\ P a'.
Proof.
  intros Step. unfold forEach. revert a.
  induction l as [| i l IH]; intros a Ql Pa; [eauto |].
  inversion Ql as [| ? ? Qi Ql']; subst. cbn.
  destruct (Step a i Pa Qi) as (a' & -> & Pa'). now apply IH.
Qed.

Lemma range_seqZ (n : Z) : Forall (fun i => 0 <= i < n) (seqZ 0 n).
Proof. apply Forall_forall. intros i I. apply elem_of_seqZ in I. lia. Qed.

Lemma sound_write (m : SLAMMapper) (w : Write) (now : Z) :
  sound m -> exists m', write m w now = Some m' /\ sound m'
                        /\ mapWidth m' = mapWidth m /\ mapHeight m' = mapHeight m.
Proof.
  intros Sm. pose proof Sm as (Init & Occ & Free & G).
  destruct w as [px py c | px py |]; cbn [write].
  - unfold updateMapCell. rewrite bounds_guard.
    destruct (inBounds m px py) eqn:B; cbn [negb];
      [| exists m; done].
    apply bounds_spec in B as [Hx Hy].
    destruct (gridOf_read _ _ _ _ px py G Hx Hy) as (cell & -> & S). cbn.
    eexists. split; [reflexivity |].
    split; [| done]. split; [exact Init |]. split; [exact Occ |].
    split; [exact Free |].
    cbn [set_map map mapWidth mapHeight]. rewrite Occ, Free.
    apply gridOf_write; [exact G | now apply settled_updateCell].
  - unfold markVisited. rewrite Init. cbn [negb].
    destruct (inBounds m px py) eqn:B; [| exists m; done].
    apply bounds_spec in B as [Hx Hy].
    destruct (gridOf_read _ _ _ _ px py G Hx Hy) as (cell & -> & S). cbn.
    eexists. split; [reflexivity |].
    split; [| done]. split; [exact Init |]. split; [exact Occ |].
    split; [exact Free |].
    cbn [set_map map mapWidth mapHeight].
    apply gridOf_write; [exact G | now apply settled_visit].
  - unfold clearMap. rewrite Init. cbn [negb].
    destruct (forEach_invariant (gridOf settled (mapWidth m) (mapHeight m))
                (fun py => 0 <= py < mapHeight m)
                (fun g py =>
                   forEach (seqZ 0 (mapWidth m))
                           (fun g' px => _ ← readCell g' px py;
                                         Some (writeCell g' px py emptyCell))
                           g)
                (seqZ 0 (mapHeight m)) (map m)) as (g' & -> & G').
    + intros g py Gg Hy.
      apply (forEach_invariant (gridOf settled (mapWidth m) (mapHeight m))
               (fun px => 0 <= px < mapWidth m)); [| apply range_seqZ | exact Gg].
      intros g0 px G0 Hx.
      destruct (gridOf_read _ _ _ _ px py G0 Hx Hy) as (cell & -> & _). cbn.
      eexists. split; [reflexivity |].
      apply gridOf_write; [exact G0 | apply settled_emptyCell].
    + apply range_seqZ.
    + exact G.
    + cbn. eexists. split; [reflexivity |]. split; [| done].
      split; [exact Init |]. split; [exact Occ |]. split; [exact Free |].
      exact G'.
Qed.

Lemma sound_initialize (width height : Z) :
  sound (initialize SLAMMapper_new width height).
Proof.
  repeat split; cbn [initialize map mapWidth mapHeight].
  - apply length_replicate.
  - apply Forall_replicate. split; [apply length_replicate |].
    apply Forall_replicate, settled_emptyCell.
Qed.

Lemma sound_writes (l : list (Write * Z)) (m : SLAMMapper) :
  sound m -> exists m', writes m l = Some m' /\ sound m'.
Proof.
  revert m. induction l as [| [w now] l IH]; intros m S; [cbn; eauto |].
  cbn [writes]. destruct (sound_write m w now S) as (m1 & -> & S1 & _). cbn.
  now apply IH.
Qed.

(** X13. From a freshly constructed and initialised mapper, every run of
    the cell writes of [updateObstacle], [updateFreeSpace], [addWaypoint]
    and [updatePosition], of the visited mark of [processSensorData] and of
    [clearMap], at whichever cells, returns, and in the grid it leaves
    every cell keeps its confidence within [0, 1]; an Obstacle cell holds
    more than the float 0.7, any other classified cell at least the float
    of [1.0 - 0.6], which is 0.39999998 and not 0.4, and an Unknown cell
    holds 0 and, unless visited, is the initial cell. *)
Theorem written_cells (width height : Z) (l : list (Write * Z)) :
  0 <= width -> 0 <= height ->
  exists m,
    writes (initialize SLAMMapper_new width height) l = Some m
    /\ (forall px py, inBounds m px py = true ->
          exists c, cellAt m px py = Some c /\ cellInvariant c)
    /\ (value float_0_4_below == 13421772 # 33554432)%Q
    /\ (value float_0_4_below < 4 # 10)%Q.
Proof.
  intros _ _.
  destruct (sound_writes l _ (sound_initialize width height))
    as (m & W & _ & _ & _ & G).
  exists m. split; [exact W |].
  split; [| split; vm_compute; reflexivity].
  intros px py B. unfold cellAt. rewrite B.
  apply bounds_spec in B as [Hx Hy].
  destruct (gridOf_read _ _ _ _ px py G Hx Hy) as (c & -> & S).
  exists c. split; [reflexivity |]. now apply states_invariant.
Qed.

Lemma written_cells_witness :
  exists m,
    writes (initialize SLAMMapper_new 3 3)
           [(WriteCell 1 1 FromUpdateFreeSpace, 5);
            (WriteCell 1 1 FromUpdateObstacle, 6);
            (WriteVisited 0 0, 7)]
    = Some m
    /\ (forall px py, inBounds m px py = true ->
          exists c, cellAt m px py = Some c /\ cellInvariant c)
    /\ (value float_0_4_below == 13421772 # 33554432)%Q
    /\ (value float_0_4_below < 4 # 10)%Q.
Proof.
  apply (written_cells 3 3
           [(WriteCell 1 1 FromUpdateFreeSpace, 5);
            (WriteCell 1 1 FromUpdateObstacle, 6);
            (WriteVisited 0 0, 7)]); lia.
Defined.

End Grid32Facts.

Module NavFacts.

Import Arduino ArduinoFacts Nav.

Lemma currentState_setState (m : AutonomousMode) (st : NavigationState) (now : Z) :
  currentState (setState m st now) = st.
Proof.
  unfold setState. destruct (NavigationState_eqb st (currentState m)) eqn:E; [| done].
  destruct st, (currentState m); done.
Qed.

Lemma setState_frame (m : AutonomousMode) (st : NavigationState) (now : Z) :
  obstacleDetected (setState m st now) = obstacleDetected m
  /\ lineFollowingEnabled (setState m st now) = lineFollowingEnabled m
  /\ motors (setState m st now) = motors m
  /\ baseSpeed (setState m st now) = baseSpeed m
  /\ turnSpeed (setState m st now) = turnSpeed m
  /\ avoidSpeed (setState m st now) = avoidSpeed m
  /\ reverseSpeed (setState m st now) = reverseSpeed m.
Proof. unfold setState. now destruct (NavigationState_eqb st (currentState m)). Qed.

Lemma directive_setState (m : AutonomousMode) (st st' : NavigationState) (now : Z) :
  directive (setState m st now) st' = directive m st'.
Proof.
  pose proof (setState_frame m st now) as (_ & _ & _ & E1 & E2 & E3 & E4).
  unfold directive. now rewrite E1, E2, E3, E4.
Qed.

(** What [navigate] does once [avoidObstacles] has chosen [st]. *)
Lemma navigate_after_choice (m : AutonomousMode) (s : Sensors) (now : Z)
      (st : NavigationState) :
  obstacleDetected m = true ->
  processObstacles m s now = setState m st now ->
  currentState (navigate m s now) = st
  /\ (motors m = true ->
      last (events (navigate m s now)) = Some (directive m st)).
Proof.
  intros D P. unfold navigate. rewrite P.
  pose proof (setState_frame m st now) as (Eo & _ & Em & _).
  unfold processLineFollowing. rewrite Eo, D. cbn [negb].
  assert (E : (if lineFollowingEnabled (setState m st now)
               then setState m st now else setState m st now)
              = setState m st now) by (now destruct (lineFollowingEnabled _)).
  rewrite E. unfold executeState. rewrite Em.
  destruct (motors m); cbn [negb].
  - split.
    + cbn [emit currentState]. apply currentState_setState.
    + intros _. cbn [emit events]. rewrite last_snoc.
      now rewrite currentState_setState, directive_setState.
  - split; [apply currentState_setState | discriminate].
Qed.

(** The priority table on the navigation step. *)
Lemma navigate_priority (m : AutonomousMode) (s : Sensors) (now : Z)
      (st : NavigationState) :
  obstacleDetected m = true ->
  priorityTable (irLeft s) (irCenter s) (irRight s) (obstacleDistance m) = Some st ->
  currentState (navigate m s now) = st
  /\ (motors m = true ->
      last (events (navigate m s now)) = Some (directive m st)).
Proof.
  intros D T. apply navigate_after_choice; [done |].
  unfold processObstacles, avoidObstacles. rewrite D. cbn [negb].
  unfold priorityTable in T.
  destruct (irCenter s), (Qltb (obstacleDistance m) 15), (irLeft s), (irRight s);
    cbn [negb andb] in *; inversion T; subst; reflexivity.
Qed.

Lemma sameDrive_setState (m : AutonomousMode) (st : NavigationState) (now : Z) :
  sameDrive m (setState m st now).
Proof.
  unfold sameDrive, setState.
  now destruct (NavigationState_eqb st (currentState m)).
Qed.

Lemma sameDrive_checkSafety (m : AutonomousMode) (now : Z) :
  sameDrive m (checkSafety m now).
Proof.
  unfold checkSafety. destruct (_ <? _); [now repeat split |].
  destruct (_ && _); [| now repeat split].
  destruct (_ >? _); [| now repeat split].
  pose proof (sameDrive_setState m NAV_STOP now) as S.
  destruct (audio (setState m NAV_STOP now)); exact S.
Qed.

(** C6. For every tick in which the obstacle condition holds (a proximity
    sensor triggered, or the ranger below 20 cm), the state the navigation
    step of the tick commits and executes follows the priority table:
    centre triggered and distance below 15 cm gives Backward; centre
    triggered at 15 cm or more gives AvoidLeft when only the right side is
    triggered, AvoidRight when only the left side is, Backward when both or
    neither are; centre clear gives AvoidRight on a left-only trigger and
    AvoidLeft on a right-only trigger. The motor call issued is the one of
    that state. *)
Theorem obstacle_priority (m : AutonomousMode) (s : Sensors) (now : Z)
        (st : NavigationState) :
  sensors m = true ->
  irLeft s || irCenter s || irRight s || Qltb (distance s) 20 = true ->
  priorityTable (irLeft s) (irCenter s) (irRight s) (distance s) = Some st ->
  currentState (beforeUpdateState m s now) = st
  /\ (motors m = true ->
      last (events (beforeUpdateState m s now)) = Some (directive m st)).
Proof.
  intros Se O T. unfold beforeUpdateState.
  set (m1 := updateSensors m s now).
  assert (S1 : obstacleDetected m1 = true /\ obstacleDistance m1 = distance s
               /\ motors m1 = motors m /\ directive m1 st = directive m st).
  { subst m1. unfold updateSensors. rewrite Se. cbn [negb]. now rewrite O. }
  destruct S1 as (D1 & K1 & M1 & R1).
  set (m2 := if safetyEnabled m1 then checkSafety m1 now else m1).
  assert (S2 : sameDrive m1 m2).
  { subst m2. destruct (safetyEnabled m1);
      [apply sameDrive_checkSafety | now repeat split]. }
  destruct S2 as (D2 & K2 & M2 & B2 & T2 & A2 & V2).
  assert (R2 : directive m2 st = directive m st).
  { rewrite <- R1. unfold directive. now rewrite B2, T2, A2, V2. }
  rewrite <- M1, <- M2, <- R2.
  apply navigate_priority; [congruence |]. now rewrite K2, K1.
Qed.

(** The scenario of the specification: in Forward, the centre sensor
    triggers with the ranger at 10 cm; the tick commits Backward. *)
Lemma obstacle_priority_witness :
  (currentState rover = NAV_FORWARD
   /\ currentState (update rover (mkSensors false true false 10) 1100)
      = NAV_BACKWARD)
  /\ currentState (beforeUpdateState rover (mkSensors false true false 10) 1100)
     = NAV_BACKWARD
  /\ (motors rover = true ->
      last (events (beforeUpdateState rover (mkSensors false true false 10) 1100))
      = Some (directive rover NAV_BACKWARD)).
Proof.
  split; [split; reflexivity |].
  apply (obstacle_priority rover (mkSensors false true false 10) 1100 NAV_BACKWARD);
    reflexivity.
Defined.

(** *** Timeout recovery *)

Lemma update_running (m : AutonomousMode) (s : Sensors) (now : Z) :
  isActive m = true -> isPaused m = false ->
  (u32 (now - lastUpdate m) <? u32 (updateInterval m)) = false ->
  update m s now = set_lastUpdate (updateState (beforeUpdateState m s now) now) now.
Proof. intros A P G. unfold update. now rewrite A, P, G. Qed.

Lemma updateState_forces_forward (m : AutonomousMode) (now : Z) :
  avoiding (currentState m) = true ->
  isStateTimeout m now = true ->
  currentState (updateState m now) = NAV_FORWARD.
Proof.
  intros V T. unfold updateState. rewrite T.
  destruct (currentState m); try discriminate; apply currentState_setState.
Qed.

(** C8 (amended). For every tick that runs, if at the point where the tick
    checks the timeout, after its navigation step, the current state is
    Backward, AvoidLeft or AvoidRight and has been held for longer than the
    state timeout, then the tick ends in Forward. *)
Theorem timeout_forces_forward (m : AutonomousMode) (s : Sensors) (now : Z) :
  isActive m = true -> isPaused m = false ->
  (u32 (now - lastUpdate m) <? u32 (updateInterval m)) = false ->
  avoiding (currentState (beforeUpdateState m s now)) = true ->
  isStateTimeout (beforeUpdateState m s now) now = true ->
  currentState (update m s now) = NAV_FORWARD.
Proof.
  intros A P G V T. rewrite (update_running _ _ _ A P G).
  cbn [set_lastUpdate currentState]. now apply updateState_forces_forward.
Qed.

(** The scenario of C8 with line following switched off: AvoidLeft entered
    at 1100 and held by the right sensor up to 4100; at 4200, with no sensor
    triggered and the ranger at 1 m, the tick ends in Forward. *)
Lemma timeout_forces_forward_witness :
  let m := ticks (set_lineFollowingEnabled rover false)
                 (mkSensors false false true 100) (every100ms 1000 31) in
  currentState m = NAV_AVOID_LEFT
  /\ stateStartTime m = 1100
  /\ currentState (update m (mkSensors false false false 100) 4200) = NAV_FORWARD.
Proof.
  split; [reflexivity |]. split; [reflexivity |].
  apply (timeout_forces_forward
           (ticks (set_lineFollowingEnabled rover false)
                  (mkSensors false false true 100) (every100ms 1000 31))
           (mkSensors false false false 100) 4200);
    reflexivity.
Defined.

(** The scenario of C8 in general: line following is switched off and the
    sensors report nothing (no proximity trigger, ranger at 20 cm or more).
    The navigation step leaves the state and its clock alone, and a state
    Backward, AvoidLeft or AvoidRight held for longer than the timeout gives
    way to Forward on that tick. *)
Lemma checkSafety_clear (m : AutonomousMode) (now : Z) :
  obstacleDetected m = false -> sameState m (checkSafety m now).
Proof.
  intros D. unfold checkSafety. rewrite D. cbn [andb].
  now destruct (u32 (now - lastSafetyCheck m) <? u32 (safetyCheckInterval m)).
Qed.

Lemma navigate_idle (m : AutonomousMode) (s : Sensors) (now : Z) :
  obstacleDetected m = false -> lineFollowingEnabled m = false ->
  sameState m (navigate m s now).
Proof.
  intros D LF. unfold navigate, processObstacles. rewrite D, LF.
  unfold executeState. now destruct (motors m).
Qed.

Lemma timeout_recovery_when_idle (m : AutonomousMode) (s : Sensors) (now : Z) :
  isActive m = true -> isPaused m = false ->
  (u32 (now - lastUpdate m) <? u32 (updateInterval m)) = false ->
  sensors m = true ->
  lineFollowingEnabled m = false ->
  irLeft s = false -> irCenter s = false -> irRight s = false ->
  Qltb (distance s) 20 = false ->
  avoiding (currentState m) = true ->
  isStateTimeout m now = true ->
  currentState (update m s now) = NAV_FORWARD.
Proof.
  intros A P G Se LF L C R D V T.
  assert (S : currentState (beforeUpdateState m s now) = currentState m
              /\ stateStartTime (beforeUpdateState m s now) = stateStartTime m
              /\ stateTimeout (beforeUpdateState m s now) = stateTimeout m).
  { unfold beforeUpdateState.
    set (m1 := updateSensors m s now).
    assert (S1 : currentState m1 = currentState m
                 /\ stateStartTime m1 = stateStartTime m
                 /\ stateTimeout m1 = stateTimeout m
                 /\ lineFollowingEnabled m1 = lineFollowingEnabled m
                 /\ obstacleDetected m1 = false).
    { subst m1. unfold updateSensors. rewrite Se, L, C, R, D. now repeat split. }
    destruct S1 as (E1 & E2 & E3 & E5 & D1).
    set (m2 := if safetyEnabled m1 then checkSafety m1 now else m1).
    assert (S2 : sameState m1 m2).
    { subst m2. destruct (safetyEnabled m1);
        [now apply checkSafety_clear | now repeat split]. }
    destruct S2 as (F1 & F2 & F3 & F4 & F5).
    destruct (navigate_idle m2 s now) as (N1 & N2 & N3 & N4 & N5);
      [congruence | congruence |].
    repeat split; congruence. }
  destruct S as (S1 & S2 & S3).
  rewrite (update_running _ _ _ A P G). cbn [set_lastUpdate currentState].
  apply updateState_forces_forward.
  - now rewrite S1.
  - unfold isStateTimeout in *. now rewrite S2, S3.
Qed.

(** C8 as stated fails when the navigation step of the tick changes the
    state. With the defaults (line following enabled): AvoidLeft entered at
    1100 and held by the right sensor up to 4100; at 4200, held for 3100 ms
    and with no sensor triggered, line following sees no line and commits
    TurnRight; the tick ends in TurnRight, not Forward. *)
Lemma avoid_left_timeout_ends_in_turn :
  let m := ticks rover (mkSensors false false true 100) (every100ms 1000 31) in
  currentState m = NAV_AVOID_LEFT
  /\ stateStartTime m = 1100
  /\ isStateTimeout m 4200 = true
  /\ currentState (update m (mkSensors false false false 100) 4200) = NAV_TURN_RIGHT
  /\ last (directives (events (update m (mkSensors false false false 100) 4200)))
     = Some (turnRight 120).
Proof. vm_compute. repeat split; reflexivity. Qed.

(** *** The safety watchdog *)

(** C2 fails on the code. The left sensor is triggered from 1100 on and the
    rover ticks every 100 ms. At 11600 the obstacle has lasted 10500 ms and
    the safety check is due: [checkSafety] commits Stop and plays the siren,
    but [navigate], called next in the same tick, lets [avoidObstacles]
    commit AvoidRight again. The tick ends in AvoidRight and turns right; no
    stop call ever reaches the motors. *)
Lemma safety_stop_overridden :
  let s := mkSensors true false false 50 in
  let before := ticks rover s (every100ms 1000 105) in
  let after := update before s 11600 in
  obstacleStartTime after = 1100
  /\ (u32 (11600 - obstacleStartTime after) >? u32 (maxObstacleTime after)) = true
  /\ drop (length (events before)) (events after)
     = [logNavigationEvent "State: STOP";
        playSystemSound SOUND_SIREN;
        logNavigationEvent "Safety stop - prolonged obstacle";
        logNavigationEvent "State: AVOID_RIGHT";
        turnRight 100]
  /\ currentState after = NAV_AVOID_RIGHT
  /\ ~ In motorsStop (events after).
Proof.
  vm_compute. repeat split; try reflexivity.
  intros H. repeat (destruct H as [H | H]; [discriminate H |]). exact H.
Qed.

(** Whenever a side or centre sensor is triggered the state that
    [checkSafety] left is overwritten: the navigation step never leaves the
    machine in Stop. *)
Lemma navigate_leaves_stop (m : AutonomousMode) (s : Sensors) (now : Z) :
  obstacleDetected m = true ->
  irLeft s || irCenter s || irRight s = true ->
  currentState (navigate m s now) <> NAV_STOP.
Proof.
  intros D I.
  unfold navigate, processObstacles, avoidObstacles, processLineFollowing.
  rewrite D. cbn [negb].
  destruct (irCenter s), (Qltb (obstacleDistance m) 15), (irLeft s), (irRight s);
    cbn [negb andb orb] in *; try discriminate I;
    match goal with
    | |- context [setState m ?st now] =>
        pose proof (setState_frame m st now) as (Eo & _ & Em & _);
        pose proof (currentState_setState m st now) as Ec
    end;
    rewrite Eo, D; cbn [negb];
    destruct (lineFollowingEnabled _); unfold executeState; rewrite Em;
    destruct (motors m); cbn [negb emit currentState]; rewrite Ec; discriminate.
Qed.

End NavFacts.

Module MapperFacts.

Import Arduino ArduinoFacts SLAM SLAMFacts.

(** *** One cell at a time *)

Lemma map_wf_updateMapCell (m : SLAMMapper) px py ty conf now :
  map_wf m -> map_wf (updateMapCell m px py ty conf now).
Proof.
  intros [Hl Hr]. unfold updateMapCell. destruct (_ || _); [done |].
  destruct (readCell (map m) px py) as [c |] eqn:R; [| done].
  unfold map_wf, writeCell. cbn [config set_map map].
  unfold readCell in R.
  destruct (map m !! Z.to_nat py) as [row |] eqn:Row; [| done].
  split; [now rewrite length_insert |].
  apply Forall_insert; [done |]. rewrite length_insert.
  eapply Forall_lookup_1 in Hr; eauto.
Qed.

Lemma waypoints_updateMapCell (m : SLAMMapper) px py ty conf now :
  waypoints (updateMapCell m px py ty conf now) = waypoints m.
Proof.
  unfold updateMapCell. destruct (_ || _); [done |].
  now destruct (readCell (map m) px py).
Qed.

(** X1. [updateMapCell] touches the addressed cell only: every other cell,
    the waypoints, the configuration, the pose and the thresholds are as
    before, the allocation keeps its shape, and a call with coordinates
    outside the grid changes nothing at all. *)
Theorem updateMapCell_frame (m : SLAMMapper) (px py : Z) (ty : MapCellType)
        (conf : Q) (now : Z) :
  sameFrame m (updateMapCell m px py ty conf now)
  /\ waypoints (updateMapCell m px py ty conf now) = waypoints m
  /\ (forall qx qy, (px, py) <> (qx, qy) ->
        cellAt (updateMapCell m px py ty conf now) qx qy = cellAt m qx qy)
  /\ (map_wf m -> map_wf (updateMapCell m px py ty conf now))
  /\ (inBounds (config m) px py = false ->
        updateMapCell m px py ty conf now = m).
Proof.
  split; [apply sameFrame_updateMapCell |].
  split; [apply waypoints_updateMapCell |].
  split; [intros qx qy N; now apply cellAt_updateMapCell_ne |].
  split; [apply map_wf_updateMapCell |].
  intros B. unfold updateMapCell. now rewrite guard_inBounds, B.
Qed.

(** *** Counting cells *)

Lemma countRow (test : MapCell -> bool) (g : list (list MapCell)) (py : Z)
      (l : list Z) :
  forall count : Z,
    fold_left
      (fun count' px =>
         match readCell g px py with
         | Some cell => if test cell then count' + 1 else count'
         | None => count'
         end) l count
    = count
      + Z.of_nat (length (List.filter test
                            (flat_map (fun px => match readCell g px py with
                                                 | Some cell => [cell]
                                                 | None => []
                                                 end) l))).
Proof.
  induction l as [| px l IH]; intros count; cbn [fold_left flat_map].
  - cbn. lia.
  - rewrite IH, List.filter_app, length_app.
    destruct (readCell g px py) as [c |]; cbn [List.filter length app].
    + destruct (test c); cbn [length]; lia.
    + lia.
Qed.

Lemma countCells_filter (test : MapCell -> bool) (m : SLAMMapper) :
  countCells test m = Z.of_nat (length (List.filter test (allCells m))).
Proof.
  unfold countCells, allCells.
  generalize (seqZ 0 (mapHeight (config m))) as rows.
  assert (G : forall rows count,
             fold_left
               (fun count py =>
                  fold_left
                    (fun count' px =>
                       match readCell (map m) px py with
                       | Some cell => if test cell then count' + 1 else count'
                       | None => count'
                       end) (seqZ 0 (mapWidth (config m))) count) rows count
             = count
               + Z.of_nat
                   (length
                      (List.filter test
                         (flat_map
                            (fun py =>
                               flat_map
                                 (fun px => match readCell (map m) px py with
                                            | Some cell => [cell]
                                            | None => []
                                            end) (seqZ 0 (mapWidth (config m))))
                            rows)))).
  { induction rows as [| py rows IH]; intros count; cbn [fold_left flat_map].
    - cbn. lia.
    - rewrite IH, countRow, List.filter_app, length_app. lia. }
  intros rows. now rewrite G.
Qed.

Lemma length_allCells (m : SLAMMapper) :
  0 <= mapWidth (config m) -> 0 <= mapHeight (config m) ->
  Z.of_nat (length (allCells m)) <= mapWidth (config m) * mapHeight (config m).
Proof.
  intros Hw Hh. unfold allCells.
  assert (R : forall py,
             Z.of_nat (length (flat_map
                                 (fun px => match readCell (map m) px py with
                                            | Some cell => [cell]
                                            | None => []
                                            end) (seqZ 0 (mapWidth (config m)))))
             <= mapWidth (config m)).
  { intros py.
    rewrite <- (Z2Nat.id (mapWidth (config m))) at 2 by done.
    rewrite <- (length_seqZ 0 (mapWidth (config m))).
    induction (seqZ 0 (mapWidth (config m))) as [| px l IH]; cbn [flat_map length];
      [lia |].
    rewrite length_app. destruct (readCell (map m) px py); cbn [length]; lia. }
  assert (G : forall rows,
             Z.of_nat (length (flat_map
                                 (fun py =>
                                    flat_map
                                      (fun px => match readCell (map m) px py with
                                                 | Some cell => [cell]
                                                 | None => []
                                                 end) (seqZ 0 (mapWidth (config m))))
                                 rows))
             <= mapWidth (config m) * Z.of_nat (length rows)).
  { induction rows as [| py rows IH]; cbn [flat_map length]; [lia |].
    rewrite length_app. specialize (R py). lia. }
  specialize (G (seqZ 0 (mapHeight (config m)))).
  rewrite length_seqZ, Z2Nat.id in G by done. exact G.
Qed.

Lemma filter_disjoint_length {A : Type} (p q : A -> bool) (l : list A) :
  (forall a, p a = true -> q a = false) ->
  (length (List.filter p l) + length (List.filter q l) <= length l)%nat.
Proof.
  intros D. induction l as [| a l IH]; cbn [List.filter length]; [lia |].
  destruct (p a) eqn:P.
  - rewrite (D a P). cbn [length]. lia.
  - destruct (q a); cbn [length]; lia.
Qed.

Lemma filter_length_le {A : Type} (p : A -> bool) (l : list A) :
  (length (List.filter p l) <= length l)%nat.
Proof.
  induction l as [| a l IH]; cbn [List.filter length]; [lia |].
  destruct (p a); cbn [length]; lia.
Qed.

(** X2. The statistics are bounded by the size of the grid: with
    non-negative dimensions the visited count lies between 0 and
    [mapWidth * mapHeight], the Obstacle and Free counts together do not
    exceed it, and on a grid with at least one cell the coverage lies
    between 0 and 100. *)
Theorem statistics_bounds (m : SLAMMapper) :
  0 <= mapWidth (config m) -> 0 <= mapHeight (config m) ->
  0 <= getVisitedCells m <= mapWidth (config m) * mapHeight (config m)
  /\ 0 <= getObstacleCells m
  /\ 0 <= getFreeCells m
  /\ getObstacleCells m + getFreeCells m <= mapWidth (config m) * mapHeight (config m)
  /\ (0 < mapWidth (config m) * mapHeight (config m) ->
      (0 <= getMapCoverage m)%Q /\ (getMapCoverage m <= 100)%Q).
Proof.
  intros Hw Hh. pose proof (length_allCells m Hw Hh) as L.
  unfold getMapCoverage, getVisitedCells, getObstacleCells, getFreeCells.
  rewrite !countCells_filter.
  pose proof (filter_length_le visited (allCells m)) as V.
  pose proof (filter_disjoint_length
                (fun cell => MapCellType_eqb (type cell) OBSTACLE)
                (fun cell => MapCellType_eqb (type cell) FREE) (allCells m)) as D.
  assert (D' : (length (List.filter (fun cell => MapCellType_eqb (type cell) OBSTACLE)
                                    (allCells m))
                + length (List.filter (fun cell => MapCellType_eqb (type cell) FREE)
                                      (allCells m))
                <= length (allCells m))%nat).
  { apply D. intros a. now destruct (type a). }
  split; [lia |]. split; [lia |]. split; [lia |]. split; [lia |].
  intros T. pose proof T as T'. rewrite Zlt_Qlt in T'.
  change (inject_Z 0) with 0%Q in T'.
  assert (R0 : (0 <= inject_Z (Z.of_nat (length (List.filter visited (allCells m))))
                     / inject_Z (mapWidth (config m) * mapHeight (config m)))%Q).
  { apply Qle_shift_div_l; [exact T' |].
    rewrite Qmult_0_l. change 0%Q with (inject_Z 0). rewrite <- Zle_Qle. lia. }
  assert (R1 : (inject_Z (Z.of_nat (length (List.filter visited (allCells m))))
                / inject_Z (mapWidth (config m) * mapHeight (config m)) <= 1)%Q).
  { apply Qle_shift_div_r; [exact T' |].
    rewrite Qmult_1_l. rewrite <- Zle_Qle. lia. }
  set (r := (inject_Z (Z.of_nat (length (List.filter visited (allCells m))))
             / inject_Z (mapWidth (config m) * mapHeight (config m)))%Q) in *.
  clearbody r. split; lra.
Qed.

Lemma statistics_bounds_witness :
  0 <= getVisitedCells gridMapper <= 10 * 10
  /\ 0 <= getObstacleCells gridMapper
  /\ 0 <= getFreeCells gridMapper
  /\ getObstacleCells gridMapper + getFreeCells gridMapper <= 10 * 10
  /\ (0 < 10 * 10 ->
      (0 <= getMapCoverage gridMapper)%Q /\ (getMapCoverage gridMapper <= 100)%Q).
Proof.
  apply (statistics_bounds gridMapper); cbv [gridMapper initialize config mapWidth
                                            mapHeight gridConfig]; lia.
Defined.

(** *** A fresh and a cleared map *)

Lemma filter_none {A : Type} (p : A -> bool) (l : list A) :
  (forall a, In a l -> p a = false) -> List.filter p l = [].
Proof.
  induction l as [| a l IH]; intros H; cbn [List.filter]; [done |].
  rewrite (H a (or_introl eq_refl)). apply IH. intros b Hb. apply H. now right.
Qed.

Lemma In_allCells (m : SLAMMapper) (c : MapCell) :
  In c (allCells m) -> exists px py, readCell (map m) px py = Some c.
Proof.
  unfold allCells. intros I. apply in_flat_map in I as (py & _ & I).
  apply in_flat_map in I as (px & _ & I).
  destruct (readCell (map m) px py) as [c' |] eqn:R; [| done].
  destruct I as [<- | []]. eauto.
Qed.

Lemma allCells_initialize (m : SLAMMapper) (cfg : MapConfig) (c : MapCell) :
  In c (allCells (initialize m cfg)) -> c = emptyCell.
Proof.
  intros I. apply In_allCells in I as (px & py & R).
  apply (cellAt_replicate (initialize m cfg) px py). exact R.
Qed.

(** After [initialize] the allocation has [mapHeight] rows of [mapWidth]
    cells, every in-bounds cell is the initial cell (Unknown, confidence 0,
    timestamp 0, not visited), the three counts are 0 and the saved document
    lists no cell. *)
Theorem initialize_fresh (m : SLAMMapper) (cfg : MapConfig) :
  map_wf (initialize m cfg)
  /\ mapInitialized (initialize m cfg) = true
  /\ (forall px py, inBounds cfg px py = true ->
        cellAt (initialize m cfg) px py = Some emptyCell)
  /\ getVisitedCells (initialize m cfg) = 0
  /\ getObstacleCells (initialize m cfg) = 0
  /\ getFreeCells (initialize m cfg) = 0
  /\ cellEntries (initialize m cfg) = [].
Proof.
  split.
  { unfold map_wf, initialize. cbn [map config].
    split; [apply length_replicate |].
    apply Forall_replicate, length_replicate. }
  split; [done |].
  split.
  { intros px py B. unfold cellAt, initialize. cbn [map config]. rewrite B.
    apply inBounds_spec in B. unfold readCell.
    rewrite lookup_replicate_2 by lia. apply lookup_replicate_2. lia. }
  assert (Z : forall test, test emptyCell = false ->
                           countCells test (initialize m cfg) = 0).
  { intros test T. rewrite countCells_filter, filter_none; [done |].
    intros c I. now rewrite (allCells_initialize _ _ _ I). }
  split; [now apply Z |]. split; [now apply Z |]. split; [now apply Z |].
  destruct (cellEntries (initialize m cfg)) as [| e l] eqn:E; [done |].
  assert (I : In e (cellEntries (initialize m cfg))) by (rewrite E; now left).
  apply In_cellEntries in I as (px & py & c & _ & R & Li & _).
  apply (cellAt_replicate (initialize m cfg)) in R. subst c. discriminate.
Qed.

Lemma fold_left_fmap {A B C : Type} (f : A -> B -> A) (g : C -> B) (l : list C) :
  forall a, fold_left f (g <$> l) a = fold_left (fun a' c => f a' (g c)) l a.
Proof. induction l as [| c l IH]; intros a; cbn; [done | apply IH]. Qed.

Lemma fill_prefix {A : Type} (c : A) (n : nat) :
  forall row : list A,
    (n <= length row)%nat ->
    fold_left (fun r k => <[Z.to_nat (Z.of_nat k + 0) := c]> r) (seq 0 n) row
    = replicate n c ++ drop n row.
Proof.
  induction n as [| n IH]; intros row L; [done |].
  rewrite seq_S, fold_left_app, IH by lia. cbn [fold_left Nat.add].
  replace (Z.to_nat (Z.of_nat n + 0)) with n by lia.
  destruct (lookup_lt_is_Some_2 row n) as [a Ha]; [lia |].
  rewrite insert_app_r_alt by (rewrite length_replicate; lia).
  rewrite length_replicate, Nat.sub_diag, (drop_S _ _ _ Ha). cbn [insert list_insert].
  now rewrite replicate_S_end, <- app_assoc.
Qed.

Lemma writeCells_row (c : MapCell) (py : Z) (l : list Z) :
  forall g : list (list MapCell),
    fold_left (fun g' px => writeCell g' px py c) l g
    = match g !! Z.to_nat py with
      | Some row =>
          <[Z.to_nat py := fold_left (fun r px => <[Z.to_nat px := c]> r) l row]> g
      | None => g
      end.
Proof.
  induction l as [| px l IH]; intros g; cbn [fold_left].
  - destruct (g !! Z.to_nat py) as [row |] eqn:R; [| done].
    symmetry. now apply list_insert_id.
  - rewrite IH. unfold writeCell.
    destruct (g !! Z.to_nat py) as [row |] eqn:R.
    + rewrite list_lookup_insert_eq by (eapply lookup_lt_Some; eauto).
      apply list_insert_insert_eq.
    + now rewrite R.
Qed.

Lemma clearRow_full (g : list (list MapCell)) (w py : Z) (row : list MapCell) :
  g !! Z.to_nat py = Some row ->
  length row = Z.to_nat w ->
  clearRow g w py = <[Z.to_nat py := replicate (Z.to_nat w) emptyCell]> g.
Proof.
  intros R L. unfold clearRow. rewrite writeCells_row, R. f_equal.
  unfold seqZ. rewrite fold_left_fmap, fill_prefix by lia.
  rewrite drop_ge by lia. apply app_nil_r.
Qed.

Lemma clearRows_prefix (w : Z) (n : nat) :
  forall g : list (list MapCell),
    (n <= length g)%nat ->
    Forall (fun row => length row = Z.to_nat w) g ->
    fold_left (fun g' k => clearRow g' w (Z.of_nat k + 0)) (seq 0 n) g
    = replicate n (replicate (Z.to_nat w) emptyCell) ++ drop n g.
Proof.
  induction n as [| n IH]; intros g L F; [done |].
  rewrite seq_S, fold_left_app, IH by (done || lia). cbn [fold_left Nat.add].
  destruct (lookup_lt_is_Some_2 g n) as [row Hrow]; [lia |].
  assert (Lr : length row = Z.to_nat w) by (eapply Forall_lookup_1 in F; eauto).
  rewrite (clearRow_full _ _ _ row).
  - replace (Z.to_nat (Z.of_nat n + 0)) with n by lia.
    rewrite insert_app_r_alt by (rewrite length_replicate; lia).
    rewrite length_replicate, Nat.sub_diag, (drop_S _ _ _ Hrow).
    cbn [insert list_insert].
    now rewrite replicate_S_end, <- app_assoc.
  - replace (Z.to_nat (Z.of_nat n + 0)) with n by lia.
    rewrite lookup_app_r by (rewrite length_replicate; lia).
    rewrite length_replicate, Nat.sub_diag, lookup_drop, Nat.add_0_r. exact Hrow.
  - exact Lr.
Qed.

(** X3. [clearMap] returns at once on a mapper that was never initialised
    and changes nothing. On an initialised mapper, whose grid has the shape
    [initialize] allocates, its loops reset every cell: they leave exactly
    the grid of initial cells that [initialize] builds for the same
    configuration, and no waypoint. *)
Theorem clearMap_resets (m : SLAMMapper) :
  (mapInitialized m = false -> clearMapLoops m = m)
  /\ (mapInitialized m = true -> map_wf m ->
      clearMapLoops m = clearMap m
      /\ map (clearMapLoops m) = map (initialize m (config m))
      /\ waypoints (clearMapLoops m) = []).
Proof.
  split.
  - intros E. unfold clearMapLoops. now rewrite E.
  - intros E [Hl Hr].
    assert (G : fold_left (fun g py => clearRow g (mapWidth (config m)) py)
                          (seqZ 0 (mapHeight (config m))) (map m)
                = replicate (Z.to_nat (mapHeight (config m)))
                            (replicate (Z.to_nat (mapWidth (config m))) emptyCell)).
    { unfold seqZ. rewrite fold_left_fmap, clearRows_prefix by (done || lia).
      rewrite drop_ge by lia. apply app_nil_r. }
    unfold clearMapLoops, clearMap. rewrite G, E. now cbn.
Qed.

Lemma clearMap_resets_witness :
  clearMapLoops SLAMMapper_new = SLAMMapper_new
  /\ (let m := addWaypoint (updateMapCell gridMapper 8 5 OBSTACLE (8 # 10) 7)
                           1 1 "A" 9 in
      clearMapLoops m = clearMap m
      /\ map (clearMapLoops m) = map (initialize m (config m))
      /\ waypoints (clearMapLoops m) = []).
Proof.
  split.
  - apply (proj1 (clearMap_resets SLAMMapper_new)). reflexivity.
  - apply (proj2 (clearMap_resets
                    (addWaypoint (updateMapCell gridMapper 8 5 OBSTACLE (8 # 10) 7)
                                 1 1 "A" 9))).
    + reflexivity.
    + split; [reflexivity |]. vm_compute. repeat constructor.
Defined.

(** *** World and grid coordinates *)

Lemma truncate_nonneg (q : Q) : (0 <= q)%Q -> truncate q = Qfloor q.
Proof.
  destruct q as [n d]. unfold Qle, truncate, Qfloor. cbn. intros H.
  apply Z.quot_div_nonneg; lia.
Qed.

(** *** Waypoints *)

Lemma eraseFirst_None (id : Z) (w : list Waypoint) :
  eraseFirst id w = None <-> (forall v, In v w -> wp_id v <> id).
Proof.
  induction w as [| p w IH]; cbn [eraseFirst].
  - split; [intros _ v [] | done].
  - destruct (Z.eqb_spec (wp_id p) id) as [E | N].
    + split; [discriminate |]. intros H. exfalso. apply (H p); [now left | done].
    + destruct (eraseFirst id w) as [r |] eqn:R.
      * split; [discriminate |]. intros H.
        assert (X : Some r = None)
          by (apply (proj2 IH); intros v Hv; apply H; now right).
        discriminate X.
      * split; [| done]. intros _ v [<- | Hv]; [done |]. now apply IH.
Qed.

Lemma eraseFirst_Some (id : Z) (w r : list Waypoint) :
  eraseFirst id w = Some r ->
  exists l1 v l2,
    w = l1 ++ v :: l2 /\ wp_id v = id
    /\ (forall u, In u l1 -> wp_id u <> id)
    /\ r = l1 ++ l2.
Proof.
  revert r. induction w as [| p w IH]; intros r; cbn [eraseFirst]; [discriminate |].
  destruct (Z.eqb_spec (wp_id p) id) as [E | N].
  - intros [= <-]. exists [], p, w. repeat split; try done; intros u [].
  - destruct (eraseFirst id w) as [r' |] eqn:R; [| discriminate].
    intros [= <-]. destruct (IH r' eq_refl) as (l1 & v & l2 & -> & Ev & F & ->).
    exists (p :: l1), v, l2. repeat split; try done.
    intros u [<- | Hu]; [done | now apply F].
Qed.

Lemma eraseFirst_last (id : Z) (w : list Waypoint) (v : Waypoint) :
  (forall u, In u w -> wp_id u <> id) -> wp_id v = id ->
  eraseFirst id (w ++ [v]) = Some w.
Proof.
  intros F E. induction w as [| p w IH]; cbn [eraseFirst app].
  - now rewrite E, Z.eqb_refl.
  - destruct (Z.eqb_spec (wp_id p) id) as [E' | N].
    + exfalso. apply (F p); [now left | done].
    + rewrite IH; [done |]. intros u Hu. apply F. now right.
Qed.

Lemma waypoints_addWaypoint (m : SLAMMapper) (px py : Q) (name : string) (now : Z) :
  waypoints (addWaypoint m px py name now)
  = waypoints m
    ++ [mkWaypoint now px py
          (if (String.length name =? 0)%nat
           then ("Waypoint " ++ String_int (Z.of_nat (length (waypoints m)) + 1))%string
           else name)
          now false].
Proof.
  unfold addWaypoint.
  destruct (inBounds _ _ _); [now rewrite waypoints_updateMapCell | done].
Qed.

Lemma cellAt_addWaypoint_eq (m : SLAMMapper) (px py : Q) (name : string) (now : Z)
      (c : MapCell) :
  cellAt m (gx (worldToMap (config m) px py)) (gy (worldToMap (config m) px py))
  = Some c ->
  cellAt (addWaypoint m px py name now)
         (gx (worldToMap (config m) px py)) (gy (worldToMap (config m) px py))
  = Some (mkCell WAYPOINT 1 now (visited c)).
Proof.
  intros C. unfold addWaypoint.
  set (w := mkWaypoint _ _ _ _ _ _).
  set (m1 := set_waypoints m (waypoints m ++ [w])).
  change (config m1) with (config m).
  rewrite (cellAt_inBounds _ _ _ _ C).
  change (cellAt m1 (gx (worldToMap (config m) px py))
                 (gy (worldToMap (config m) px py)) = Some c) in C.
  now rewrite (cellAt_updateMapCell_eq _ _ _ _ _ _ _ C).
Qed.

Lemma cellAt_addWaypoint_ne (m : SLAMMapper) (px py : Q) (name : string) (now : Z)
      (qx qy : Z) :
  (gx (worldToMap (config m) px py), gy (worldToMap (config m) px py)) <> (qx, qy) ->
  cellAt (addWaypoint m px py name now) qx qy = cellAt m qx qy.
Proof.
  intros N. unfold addWaypoint.
  set (w := mkWaypoint _ _ _ _ _ _).
  set (m1 := set_waypoints m (waypoints m ++ [w])).
  change (config m1) with (config m).
  destruct (inBounds _ _ _); [| done].
  now rewrite cellAt_updateMapCell_ne.
Qed.

(** X5. On a mapper whose grid is allocated, [addWaypoint] appends exactly
    one waypoint, after the existing ones: its id and timestamp are the
    clock reading, its coordinates the given ones, it is not visited, and
    its name is the given one or, when that is empty, "Waypoint" followed by
    the new number of waypoints. The cell under it, when inside the grid,
    becomes Waypoint with confidence 1 and keeps its visited flag; no other
    cell changes. (The function does not test [mapInitialized]: without a
    grid a point inside the bounds makes [updateMapCell] read through the
    null [map].) *)
Theorem addWaypoint_appends (m : SLAMMapper) (px py : Q) (name : string) (now : Z) :
  map_wf m ->
  getWaypoints (addWaypoint m px py name now)
  = getWaypoints m
    ++ [mkWaypoint now px py
          (if (String.length name =? 0)%nat
           then ("Waypoint " ++ String_int (Z.of_nat (length (waypoints m)) + 1))%string
           else name)
          now false]
  /\ (forall c,
        cellAt m (gx (worldToMap (config m) px py)) (gy (worldToMap (config m) px py))
        = Some c ->
        cellAt (addWaypoint m px py name now)
               (gx (worldToMap (config m) px py)) (gy (worldToMap (config m) px py))
        = Some (mkCell WAYPOINT 1 now (visited c)))
  /\ (forall qx qy,
        (gx (worldToMap (config m) px py), gy (worldToMap (config m) px py))
        <> (qx, qy) ->
        cellAt (addWaypoint m px py name now) qx qy = cellAt m qx qy)
  /\ map_wf (addWaypoint m px py name now).
Proof.
  intros Wf.
  split; [apply waypoints_addWaypoint |].
  split; [intros c; apply cellAt_addWaypoint_eq |].
  split; [intros qx qy; apply cellAt_addWaypoint_ne |].
  unfold addWaypoint. cbv zeta.
  destruct (inBounds _ _ _); [| exact Wf].
  apply map_wf_updateMapCell. exact Wf.
Qed.

Lemma addWaypoint_appends_witness :
  getWaypoints (addWaypoint (addWaypoint gridMapper 1 1 "A" 5) 2 2 EmptyString 9)
  = [mkWaypoint 5 1 1 "A" 5 false; mkWaypoint 9 2 2 "Waypoint 2" 9 false].
Proof.
  destruct (addWaypoint_appends (addWaypoint gridMapper 1 1 "A" 5) 2 2 EmptyString 9)
    as (W & _).
  - split; [reflexivity |]. vm_compute. repeat constructor.
  - rewrite W. reflexivity.
Defined.

(** X6. [removeWaypoint] answers true exactly when some waypoint carries the
    id. It then erases the first such waypoint only, keeping the others in
    order; otherwise it changes nothing. In both cases the grid is left as
    it is: the cell that [addWaypoint] marked stays Waypoint. *)
Theorem removeWaypoint_first_match (m : SLAMMapper) (id : Z) :
  (snd (removeWaypoint m id) = true <-> exists w, In w (waypoints m) /\ wp_id w = id)
  /\ (snd (removeWaypoint m id) = false -> fst (removeWaypoint m id) = m)
  /\ (snd (removeWaypoint m id) = true ->
      exists l1 w l2,
        waypoints m = l1 ++ w :: l2 /\ wp_id w = id
        /\ (forall u, In u l1 -> wp_id u <> id)
        /\ waypoints (fst (removeWaypoint m id)) = l1 ++ l2)
  /\ map (fst (removeWaypoint m id)) = map m
  /\ config (fst (removeWaypoint m id)) = config m.
Proof.
  unfold removeWaypoint.
  destruct (eraseFirst id (waypoints m)) as [r |] eqn:E; cbn [fst snd].
  - destruct (eraseFirst_Some _ _ _ E) as (l1 & w & l2 & Hw & Ew & F & ->).
    split; [| split; [discriminate | split; [| done]]].
    + split; [| done]. intros _. exists w. split; [| done].
      rewrite Hw. apply in_or_app. right. now left.
    + intros _. exists l1, w, l2. done.
  - split; [| split; [done | split; [discriminate | done]]].
    split; [discriminate |]. intros (w & I & Ew).
    exfalso. apply (proj1 (eraseFirst_None id (waypoints m)) E w I Ew).
Qed.

(** X7. On a mapper whose grid is allocated, adding a waypoint at a clock
    reading that no existing waypoint carries as id, and removing it again
    by that id, gives back the list of waypoints as it was; the cell it
    marked is still Waypoint afterwards. *)
Theorem add_then_remove_waypoint (m : SLAMMapper) (px py : Q) (name : string)
        (now : Z) :
  map_wf m ->
  (forall w, In w (waypoints m) -> wp_id w <> now) ->
  snd (removeWaypoint (addWaypoint m px py name now) now) = true
  /\ waypoints (fst (removeWaypoint (addWaypoint m px py name now) now))
     = waypoints m
  /\ (forall c,
        cellAt m (gx (worldToMap (config m) px py)) (gy (worldToMap (config m) px py))
        = Some c ->
        cellAt (fst (removeWaypoint (addWaypoint m px py name now) now))
               (gx (worldToMap (config m) px py)) (gy (worldToMap (config m) px py))
        = Some (mkCell WAYPOINT 1 now (visited c))).
Proof.
  intros _ F.
  pose proof (waypoints_addWaypoint m px py name now) as W.
  pose proof (cellAt_addWaypoint_eq m px py name now) as C.
  assert (E : eraseFirst now (waypoints (addWaypoint m px py name now))
              = Some (waypoints m)).
  { rewrite W. now apply eraseFirst_last. }
  unfold removeWaypoint. rewrite E. cbn [fst snd].
  split; [done |]. split; [done |].
  intros c Hc. specialize (C c Hc). exact C.
Qed.

Lemma add_then_remove_waypoint_witness :
  let m := addWaypoint gridMapper 1 1 "A" 5 in
  snd (removeWaypoint (addWaypoint m 2 2 EmptyString 9) 9) = true
  /\ waypoints (fst (removeWaypoint (addWaypoint m 2 2 EmptyString 9) 9))
     = waypoints m
  /\ (forall c,
        cellAt m (gx (worldToMap (config m) 2 2)) (gy (worldToMap (config m) 2 2))
        = Some c ->
        cellAt (fst (removeWaypoint (addWaypoint m 2 2 EmptyString 9) 9))
               (gx (worldToMap (config m) 2 2)) (gy (worldToMap (config m) 2 2))
        = Some (mkCell WAYPOINT 1 9 (visited c))).
Proof.
  apply (add_then_remove_waypoint (addWaypoint gridMapper 1 1 "A" 5) 2 2 EmptyString 9).
  - split; [reflexivity |]. vm_compute. repeat constructor.
  - intros w [<- | []]. discriminate.
Defined.

(** *** The car's position *)

(** X8. [updatePosition] stores the pose and marks the cell under the car
    CarPosition with confidence 1. It never reverts the mark: after a move
    to another cell the cell the car left is still CarPosition. *)
Theorem updatePosition_leaves_trail (m : SLAMMapper) (x1 y1 a1 x2 y2 a2 : Q)
        (t1 t2 : Z) (c : MapCell) :
  cellAt m (gx (worldToMap (config m) x1 y1)) (gy (worldToMap (config m) x1 y1))
  = Some c ->
  worldToMap (config m) x1 y1 <> worldToMap (config m) x2 y2 ->
  cellAt (updatePosition m x1 y1 a1 t1)
         (gx (worldToMap (config m) x1 y1)) (gy (worldToMap (config m) x1 y1))
  = Some (mkCell CAR_POSITION 1 t1 (visited c))
  /\ cellAt (updatePosition (updatePosition m x1 y1 a1 t1) x2 y2 a2 t2)
            (gx (worldToMap (config m) x1 y1)) (gy (worldToMap (config m) x1 y1))
     = Some (mkCell CAR_POSITION 1 t1 (visited c))
  /\ x (carPosition (updatePosition (updatePosition m x1 y1 a1 t1) x2 y2 a2 t2)) = x2
  /\ y (carPosition (updatePosition (updatePosition m x1 y1 a1 t1) x2 y2 a2 t2)) = y2
  /\ carAngle (updatePosition (updatePosition m x1 y1 a1 t1) x2 y2 a2 t2) = a2.
Proof.
  intros C N.
  assert (U : forall (m0 : SLAMMapper) px py a now,
             config (updatePosition m0 px py a now) = config m0
             /\ x (carPosition (updatePosition m0 px py a now)) = px
             /\ y (carPosition (updatePosition m0 px py a now)) = py
             /\ carAngle (updatePosition m0 px py a now) = a).
  { intros m0 px py a now. unfold updatePosition.
    set (m1 := mkMapper _ _ _ _ _ _ _ _ _ _ _ _).
    destruct (inBounds (config m1) _ _); [| done].
    pose proof (sameFrame_updateMapCell m1 (gx (worldToMap (config m1) px py))
                  (gy (worldToMap (config m1) px py)) CAR_POSITION 1 now)
      as (E1 & E2 & E3 & _).
    rewrite E1, E2, E3. done. }
  assert (S1 : cellAt (updatePosition m x1 y1 a1 t1)
                      (gx (worldToMap (config m) x1 y1))
                      (gy (worldToMap (config m) x1 y1))
               = Some (mkCell CAR_POSITION 1 t1 (visited c))).
  { unfold updatePosition.
    set (m1 := mkMapper _ _ _ _ _ _ _ _ _ _ _ _).
    change (config m1) with (config m).
    rewrite (cellAt_inBounds _ _ _ _ C).
    assert (C1 : cellAt m1 (gx (worldToMap (config m) x1 y1))
                        (gy (worldToMap (config m) x1 y1)) = Some c) by exact C.
    now rewrite (cellAt_updateMapCell_eq _ _ _ _ _ _ _ C1). }
  split; [exact S1 |]. split.
  - destruct (U m x1 y1 a1 t1) as (Ec & _).
    unfold updatePosition at 1.
    set (m1 := mkMapper _ _ _ _ _ _ _ _ _ _ _ _).
    change (config m1) with (config (updatePosition m x1 y1 a1 t1)).
    rewrite Ec.
    destruct (inBounds _ _ _).
    + rewrite cellAt_updateMapCell_ne; [exact S1 |].
      intros E. apply N. destruct (worldToMap (config m) x1 y1),
                           (worldToMap (config m) x2 y2).
      cbn in E. now inversion E.
    + exact S1.
  - apply U.
Qed.

Lemma updatePosition_leaves_trail_witness :
  cellAt (updatePosition gridMapper 0 0 0 10) 5 5
  = Some (mkCell CAR_POSITION 1 10 false)
  /\ cellAt (updatePosition (updatePosition gridMapper 0 0 0 10) 2 0 0 20) 5 5
     = Some (mkCell CAR_POSITION 1 10 false)
  /\ x (carPosition (updatePosition (updatePosition gridMapper 0 0 0 10) 2 0 0 20))
     = 2%Q
  /\ y (carPosition (updatePosition (updatePosition gridMapper 0 0 0 10) 2 0 0 20))
     = 0%Q
  /\ carAngle (updatePosition (updatePosition gridMapper 0 0 0 10) 2 0 0 20) = 0%Q.
Proof.
  apply (updatePosition_leaves_trail gridMapper 0 0 0 2 0 0 10 20 emptyCell).
  - reflexivity.
  - discriminate.
Defined.

(** *** Relations kept cell by cell *)

Section Cellwise.

Context `{Libm}.

Variable R : MapCell -> MapCell -> Prop.
Variable okThresholds : Q -> Q -> Prop.

Hypothesis R_refl : forall c, R c c.
Hypothesis R_trans : forall a b c, R a b -> R b c -> R a c.
Hypothesis R_update :
  forall occ free c ty conf now,
    okThresholds occ free -> appliedUpdate ty conf ->
    R c (updateCell occ free c ty conf now).
Hypothesis R_visit :
  forall c now, R c (mkCell (type c) (confidence c) now true).

Lemma sameGrid_refl (m : SLAMMapper) : sameGrid m m.
Proof. now repeat split. Qed.

Lemma cellwise_refl (m : SLAMMapper) : cellwise R m m.
Proof. split; [apply sameGrid_refl | eauto]. Qed.

Lemma cellwise_trans (m1 m2 m3 : SLAMMapper) :
  cellwise R m1 m2 -> cellwise R m2 m3 -> cellwise R m1 m3.
Proof.
  intros [(A1 & A2 & A3 & A4) C1] [(B1 & B2 & B3 & B4) C2]. split.
  - repeat split; congruence.
  - intros px py c C. destruct (C1 _ _ _ C) as (c' & C' & R1).
    destruct (C2 _ _ _ C') as (c'' & C'' & R2). eauto.
Qed.

Lemma okThresholds_cellwise (m m' : SLAMMapper) :
  cellwise R m m' -> okThresholds (occupancyThreshold m) (freeThreshold m) -> okThresholds (occupancyThreshold m') (freeThreshold m').
Proof. intros [(_ & E1 & E2 & _) _]. now rewrite E1, E2. Qed.

Lemma cellwise_updateMapCell (m : SLAMMapper) px py ty conf now :
  okThresholds (occupancyThreshold m) (freeThreshold m) -> appliedUpdate ty conf ->
  cellwise R m (updateMapCell m px py ty conf now).
Proof.
  intros Ok A. split.
  - pose proof (sameFrame_updateMapCell m px py ty conf now) as (E1 & _ & _ & E4 & E5).
    repeat split; try done.
    unfold updateMapCell. destruct (_ || _); [done |].
    now destruct (readCell (map m) px py).
  - intros qx qy c C. destruct (decide ((px, py) = (qx, qy))) as [E | N].
    + inversion E; subst qx qy.
      rewrite (cellAt_updateMapCell_eq _ _ _ _ _ _ _ C). eauto.
    + rewrite (cellAt_updateMapCell_ne _ _ _ _ _ _ _ _ N). eauto.
Qed.

Lemma cellwise_updateOccupancyGrid (m : SLAMMapper) (d a : Q) (now : Z) :
  okThresholds (occupancyThreshold m) (freeThreshold m) -> cellwise R m (updateOccupancyGrid m d a now).
Proof.
  intros Ok. unfold updateOccupancyGrid.
  destruct (inBounds _ _ _); [| apply cellwise_refl].
  assert (O : cellwise R m (updateObstacle m d a now)).
  { unfold updateObstacle. destruct (inBounds _ _ _); [| apply cellwise_refl].
    apply cellwise_updateMapCell; [done |]. left. done. }
  unfold updateFreeSpace.
  generalize (seqZ 1 (steps (updateObstacle m d a now) d - 1)) as l.
  revert O. generalize (updateObstacle m d a now) as m'.
  intros m' O l. revert m' O.
  induction l as [| i l IH]; intros m' O; [done |].
  cbn [fold_left]. apply IH. eapply cellwise_trans; [exact O |].
  unfold freeSpaceStep. destruct (inBounds _ _ _); [| apply cellwise_refl].
  apply cellwise_updateMapCell; [eapply okThresholds_cellwise; eauto |].
  right. left. done.
Qed.

Lemma cellwise_markVisited (m : SLAMMapper) (now : Z) :
  cellwise R m (markVisited m now).
Proof.
  unfold markVisited.
  set (p := worldToMap (config m) (x (carPosition m)) (y (carPosition m))).
  clearbody p.
  destruct (inBounds (config m) (gx p) (gy p)) eqn:B; [| apply cellwise_refl].
  destruct (readCell (map m) (gx p) (gy p)) as [c0 |] eqn:R0; [| apply cellwise_refl].
  split; [now repeat split |].
  intros qx qy c. unfold cellAt. cbn [config set_map map].
  destruct (inBounds (config m) qx qy) eqn:Bq; [| done].
  destruct (decide ((gx p, gy p) = (qx, qy))) as [E | N].
  - inversion E; subst qx qy. rewrite R0. intros [= <-].
    rewrite (readCell_writeCell_eq _ _ _ _ _ R0). eauto.
  - apply inBounds_spec in B, Bq.
    rewrite readCell_writeCell_ne by (lia || done). eauto.
Qed.

Lemma cellwise_processSensorData (m : SLAMMapper) (now : Z) :
  okThresholds (occupancyThreshold m) (freeThreshold m) -> cellwise R m (processSensorData m now).
Proof.
  intros Ok. unfold processSensorData.
  destruct (negb (mapInitialized m)); [apply cellwise_refl |].
  assert (I : forall m0 d a, okThresholds (occupancyThreshold m0) (freeThreshold m0) -> cellwise R m0 (integrateIR m0 d a now)).
  { intros m0 d a Ok0. unfold integrateIR.
    destruct (_ && _); [now apply cellwise_updateOccupancyGrid | apply cellwise_refl]. }
  assert (U : cellwise R m (integrateUltrasonic m now)).
  { unfold integrateUltrasonic.
    destruct (_ && _); [now apply cellwise_updateOccupancyGrid | apply cellwise_refl]. }
  set (m1 := integrateUltrasonic m now) in *.
  pose proof (okThresholds_cellwise _ _ U Ok) as Ok1.
  pose proof (I m1 (lastIRLeft m1) (carAngle m1 - 30 * PI / 180)%Q Ok1) as C2.
  set (m2 := integrateIR m1 _ _ now) in *.
  pose proof (okThresholds_cellwise _ _ C2 Ok1) as Ok2.
  pose proof (I m2 (lastIRCenter m2) (carAngle m2) Ok2) as C3.
  set (m3 := integrateIR m2 _ _ now) in *.
  pose proof (okThresholds_cellwise _ _ C3 Ok2) as Ok3.
  pose proof (I m3 (lastIRRight m3) (carAngle m3 + 30 * PI / 180)%Q Ok3) as C4.
  set (m4 := integrateIR m3 _ _ now) in *.
  eapply cellwise_trans; [exact U |].
  eapply cellwise_trans; [exact C2 |].
  eapply cellwise_trans; [exact C3 |].
  eapply cellwise_trans; [exact C4 |].
  apply cellwise_markVisited.
Qed.

Lemma cellwise_applyOp (m : SLAMMapper) (op : MapOp) (now : Z) :
  okThresholds (occupancyThreshold m) (freeThreshold m) -> cellwise R m (applyOp m op now).
Proof.
  intros Ok. destruct op as [px py a | u l c r | | px py name | id]; cbn [applyOp].
  - unfold updatePosition.
    set (m1 := mkMapper _ _ _ _ _ _ _ _ _ _ _ _).
    assert (C1 : cellwise R m m1) by (split; [now repeat split | eauto]).
    destruct (inBounds _ _ _); [| exact C1].
    eapply cellwise_trans; [exact C1 |].
    apply cellwise_updateMapCell; [exact Ok |]. right. right. right. done.
  - split; [now repeat split | eauto].
  - now apply cellwise_processSensorData.
  - unfold addWaypoint.
    set (m1 := set_waypoints _ _).
    assert (C1 : cellwise R m m1) by (split; [now repeat split | eauto]).
    destruct (inBounds _ _ _); [| exact C1].
    eapply cellwise_trans; [exact C1 |].
    apply cellwise_updateMapCell; [exact Ok |]. right. right. left. done.
  - unfold removeWaypoint. destruct (eraseFirst id (waypoints m)); cbn [fst].
    + split; [now repeat split | eauto].
    + apply cellwise_refl.
Qed.

Lemma cellwise_applyOps (ops : list (MapOp * Z)) :
  forall m : SLAMMapper, okThresholds (occupancyThreshold m) (freeThreshold m) -> cellwise R m (applyOps m ops).
Proof.
  unfold applyOps.
  induction ops as [| [op now] ops IH]; intros m Ok; [apply cellwise_refl |].
  cbn [fold_left fst snd].
  pose proof (cellwise_applyOp m op now Ok) as C.
  eapply cellwise_trans; [exact C |].
  apply IH. eapply okThresholds_cellwise; eauto.
Qed.

End Cellwise.

(** *** The visited flag *)

Lemma visited_updateCell (occ free : Q) (c : MapCell) ty conf now :
  visited (updateCell occ free c ty conf now) = visited c.
Proof. now destruct ty. Qed.

(** X9. No update ever resets a visited flag: through any run of
    [updatePosition], [updateSensors], [processSensorData], [addWaypoint]
    and [removeWaypoint], a cell that was visited is still there and still
    visited. *)
Theorem visited_is_kept `{Libm} (m : SLAMMapper) (ops : list (MapOp * Z))
        (px py : Z) (c : MapCell) :
  cellAt m px py = Some c ->
  visited c = true ->
  exists c', cellAt (applyOps m ops) px py = Some c' /\ visited c' = true.
Proof.
  intros C V.
  destruct (cellwise_applyOps (fun a b => visited a = true -> visited b = true)
              (fun _ _ => True)) with (ops := ops) (m := m) as [_ K]; try done.
  - intros a b c0 H1 H2 Ha. auto.
  - intros occ free c0 ty conf now _ _. now rewrite visited_updateCell.
  - destruct (K _ _ _ C) as (c' & C' & V'). eauto.
Qed.

Lemma visited_is_kept_witness :
  exists c',
    cellAt (applyOps (H := seriesLibm)
                     (sense (H := seriesLibm) gridMapper 0 0 0 3 0 0 0 10)
                     [(OpUpdatePosition 2 0 0, 20); (OpProcessSensorData, 21);
                      (OpAddWaypoint 0 0 EmptyString, 22)]) 5 5 = Some c'
    /\ visited c' = true.
Proof.
  apply (visited_is_kept (H := seriesLibm)
           (sense (H := seriesLibm) gridMapper 0 0 0 3 0 0 0 10)
           [(OpUpdatePosition 2 0 0, 20); (OpProcessSensorData, 21);
            (OpAddWaypoint 0 0 EmptyString, 22)] 5 5 (mkCell FREE 1 10 true)).
  - vm_compute. reflexivity.
  - reflexivity.
Defined.

Lemma sameFrame_updateOccupancyGrid `{Libm} (m : SLAMMapper) (d a : Q) (now : Z) :
  sameFrame m (updateOccupancyGrid m d a now)
  /\ waypoints (updateOccupancyGrid m d a now) = waypoints m.
Proof.
  unfold updateOccupancyGrid.
  destruct (inBounds _ _ _); [| split; [apply sameFrame_refl | done]].
  assert (O : sameFrame m (updateObstacle m d a now)
              /\ waypoints (updateObstacle m d a now) = waypoints m).
  { split; [apply sameFrame_updateObstacle |].
    unfold updateObstacle. destruct (inBounds _ _ _); [| done].
    apply waypoints_updateMapCell. }
  unfold updateFreeSpace.
  generalize (seqZ 1 (steps (updateObstacle m d a now) d - 1)) as l.
  revert O. generalize (updateObstacle m d a now) as m'.
  intros m' O l. revert m' O.
  induction l as [| i l IH]; intros m' [S W]; [done |].
  cbn [fold_left]. apply IH. split.
  - eapply sameFrame_trans; [exact S | apply sameFrame_freeSpaceStep].
  - rewrite <- W. unfold freeSpaceStep. destruct (inBounds _ _ _); [| done].
    apply waypoints_updateMapCell.
Qed.

(** X10. On an initialised mapper [processSensorData] leaves the cell under
    the car, when inside the grid, visited and stamped with the clock
    reading, whatever the four readings were; the waypoints, the pose, the
    configuration and the thresholds are untouched. *)
Theorem processSensorData_marks_visited `{Libm} (m : SLAMMapper) (now : Z)
        (c : MapCell) :
  mapInitialized m = true ->
  cellAt m (gx (worldToMap (config m) (x (carPosition m)) (y (carPosition m))))
         (gy (worldToMap (config m) (x (carPosition m)) (y (carPosition m))))
  = Some c ->
  sameFrame m (processSensorData m now)
  /\ waypoints (processSensorData m now) = waypoints m
  /\ exists c',
       cellAt (processSensorData m now)
              (gx (worldToMap (config m) (x (carPosition m)) (y (carPosition m))))
              (gy (worldToMap (config m) (x (carPosition m)) (y (carPosition m))))
       = Some c'
       /\ visited c' = true /\ timestamp c' = now.
Proof.
  intros I C. unfold processSensorData. rewrite I. cbn [negb].
  assert (G : forall m0 d a,
             sameFrame m0 (integrateIR m0 d a now)
             /\ waypoints (integrateIR m0 d a now) = waypoints m0).
  { intros m0 d a. unfold integrateIR.
    destruct (_ && _); [apply sameFrame_updateOccupancyGrid |].
    split; [apply sameFrame_refl | done]. }
  assert (U : sameFrame m (integrateUltrasonic m now)
              /\ waypoints (integrateUltrasonic m now) = waypoints m).
  { unfold integrateUltrasonic.
    destruct (_ && _); [apply sameFrame_updateOccupancyGrid |].
    split; [apply sameFrame_refl | done]. }
  assert (K : forall m0 d a,
             cellwise (fun _ _ => True) m0 (integrateIR m0 d a now)).
  { intros m0 d a. unfold integrateIR.
    destruct (_ && _); [| now apply cellwise_refl].
    now apply (cellwise_updateOccupancyGrid (fun _ _ => True) (fun _ _ => True)). }
  assert (KU : cellwise (fun _ _ => True) m (integrateUltrasonic m now)).
  { unfold integrateUltrasonic.
    destruct (_ && _); [| now apply cellwise_refl].
    now apply (cellwise_updateOccupancyGrid (fun _ _ => True) (fun _ _ => True)). }
  set (m1 := integrateUltrasonic m now) in *.
  pose proof (G m1 (lastIRLeft m1) (carAngle m1 - 30 * PI / 180)%Q) as G2.
  pose proof (K m1 (lastIRLeft m1) (carAngle m1 - 30 * PI / 180)%Q) as K2.
  set (m2 := integrateIR m1 _ _ now) in *.
  pose proof (G m2 (lastIRCenter m2) (carAngle m2)) as G3.
  pose proof (K m2 (lastIRCenter m2) (carAngle m2)) as K3.
  set (m3 := integrateIR m2 _ _ now) in *.
  pose proof (G m3 (lastIRRight m3) (carAngle m3 + 30 * PI / 180)%Q) as G4.
  pose proof (K m3 (lastIRRight m3) (carAngle m3 + 30 * PI / 180)%Q) as K4.
  set (m4 := integrateIR m3 _ _ now) in *.
  assert (S4 : sameFrame m m4 /\ waypoints m4 = waypoints m).
  { destruct U as [U1 U2], G2 as [A1 A2], G3 as [B1 B2], G4 as [C1 C2]. split.
    - eapply sameFrame_trans; [exact U1 |].
      eapply sameFrame_trans; [exact A1 |].
      eapply sameFrame_trans; [exact B1 | exact C1].
    - congruence. }
  assert (K4' : cellwise (fun _ _ => True) m m4).
  { eapply cellwise_trans; [| exact KU |]; [auto |].
    eapply cellwise_trans; [| exact K2 |]; [auto |].
    eapply cellwise_trans; [| exact K3 | exact K4]. auto. }
  clearbody m4. destruct S4 as [(E1 & E2 & E3 & E4 & E5) W4].
  unfold markVisited. rewrite E1, E2.
  revert C.
  set (p := worldToMap (config m) (x (carPosition m)) (y (carPosition m))).
  clearbody p. intros C.
  rewrite (cellAt_inBounds _ _ _ _ C).
  destruct K4' as [_ K']. destruct (K' _ _ _ C) as (c4 & C4 & _).
  pose proof C4 as R4. unfold cellAt in R4.
  rewrite E1, (cellAt_inBounds _ _ _ _ C) in R4. rewrite R4.
  split; [now repeat split |]. split; [exact W4 |].
  eexists. split.
  - unfold cellAt. cbn [config set_map map].
    rewrite E1, (cellAt_inBounds _ _ _ _ C).
    apply (readCell_writeCell_eq _ _ _ _ _ R4).
  - split; reflexivity.
Qed.

Lemma processSensorData_marks_visited_witness :
  let m := updateSensors (updatePosition gridMapper 0 0 0 10) 3 0 0 0 in
  sameFrame m (processSensorData (H := seriesLibm) m 11)
  /\ waypoints (processSensorData (H := seriesLibm) m 11) = waypoints m
  /\ exists c',
       cellAt (processSensorData (H := seriesLibm) m 11) 5 5 = Some c'
       /\ visited c' = true /\ timestamp c' = 11.
Proof.
  apply (processSensorData_marks_visited (H := seriesLibm)
           (updateSensors (updatePosition gridMapper 0 0 0 10) 3 0 0 0) 11
           (mkCell CAR_POSITION 1 10 false)).
  - reflexivity.
  - reflexivity.
Defined.

(** *** What the integration of a reading touches *)

Lemma walk_misses `{Libm} (a : Q) (now px py : Z) (l : list Z) :
  forall m : SLAMMapper,
    (forall i, i ∈ l -> rayCell m a i <> mkGridPoint px py) ->
    cellAt (fold_left (freeSpaceStep a now) l m) px py = cellAt m px py.
Proof.
  induction l as [| j l IH]; intros m F; [done |].
  cbn [fold_left].
  pose proof (sameFrame_freeSpaceStep m a now j) as S.
  rewrite IH.
  - apply freeSpaceStep_miss. apply F. now left.
  - intros i Hi. rewrite (rayCell_sameFrame _ _ _ _ S). apply F. now right.
Qed.

(** X11. The integration of a reading changes only cells on its ray: a cell
    that is neither the endpoint cell nor under one of the samples of the
    walk is exactly as before; so are the waypoints, the pose, the
    configuration and the thresholds. *)
Theorem integration_touches_ray_only `{Libm} (m : SLAMMapper) (d a : Q)
        (now px py : Z) :
  mkGridPoint px py <> endpointCell m d a ->
  (forall i, 1 <= i < steps m d -> rayCell m a i <> mkGridPoint px py) ->
  cellAt (updateOccupancyGrid m d a now) px py = cellAt m px py
  /\ sameFrame m (updateOccupancyGrid m d a now)
  /\ waypoints (updateOccupancyGrid m d a now) = waypoints m.
Proof.
  intros N F. split; [| apply sameFrame_updateOccupancyGrid].
  unfold updateOccupancyGrid. fold (endpointCell m d a).
  destruct (inBounds _ _ _) eqn:B; [| done].
  pose proof (sameFrame_updateObstacle m d a now) as S.
  pose proof S as (Ec & _).
  unfold updateFreeSpace. rewrite walk_misses.
  - unfold updateObstacle. fold (endpointCell m d a). rewrite B.
    apply cellAt_updateMapCell_ne. intros E. apply N.
    destruct (endpointCell m d a). cbn in E. now inversion E.
  - intros i Hi. rewrite (rayCell_sameFrame _ _ _ _ S). apply F.
    apply elem_of_seqZ in Hi. unfold steps, stepSize in *. rewrite Ec in Hi. lia.
Qed.

Lemma integration_touches_ray_only_witness :
  let m := updateSensors (updatePosition gridMapper 0 0 0 10) 3 0 0 0 in
  cellAt (updateOccupancyGrid (H := seriesLibm) m 3 0 11) 6 6 = cellAt m 6 6
  /\ sameFrame m (updateOccupancyGrid (H := seriesLibm) m 3 0 11)
  /\ waypoints (updateOccupancyGrid (H := seriesLibm) m 3 0 11) = waypoints m.
Proof.
  apply (integration_touches_ray_only (H := seriesLibm)
           (updateSensors (updatePosition gridMapper 0 0 0 10) 3 0 0 0) 3 0 11 6 6).
  - discriminate.
  - intros i Hi.
    assert (S : steps (updateSensors (updatePosition gridMapper 0 0 0 10) 3 0 0 0) 3
                = 6) by reflexivity.
    rewrite S in Hi.
    assert (E : i = 1 \/ i = 2 \/ i = 3 \/ i = 4 \/ i = 5) by lia.
    destruct E as [-> | [-> | [-> | [-> | ->]]]]; vm_compute; discriminate.
Defined.



(** *** What holds of every cell *)

Lemma cellInvariant_emptyCell : cellInvariant emptyCell.
Proof. unfold cellInvariant. cbn. repeat split; intros; (done || lra). Qed.

Lemma cellInvariant_visit (c : MapCell) (now : Z) :
  cellInvariant c -> cellInvariant (mkCell (type c) (confidence c) now true).
Proof.
  intros (L & U & Ob & Nz & Uk & _). unfold cellInvariant. cbn.
  repeat split; auto. discriminate.
Qed.

Lemma cellInvariant_updateCell (c : MapCell) (ty : MapCellType) (conf : Q)
      (now : Z) :
  appliedUpdate ty conf ->
  cellInvariant c ->
  cellInvariant (updateCell (7 # 10) (3 # 10) c ty conf now).
Proof.
  intros A (L & U & Ob & Nz & Uk & _).
  destruct A as [[-> ->] | [[-> ->] | [[-> ->] | [-> ->]]]];
    unfold cellInvariant, updateCell; cbn [type confidence visited timestamp].
  - destruct (type c) eqn:T; cbn [MapCellType_eqb];
      try (destruct (Qltb_spec (7 # 10) (max (confidence c) (8 # 10))) as [Q1 | Q1];
           [| exfalso; apply Q1;
              apply Qlt_le_trans with (8 # 10)%Q; [reflexivity | apply max_ub_r]];
           pose proof (max_ub_r (confidence c) (8 # 10));
           pose proof (max_lub (confidence c) (8 # 10) 1 U ltac:(discriminate));
           repeat split; intros; try discriminate; try done; lra).
    specialize (Nz ltac:(discriminate)).
    unfold Qdiv. change (/ 2)%Q with (1 # 2)%Q.
    destruct (Qltb_spec (7 # 10) ((confidence c + (8 # 10)) * (1 # 2))) as [Q1 | Q1];
      repeat split; intros; try discriminate; try done; lra.
  - destruct (type c) eqn:T; cbn [MapCellType_eqb];
      try (destruct (Qltb_spec (3 # 10) (max (confidence c) (6 # 10))) as [Q1 | Q1];
           [| exfalso; apply Q1;
              apply Qlt_le_trans with (6 # 10)%Q; [reflexivity | apply max_ub_r]];
           pose proof (max_ub_r (confidence c) (6 # 10));
           pose proof (max_lub (confidence c) (6 # 10) 1 U ltac:(discriminate));
           repeat split; intros; try discriminate; try done; lra).
    specialize (Ob eq_refl).
    unfold min.
    destruct (Qltb_spec (confidence c) (1 - (6 # 10))) as [Q2 | Q2]; [lra |].
    destruct (Qltb_spec (3 # 10) (1 - (6 # 10))) as [Q1 | Q1]; [| lra].
    repeat split; intros; try discriminate; try done; lra.
  - repeat split; intros; try discriminate; try done; lra.
  - repeat split; intros; try discriminate; try done; lra.
Qed.

Lemma cellInvariant_applyOp `{Libm} (m : SLAMMapper) (op : MapOp) (now : Z) :
  defaultThresholds m ->
  cellwise (fun a b => cellInvariant a -> cellInvariant b) m (applyOp m op now).
Proof.
  intros D.
  apply (cellwise_applyOp (fun a b => cellInvariant a -> cellInvariant b)
           (fun occ free => occ = (7 # 10)%Q /\ free = (3 # 10)%Q)); try done.
  - intros a b c0 H1 H2 Ha. auto.
  - intros occ free c0 ty conf t [-> ->] A. now apply cellInvariant_updateCell.
  - intros c0 t. apply cellInvariant_visit.
Qed.

(** Thresholds as constructed, every in-bounds cell allocated and within the
    invariant. *)
Lemma reachable_grid `{Libm} (m : SLAMMapper) :
  reachable m ->
  defaultThresholds m
  /\ forall px py, inBounds (config m) px py = true ->
       exists c, cellAt m px py = Some c /\ cellInvariant c.
Proof.
  assert (Fresh : forall (m0 : SLAMMapper) px py,
             inBounds (config m0) px py = true ->
             readCell (replicate (Z.to_nat (mapHeight (config m0)))
                         (replicate (Z.to_nat (mapWidth (config m0))) emptyCell))
                      px py = Some emptyCell).
  { intros m0 px py B. apply inBounds_spec in B. unfold readCell.
    rewrite lookup_replicate_2 by lia. apply lookup_replicate_2. lia. }
  assert (Step : forall m op now,
             (defaultThresholds m
              /\ forall px py, inBounds (config m) px py = true ->
                   exists c, cellAt m px py = Some c /\ cellInvariant c) ->
             defaultThresholds (applyOp m op now)
             /\ forall px py, inBounds (config (applyOp m op now)) px py = true ->
                  exists c, cellAt (applyOp m op now) px py = Some c
                            /\ cellInvariant c).
  { intros m0 op now [D I].
    destruct (cellInvariant_applyOp m0 op now D) as [(E0 & E1 & E2 & _) K].
    split; [destruct D; split; congruence |].
    intros px py B. rewrite E0 in B.
    destruct (I _ _ B) as (c & C & Inv).
    destruct (K _ _ _ C) as (c' & C' & Imp). eauto. }
  induction 1 as [cfg | m px py a now _ IH | m u l c r _ IH | m now _ IH
                 | m px py name now _ IH | m id _ IH | m _ IH].
  - split; [done |]. intros px py B. exists emptyCell.
    split; [| apply cellInvariant_emptyCell].
    unfold cellAt. rewrite B. apply (Fresh (initialize SLAMMapper_new cfg)), B.
  - apply (Step m (OpUpdatePosition px py a) now IH).
  - apply (Step m (OpUpdateSensors u l c r) 0 IH).
  - apply (Step m OpProcessSensorData now IH).
  - apply (Step m (OpAddWaypoint px py name) now IH).
  - apply (Step m (OpRemoveWaypoint id) 0 IH).
  - unfold clearMap. destruct (negb (mapInitialized m)); [exact IH |].
    destruct IH as [D _]. split; [exact D |].
    intros px py B. exists emptyCell.
    split; [| apply cellInvariant_emptyCell].
    unfold cellAt. rewrite B. apply (Fresh m), B.
Qed.

(** X14. The saved document omits nothing but initial cells: in a state
    reached without loading a file, a cell of the grid either has its entry
    in the cell list of [generateMapXML], or it is the initial cell and the
    list has no entry at its coordinates. *)
Theorem omitted_cells_are_initial `{Libm} (m : SLAMMapper) (px py : Z)
        (c : MapCell) :
  reachable m ->
  cellAt m px py = Some c ->
  In (cellEntry px py c) (cellEntries m)
  \/ (c = emptyCell
      /\ forall e, In e (cellEntries m) -> ~ (ce_x e = px /\ ce_y e = py)).
Proof.
  intros Re C.
  pose proof (cellAt_inBounds _ _ _ _ C) as B.
  pose proof C as Rd. unfold cellAt in Rd. rewrite B in Rd.
  destruct (listed c) eqn:Li.
  - left. apply In_cellEntries. exists px, py, c. auto.
  - right. split.
    + destruct (reachable_grid m Re) as [_ I].
      destruct (I _ _ B) as (c' & C' & Inv).
      assert (c' = c) as -> by congruence.
      destruct Inv as (_ & _ & _ & _ & _ & E).
      unfold listed in Li. apply orb_false_iff in Li as [Ty V].
      apply E; [| exact V]. now destruct (type c).
    + intros e I [Ex Ey].
      apply In_cellEntries in I as (qx & qy & c' & _ & R & Li' & ->).
      cbn [cellEntry ce_x ce_y] in Ex, Ey. subst qx qy.
      assert (c' = c) as -> by congruence. congruence.
Qed.

Lemma omitted_cells_are_initial_witness :
  In (cellEntry 5 5 (mkCell FREE 1 20 true))
     (cellEntries (sense (H := seriesLibm) gridMapper 0 0 0 3 0 0 0 20))
  \/ (mkCell FREE 1 20 true = emptyCell
      /\ forall e,
           In e (cellEntries (sense (H := seriesLibm) gridMapper 0 0 0 3 0 0 0 20)) ->
           ~ (ce_x e = 5 /\ ce_y e = 5)).
Proof.
  apply (omitted_cells_are_initial (H := seriesLibm)
           (sense (H := seriesLibm) gridMapper 0 0 0 3 0 0 0 20) 5 5).
  - unfold sense.
    apply reach_processSensorData, reach_updateSensors, reach_updatePosition.
    exact (reach_initialize gridConfig).
  - vm_compute. reflexivity.
Defined.

End MapperFacts.

(** ** The macros *)

Module MacroFacts.

Import Arduino ArduinoFacts.

Lemma constrain_range (amt low high : Z) :
  low <= high -> low <= constrain amt low high <= high.
Proof.
  intros L. unfold constrain.
  destruct (amt <? low) eqn:A; [lia |].
  destruct (amt >? high) eqn:B; lia.
Qed.

Lemma constrain_id (amt low high : Z) :
  low <= amt <= high -> constrain amt low high = amt.
Proof.
  intros L. unfold constrain.
  destruct (amt <? low) eqn:A; [lia |].
  destruct (amt >? high) eqn:B; lia.
Qed.

Lemma constrainQ_range (amt low high : Q) :
  (low <= high)%Q -> (low <= constrainQ amt low high)%Q /\ (constrainQ amt low high <= high)%Q.
Proof.
  intros L. unfold constrainQ.
  destruct (Qltb_spec amt low) as [A | A]; [split; lra |].
  destruct (Qltb_spec high amt) as [B | B]; split; lra.
Qed.

End MacroFacts.

(** ** modes/autonomous_mode: the public functions *)

Module ModeFacts.

Import Arduino ArduinoFacts Nav NavFacts MacroFacts.

(** *** Motor calls made between two states *)

Lemma drives_refl (m : AutonomousMode) : drives m m [].
Proof. split; [now repeat split | now rewrite app_nil_r]. Qed.

Lemma drives_trans (a b c : AutonomousMode) (l l' : list Event) :
  drives a b l -> drives b c l' -> drives a c (l ++ l').
Proof.
  intros [(A1 & A2 & A3 & A4 & A5) E1] [(B1 & B2 & B3 & B4 & B5) E2]. split.
  - repeat split; congruence.
  - now rewrite E2, E1, app_assoc.
Qed.

Lemma drives_quiet_l (a b c : AutonomousMode) (l : list Event) :
  drives a b [] -> drives b c l -> drives a c l.
Proof. intros D1 D2. apply (drives_trans a b c [] l D1 D2). Qed.

Lemma drives_quiet_r (a b c : AutonomousMode) (l : list Event) :
  drives a b l -> drives b c [] -> drives a c l.
Proof.
  intros D1 D2. pose proof (drives_trans a b c l [] D1 D2) as D.
  now rewrite app_nil_r in D.
Qed.

Lemma drives_same (m m' : AutonomousMode) :
  sameSpeeds m m' -> events m' = events m -> drives m m' [].
Proof. intros S E. split; [exact S |]. now rewrite E, app_nil_r. Qed.

Lemma drives_emit (m : AutonomousMode) (e : Event) :
  drives m (emit m e) (if isDirective e then [e] else []).
Proof.
  split; [now repeat split |]. cbn [events emit]. unfold directives.
  rewrite List.filter_app. cbn [List.filter]. now destruct (isDirective e).
Qed.

Lemma directive_sameSpeeds (m m' : AutonomousMode) (st : NavigationState) :
  sameSpeeds m m' -> directive m' st = directive m st.
Proof.
  intros (_ & B & T & A & R). unfold directive. now rewrite B, T, A, R.
Qed.

Lemma isDirective_directive (m : AutonomousMode) (st : NavigationState) :
  isDirective (directive m st) = true.
Proof. now destruct st. Qed.

Lemma drives_setState (m : AutonomousMode) (st : NavigationState) (now : Z) :
  drives m (setState m st now) [].
Proof.
  unfold setState. destruct (NavigationState_eqb st (currentState m));
    [apply drives_refl |].
  apply (drives_quiet_l _ (enter_state m st now)); [now apply drives_same |].
  apply (drives_emit (enter_state m st now) (logNavigationEvent _)).
Qed.

Lemma drives_updateSensors (m : AutonomousMode) (s : Sensors) (now : Z) :
  drives m (updateSensors m s now) [].
Proof.
  unfold updateSensors. destruct (negb (sensors m)); [apply drives_refl |].
  now apply drives_same.
Qed.

Lemma drives_checkSafety (m : AutonomousMode) (now : Z) :
  drives m (checkSafety m now) [].
Proof.
  unfold checkSafety. destruct (_ <? _); [apply drives_refl |].
  set (m1 := if _ && _ then _ else m).
  assert (D : drives m m1 []).
  { subst m1. destruct (_ && _); [| apply drives_refl].
    destruct (_ >? _); [| apply drives_refl].
    apply (drives_quiet_l _ (setState m NAV_STOP now)); [apply drives_setState |].
    set (a := setState m NAV_STOP now).
    apply (drives_quiet_l _ (if audio a then emit a (playSystemSound SOUND_SIREN) else a)).
    - destruct (audio a); [| apply drives_refl].
      apply (drives_emit a (playSystemSound SOUND_SIREN)).
    - apply (drives_emit _ (logNavigationEvent _)). }
  apply (drives_quiet_l _ m1 _ _ D). now apply drives_same.
Qed.

Lemma drives_avoidObstacles (m : AutonomousMode) (s : Sensors) (now : Z) :
  drives m (avoidObstacles m s now) [].
Proof.
  unfold avoidObstacles.
  repeat match goal with
         | |- drives _ (if ?b then _ else _) _ => destruct b
         end; try apply drives_setState; apply drives_refl.
Qed.

Lemma drives_followLine (m : AutonomousMode) (s : Sensors) (now : Z) :
  drives m (followLine m s now) [].
Proof.
  unfold followLine. destruct (negb (lineFollowingEnabled m)); [apply drives_refl |].
  set (p := if _ && _ && _ then _ else _).
  apply (drives_quiet_l _ (set_line m p)); [now apply drives_same |].
  destruct (p =? 0); [apply drives_setState |].
  destruct (p <? 0); apply drives_setState.
Qed.

Lemma drives_planPath (m : AutonomousMode) (s : Sensors) (now : Z) :
  drives m (planPath m s now) [].
Proof.
  unfold planPath. destruct (obstacleDetected m); [apply drives_avoidObstacles |].
  destruct (lineFollowingEnabled m); [apply drives_followLine | apply drives_setState].
Qed.

Lemma drives_updateState (m : AutonomousMode) (now : Z) :
  drives m (updateState m now) [].
Proof.
  unfold updateState. destruct (isStateTimeout m now); [| apply drives_refl].
  destruct (currentState m); try apply drives_refl; apply drives_setState.
Qed.

Lemma drives_executeState (m : AutonomousMode) :
  drives m (executeState m)
         (if motors m then [directive m (currentState m)] else []).
Proof.
  unfold executeState. destruct (motors m); cbn [negb]; [| apply drives_refl].
  pose proof (drives_emit m (directive m (currentState m))) as D.
  now rewrite isDirective_directive in D.
Qed.

Lemma currentState_executeState (m : AutonomousMode) :
  currentState (executeState m) = currentState m.
Proof. unfold executeState. now destruct (motors m). Qed.

Lemma drives_navigate (m : AutonomousMode) (s : Sensors) (now : Z) :
  drives m (navigate m s now)
         (if motors m then [directive m (currentState (navigate m s now))] else []).
Proof.
  unfold navigate.
  set (m1 := processObstacles m s now).
  set (m2 := if lineFollowingEnabled m1 then processLineFollowing m1 s now else m1).
  assert (D1 : drives m m1 []).
  { subst m1. unfold processObstacles.
    destruct (obstacleDetected m); [apply drives_avoidObstacles | apply drives_refl]. }
  assert (D2 : drives m m2 []).
  { apply (drives_quiet_l _ m1 _ _ D1). subst m2.
    destruct (lineFollowingEnabled m1); [| apply drives_refl].
    unfold processLineFollowing.
    destruct (negb (obstacleDetected m1)); [apply drives_followLine | apply drives_refl]. }
  rewrite currentState_executeState.
  pose proof (drives_executeState m2) as D3.
  destruct D2 as [S2 E2].
  rewrite (directive_sameSpeeds m m2 _ S2) in D3.
  destruct S2 as (M2 & S2). rewrite M2 in D3.
  apply (drives_quiet_l _ m2 _ _); [| exact D3].
  split; [now split | exact E2].
Qed.

Lemma drives_beforeUpdateState (m : AutonomousMode) (s : Sensors) (now : Z) :
  drives m (beforeUpdateState m s now)
         (if motors m
          then [directive m (currentState (beforeUpdateState m s now))] else []).
Proof.
  unfold beforeUpdateState.
  set (m1 := updateSensors m s now).
  set (m2 := if safetyEnabled m1 then checkSafety m1 now else m1).
  assert (D2 : drives m m2 []).
  { apply (drives_quiet_l _ m1); [apply drives_updateSensors |]. subst m2.
    destruct (safetyEnabled m1); [apply drives_checkSafety | apply drives_refl]. }
  pose proof (drives_navigate m2 s now) as D3.
  pose proof D2 as [S2 _].
  rewrite (directive_sameSpeeds m m2 _ S2) in D3.
  destruct S2 as (M2 & _). rewrite M2 in D3.
  apply (drives_quiet_l _ m2 _ _ D2 D3).
Qed.

Lemma drives_update_running (m : AutonomousMode) (s : Sensors) (now : Z) :
  running m now ->
  drives m (update m s now)
         (if motors m
          then [directive m (currentState (beforeUpdateState m s now))] else []).
Proof.
  intros (A & P & G). rewrite (update_running _ _ _ A P G).
  apply (drives_quiet_r _ (beforeUpdateState m s now));
    [apply drives_beforeUpdateState |].
  apply (drives_quiet_l _ (updateState (beforeUpdateState m s now) now));
    [apply drives_updateState | now apply drives_same].
Qed.

Lemma update_gated (m : AutonomousMode) (s : Sensors) (now : Z) :
  ~ running m now -> update m s now = m.
Proof.
  intros N. unfold update.
  destruct (isActive m) eqn:A, (isPaused m) eqn:P; cbn [negb orb]; try done.
  destruct (_ <? _) eqn:G; [done |]. exfalso. apply N. now repeat split.
Qed.

Lemma running_dec (m : AutonomousMode) (now : Z) :
  running m now \/ ~ running m now.
Proof.
  unfold running.
  destruct (isActive m), (isPaused m), (_ <? _);
    (left; now repeat split) || (right; intros (? & ? & ?); discriminate).
Qed.

(** *** The life cycle *)

Lemma drives_start (m : AutonomousMode) (now : Z) : drives m (start m now) [].
Proof.
  unfold start. destruct (isActive m); [apply drives_refl |]. cbv zeta.
  set (m3 := set_lastUpdate _ _).
  assert (D3 : drives m m3 []) by now apply drives_same.
  apply (drives_quiet_l _ (if audio m3 then emit m3 (playSystemSound SOUND_ALERT) else m3)).
  - apply (drives_quiet_l _ m3 _ _ D3).
    destruct (audio m3); [| apply drives_refl].
    apply (drives_emit m3 (playSystemSound SOUND_ALERT)).
  - apply (drives_emit _ (logNavigationEvent _)).
Qed.

Lemma drives_stop (m : AutonomousMode) :
  drives m (stop m) (if isActive m && motors m then [motorsStop] else []).
Proof.
  unfold stop. destruct (isActive m); cbn [negb andb]; [| apply drives_refl].
  cbv zeta.
  set (m1 := set_currentState _ _).
  assert (D1 : drives m m1 []) by now apply drives_same.
  set (m2 := if motors m1 then emit m1 motorsStop else m1).
  assert (D2 : drives m m2 (if motors m then [motorsStop] else [])).
  { apply (drives_quiet_l _ m1 _ _ D1). subst m2.
    change (motors m1) with (motors m).
    destruct (motors m); [apply (drives_emit m1 motorsStop) | apply drives_refl]. }
  apply (drives_quiet_r _ m2 _ _ D2).
  apply (drives_quiet_l _ (if audio m2 then emit m2 (playSystemSound SOUND_POWER_OFF) else m2)).
  - destruct (audio m2); [| apply drives_refl].
    apply (drives_emit m2 (playSystemSound SOUND_POWER_OFF)).
  - apply (drives_emit _ (logNavigationEvent _)).
Qed.

Lemma drives_pause (m : AutonomousMode) :
  drives m (pause m)
         (if isActive m && negb (isPaused m) && motors m then [motorsStop] else []).
Proof.
  unfold pause.
  destruct (isActive m) eqn:A, (isPaused m) eqn:P; cbn [negb andb orb];
    try apply drives_refl.
  cbv zeta.
  set (m1 := set_currentState _ _).
  assert (D1 : drives m m1 []) by now apply drives_same.
  set (m2 := if motors m1 then emit m1 motorsStop else m1).
  assert (D2 : drives m m2 (if motors m then [motorsStop] else [])).
  { apply (drives_quiet_l _ m1 _ _ D1). subst m2.
    change (motors m1) with (motors m).
    destruct (motors m); [apply (drives_emit m1 motorsStop) | apply drives_refl]. }
  apply (drives_quiet_r _ m2 _ _ D2).
  apply (drives_emit _ (logNavigationEvent _)).
Qed.

Lemma drives_resume (m : AutonomousMode) (now : Z) : drives m (resume m now) [].
Proof.
  unfold resume. destruct (_ || _); [apply drives_refl |]. cbv zeta.
  set (m2 := set_stateStartTime _ _).
  apply (drives_quiet_l _ m2); [now apply drives_same |].
  apply (drives_emit _ (logNavigationEvent _)).
Qed.

Lemma drives_reset (m : AutonomousMode) :
  drives m (reset m) (if isActive m && motors m then [motorsStop] else []).
Proof.
  apply (drives_quiet_r _ (stop m)); [apply drives_stop |].
  now apply drives_same.
Qed.

Lemma ticks_halted (s : Sensors) (times : list Z) :
  forall m : AutonomousMode,
    isActive m = false \/ isPaused m = true -> ticks m s times = m.
Proof.
  unfold ticks. induction times as [| t times IH]; intros m Hm; [done |].
  cbn [fold_left].
  assert (E : update m s t = m).
  { unfold update. destruct Hm as [-> | ->]; [done |]. now rewrite orb_true_r. }
  rewrite E. now apply IH.
Qed.

(** X15. A stopped, paused or reset mode stays halted: [stop], [pause] and
    [reset] leave a state on which any number of calls of [update] change
    nothing and reach no collaborator; [stop] and [reset] leave the mode
    inactive. With the motors attached, the last motor call of [stop] on an
    active mode, and of [pause] on a running one, is [motors->stop()]. *)
Theorem halted_mode_is_silent (m : AutonomousMode) (s : Sensors) (times : list Z) :
  ticks (stop m) s times = stop m
  /\ ticks (pause m) s times = pause m
  /\ ticks (reset m) s times = reset m
  /\ isActive (stop m) = false
  /\ isActive (reset m) = false
  /\ (isActive m = true -> motors m = true ->
      last (directives (events (stop m))) = Some motorsStop)
  /\ (isActive m = true -> isPaused m = false -> motors m = true ->
      last (directives (events (pause m))) = Some motorsStop).
Proof.
  assert (S : isActive (stop m) = false).
  { unfold stop. destruct (isActive m) eqn:A; [| exact A]. cbn [negb].
    cbv zeta. now repeat match goal with |- context [if ?b then _ else _] => destruct b end. }
  assert (P : isActive (pause m) = false \/ isPaused (pause m) = true).
  { unfold pause. destruct (isActive m) eqn:A; [| now left].
    destruct (isPaused m) eqn:Pa; cbn [negb orb]; [now right |]. right.
    cbv zeta. now repeat match goal with |- context [if ?b then _ else _] => destruct b end. }
  split; [apply ticks_halted; now left |].
  split; [now apply ticks_halted |].
  split; [apply ticks_halted; now left |].
  split; [exact S |]. split; [exact S |]. split.
  - intros A M. destruct (drives_stop m) as [_ E]. rewrite E, A, M. cbn [andb].
    apply last_snoc.
  - intros A Pa M. destruct (drives_pause m) as [_ E]. rewrite E, A, Pa, M.
    cbn [andb negb]. apply last_snoc.
Qed.

(** *** The commanded speeds *)

Lemma speedsInRange_sameSpeeds (m m' : AutonomousMode) :
  sameSpeeds m m' -> speedsInRange m -> speedsInRange m'.
Proof. intros (_ & B & T & A & R). unfold speedsInRange. now rewrite B, T, A, R. Qed.

Lemma commandedSpeed_directive (m : AutonomousMode) (st : NavigationState) :
  speedsInRange m ->
  match commandedSpeed (directive m st) with
  | Some v => 0 <= v <= 255
  | None => True
  end.
Proof. intros (B & T & A & R). now destruct st. Qed.

Lemma call_steps (m : AutonomousMode) (c : Call) (now : Z) :
  speedsInRange m ->
  speedsInRange (call m c now)
  /\ exists l,
       directives (events (call m c now)) = directives (events m) ++ l
       /\ Forall (fun e => exists st, e = directive m st) l.
Proof.
  intros Ok.
  assert (Dr : forall m' l,
             drives m m' l -> Forall (fun e => exists st, e = directive m st) l ->
             speedsInRange m'
             /\ exists l,
                  directives (events m') = directives (events m) ++ l
                  /\ Forall (fun e => exists st, e = directive m st) l).
  { intros m' l [S E] F. split; [now apply (speedsInRange_sameSpeeds m) | eauto]. }
  assert (One : forall (b : bool) st,
             Forall (fun e => exists st, e = directive m st)
                    (if b then [directive m st] else [])).
  { intros [] st; repeat constructor. now exists st. }
  assert (Set_ : forall b t a r,
             0 <= b <= 255 -> 0 <= t <= 255 -> 0 <= a <= 255 -> 0 <= r <= 255 ->
             speedsInRange (set_speeds m b t a r)
             /\ exists l,
                  directives (events (set_speeds m b t a r))
                  = directives (events m) ++ l
                  /\ Forall (fun e => exists st, e = directive m st) l).
  { intros b t a r Hb Ht Ha Hr. split; [now repeat split |].
    exists []. split; [cbn [events set_speeds]; now rewrite app_nil_r | constructor]. }
  destruct Ok as (B & T & A & R).
  assert (Ok : speedsInRange m) by now repeat split.
  destruct c; cbn [call].
  - apply (Dr _ _ (drives_start m now)). constructor.
  - apply (Dr _ _ (drives_stop m)). apply (One _ NAV_STOP).
  - apply (Dr _ _ (drives_pause m)). apply (One _ NAV_STOP).
  - apply (Dr _ _ (drives_resume m now)). constructor.
  - apply (Dr _ []); [now apply drives_same | constructor].
  - apply (Dr _ []); [now apply drives_same | constructor].
  - apply Set_; try done. apply constrain_range; lia.
  - apply Set_; try done. apply constrain_range; lia.
  - apply Set_; try done. apply constrain_range; lia.
  - apply Set_; try done. apply constrain_range; lia.
  - destruct (running_dec m now) as [Ru | Ru].
    + apply (Dr _ _ (drives_update_running m s now Ru)). apply One.
    + rewrite (update_gated _ _ _ Ru). apply (Dr _ _ (drives_refl m)). constructor.
  - apply (Dr _ _ (drives_navigate m s now)). apply One.
  - apply (Dr _ _ (drives_avoidObstacles m s now)). constructor.
  - apply (Dr _ _ (drives_followLine m s now)). constructor.
  - apply (Dr _ _ (drives_planPath m s now)). constructor.
  - apply (Dr _ _ (drives_setState m state now)). constructor.
  - apply (Dr _ _ (drives_updateState m now)). constructor.
  - apply (Dr _ _ (drives_reset m)). apply (One _ NAV_STOP).
Qed.

Lemma calls_in_range (l : list (Call * Z)) :
  forall m : AutonomousMode,
    speedsInRange m ->
    Forall (fun e => match commandedSpeed e with
                     | Some v => 0 <= v <= 255
                     | None => True
                     end) (directives (events m)) ->
    speedsInRange (calls m l)
    /\ Forall (fun e => match commandedSpeed e with
                        | Some v => 0 <= v <= 255
                        | None => True
                        end) (directives (events (calls m l))).
Proof.
  unfold calls. induction l as [| [c now] l IH]; intros m Ok F; [done |].
  cbn [fold_left fst snd].
  destruct (call_steps m c now Ok) as (Ok' & k & E & Fk).
  apply IH; [exact Ok' |]. rewrite E. apply Forall_app. split; [exact F |].
  eapply Forall_impl; [exact Fk |]. cbn beta.
  intros e [st ->]. now apply commandedSpeed_directive.
Qed.

(** X16. The mode never commands a speed outside 0..255: from construction
    and [begin], through any run of calls of the public functions (the four
    speed setters with any argument included), the four speeds stay within
    0..255 and every [moveForward], [moveBackward], [turnLeft] and
    [turnRight] call made on the motors carries a speed within 0..255. *)
Theorem commanded_speeds_in_range (irSensors ultrasonic mo au : bool)
        (l : list (Call * Z)) :
  speedsInRange (calls (begin AutonomousMode_new irSensors ultrasonic mo au) l)
  /\ Forall (fun e => match commandedSpeed e with
                      | Some v => 0 <= v <= 255
                      | None => True
                      end)
            (events (calls (begin AutonomousMode_new irSensors ultrasonic mo au) l)).
Proof.
  destruct (calls_in_range l (begin AutonomousMode_new irSensors ultrasonic mo au))
    as [Ok F].
  - unfold speedsInRange. cbn. lia.
  - constructor.
  - split; [exact Ok |].
    apply List.Forall_forall. intros e I.
    destruct (commandedSpeed e) as [v |] eqn:C; [| done].
    rewrite List.Forall_forall in F. specialize (F e).
    rewrite C in F. apply F. unfold directives. apply List.filter_In.
    split; [exact I |]. now destruct e.
Qed.

(** *** One tick *)

Lemma updateState_keeps (m : AutonomousMode) (now : Z) :
  avoiding (currentState m) = false -> updateState m now = m.
Proof.
  intros V. unfold updateState. destruct (isStateTimeout m now); [| done].
  now destruct (currentState m).
Qed.

Lemma currentState_updateState (m : AutonomousMode) (now : Z) :
  currentState (updateState m now)
  = if avoiding (currentState m) && isStateTimeout m now
    then NAV_FORWARD else currentState m.
Proof.
  unfold updateState. destruct (isStateTimeout m now); [| now rewrite andb_false_r].
  rewrite andb_true_r.
  destruct (currentState m) eqn:E; cbn [avoiding]; try done;
    apply currentState_setState.
Qed.

Lemma beforeUpdateState_rangerOnly (m : AutonomousMode) (s : Sensors) (now : Z) :
  sensors m = true ->
  rangerOnly s ->
  currentState (beforeUpdateState m s now)
  = (if watchdogFires m now then NAV_STOP else currentState m)
  /\ (watchdogFires m now = false ->
      stateStartTime (beforeUpdateState m s now) = stateStartTime m
      /\ stateTimeout (beforeUpdateState m s now) = stateTimeout m)
  /\ (watchdogFires m now = true -> audio m = true ->
      In (playSystemSound SOUND_SIREN) (events (beforeUpdateState m s now))).
Proof.
  intros Se (L & C & R & D). unfold beforeUpdateState.
  set (m1 := updateSensors m s now).
  assert (E1 : m1 = set_obstacle m true (distance s) (obstacleSince m now)).
  { subst m1. unfold updateSensors, obstacleSince. now rewrite Se, L, C, R, D. }
  set (m2 := if safetyEnabled m1 then checkSafety m1 now else m1).
  assert (N : navigate m2 s now = executeState m2 \/ obstacleDetected m2 = false).
  { unfold navigate, processObstacles, processLineFollowing, avoidObstacles.
    rewrite L, C, R. destruct (obstacleDetected m2) eqn:O; [left | now right].
    cbn [negb]. rewrite O. cbn [negb]. now destruct (lineFollowingEnabled m2). }
  assert (F2 : obstacleDetected m2 = true
               /\ currentState m2 = (if watchdogFires m now then NAV_STOP else currentState m)
               /\ (watchdogFires m now = false ->
                   stateStartTime m2 = stateStartTime m
                   /\ stateTimeout m2 = stateTimeout m)
               /\ (watchdogFires m now = true -> audio m = true ->
                   In (playSystemSound SOUND_SIREN) (events m2))).
  { subst m2. rewrite E1. cbn [safetyEnabled set_obstacle]. unfold watchdogFires.
    destruct (safetyEnabled m); cbn [andb]; [| now cbn].
    unfold checkSafety.
    cbn [obstacleDetected obstacleStartTime maxObstacleTime set_obstacle andb
         lastSafetyCheck safetyCheckInterval].
    destruct (u32 (now - lastSafetyCheck m) <? u32 (safetyCheckInterval m));
      cbn [negb andb]; [now cbn |].
    destruct (0 <? obstacleSince m now); cbn [andb]; [| now cbn].
    destruct (u32 (now - obstacleSince m now) >? u32 (maxObstacleTime m));
      [| now cbn].
    set (a := setState _ NAV_STOP now).
    pose proof (setState_frame (set_obstacle m true (distance s) (obstacleSince m now))
                  NAV_STOP now) as (Eo & _).
    pose proof (currentState_setState
                  (set_obstacle m true (distance s) (obstacleSince m now))
                  NAV_STOP now) as Ec.
    fold a in Eo, Ec.
    assert (Au : audio a = audio m).
    { subst a. unfold setState. now destruct (NavigationState_eqb _ _). }
    rewrite Au. split; [| split; [| split; [discriminate |]]].
    - destruct (audio m); cbn; exact Eo.
    - destruct (audio m); cbn; exact Ec.
    - intros _ ->. cbn. apply in_or_app. left. apply in_or_app. right. now left. }
  destruct F2 as (O2 & C2 & T2 & S2).
  destruct N as [N | N]; [| congruence].
  rewrite N, currentState_executeState.
  split; [exact C2 |]. split.
  - intros W. destruct (T2 W) as [T3 T4]. rewrite <- T3, <- T4.
    unfold executeState. now destruct (motors m2).
  - intros W Au. specialize (S2 W Au). unfold executeState.
    destruct (motors m2); cbn [negb]; [| exact S2].
    cbn [events emit]. apply in_or_app. now left.
Qed.

Lemma update_clear_way (m : AutonomousMode) (s : Sensors) (now : Z) :
  running m now ->
  sensors m = true ->
  lineFollowingEnabled m = true ->
  clearWay s ->
  currentState (update m s now)
  = (if lastLinePosition m <? 0 then NAV_TURN_LEFT else NAV_TURN_RIGHT)
  /\ lastLinePosition (update m s now) = (if lastLinePosition m <? 0 then -2 else 2).
Proof.
  intros (A & P & G) Se LF (L & C & R & D).
  rewrite (update_running _ _ _ A P G).
  cbn [set_lastUpdate currentState lastLinePosition].
  set (b := beforeUpdateState m s now).
  assert (B : currentState b
              = (if lastLinePosition m <? 0 then NAV_TURN_LEFT else NAV_TURN_RIGHT)
              /\ lastLinePosition b = (if lastLinePosition m <? 0 then -2 else 2)).
  { subst b. unfold beforeUpdateState.
    set (m1 := updateSensors m s now).
    assert (E1 : m1 = set_obstacle m false (distance s) 0).
    { subst m1. unfold updateSensors. now rewrite Se, L, C, R, D. }
    set (m2 := if safetyEnabled m1 then checkSafety m1 now else m1).
    assert (F2 : obstacleDetected m2 = false /\ lineFollowingEnabled m2 = true
                 /\ lastLinePosition m2 = lastLinePosition m).
    { subst m2. rewrite E1. cbn [safetyEnabled set_obstacle].
      destruct (safetyEnabled m); [| now cbn].
      unfold checkSafety. cbn [obstacleDetected set_obstacle andb lastSafetyCheck safetyCheckInterval].
      destruct (u32 (now - lastSafetyCheck m) <? u32 (safetyCheckInterval m)); cbn; auto. }
    destruct F2 as (O2 & LF2 & LP2).
    unfold navigate, processObstacles. rewrite O2, LF2.
    unfold processLineFollowing. rewrite O2. cbn [negb].
    rewrite currentState_executeState.
    unfold followLine. rewrite LF2, L, C, R, LP2. cbn [negb andb].
    assert (K : forall a st, lastLinePosition (setState a st now) = lastLinePosition a).
    { intros a st. unfold setState. now destruct (NavigationState_eqb _ _). }
    assert (X : forall a, lastLinePosition (executeState a) = lastLinePosition a).
    { intros a. unfold executeState. now destruct (motors a). }
    rewrite X.
    destruct (lastLinePosition m <? 0); cbn [Z.eqb Z.ltb Z.compare];
      (split; [apply currentState_setState | now rewrite K]). }
  destruct B as [B1 B2].
  rewrite updateState_keeps; [done |]. rewrite B1. now destruct (lastLinePosition m <? 0).
Qed.

(** X17. A tick that runs with the sensors and the motors attached makes
    exactly one motor call, that of the state its navigation step leaves.
    The timeout recovery comes after the call: the tick that recovers to
    Forward has still driven the avoidance manoeuvre, and is the only case
    in which the state a tick ends in differs from the one it drove.
    (Without the sensors [followLine] and [avoidObstacles] would read
    through the null [irSensors]; nothing is stated of such a tick.) *)
Theorem one_motor_call_per_tick (m : AutonomousMode) (s : Sensors) (now : Z) :
  running m now ->
  sensors m = true ->
  motors m = true ->
  directives (events (update m s now))
  = directives (events m) ++ [directive m (currentState (beforeUpdateState m s now))]
  /\ (currentState (update m s now) = currentState (beforeUpdateState m s now)
      \/ (currentState (update m s now) = NAV_FORWARD
          /\ avoiding (currentState (beforeUpdateState m s now)) = true
          /\ isStateTimeout (beforeUpdateState m s now) now = true)).
Proof.
  intros Ru _ M. pose proof (drives_update_running m s now Ru) as [_ E].
  rewrite M in E. split; [exact E |].
  destruct Ru as (A & P & G). rewrite (update_running _ _ _ A P G).
  cbn [set_lastUpdate currentState]. rewrite currentState_updateState.
  destruct (avoiding _) eqn:V; [| now left].
  destruct (isStateTimeout _ _) eqn:T; [now right | now left].
Qed.

Lemma one_motor_call_per_tick_witness :
  directives (events (update rover (mkSensors false true false 10) 1100))
  = directives (events rover)
    ++ [directive rover
          (currentState (beforeUpdateState rover (mkSensors false true false 10) 1100))]
  /\ (currentState (update rover (mkSensors false true false 10) 1100)
      = currentState (beforeUpdateState rover (mkSensors false true false 10) 1100)
      \/ (currentState (update rover (mkSensors false true false 10) 1100) = NAV_FORWARD
          /\ avoiding (currentState
                         (beforeUpdateState rover (mkSensors false true false 10) 1100))
             = true
          /\ isStateTimeout (beforeUpdateState rover (mkSensors false true false 10) 1100)
                            1100 = true)).
Proof.
  apply (one_motor_call_per_tick rover (mkSensors false true false 10) 1100).
  - repeat split; reflexivity.
  - reflexivity.
  - reflexivity.
Defined.

(** X18. With the sensors attached and line following enabled (the
    default), a tick that runs with no proximity sensor triggered and the
    ranger at 20 cm or more never drives forward: line following finds no
    line and commits TurnRight, or TurnLeft when the last line position was
    negative, remembers that side, and the motor call is the turn at
    [turnSpeed]. *)
Theorem clear_way_turns (m : AutonomousMode) (s : Sensors) (now : Z) :
  running m now ->
  sensors m = true ->
  lineFollowingEnabled m = true ->
  clearWay s ->
  currentState (update m s now)
  = (if lastLinePosition m <? 0 then NAV_TURN_LEFT else NAV_TURN_RIGHT)
  /\ lastLinePosition (update m s now) = (if lastLinePosition m <? 0 then -2 else 2)
  /\ (motors m = true ->
      last (directives (events (update m s now)))
      = Some (if lastLinePosition m <? 0
              then turnLeft (turnSpeed m) else turnRight (turnSpeed m))).
Proof.
  intros Ru Se LF Cl.
  destruct (update_clear_way m s now Ru Se LF Cl) as [E1 E2].
  split; [exact E1 |]. split; [exact E2 |].
  intros M. pose proof (drives_update_running m s now Ru) as [_ E].
  rewrite M in E. rewrite E, last_snoc. f_equal.
  destruct Ru as (A & P & G). rewrite (update_running _ _ _ A P G) in E1.
  cbn [set_lastUpdate currentState] in E1.
  rewrite currentState_updateState in E1.
  destruct (avoiding (currentState (beforeUpdateState m s now))
            && isStateTimeout (beforeUpdateState m s now) now).
  - now destruct (lastLinePosition m <? 0).
  - rewrite E1. now destruct (lastLinePosition m <? 0).
Qed.

Lemma clear_way_turns_witness :
  currentState (update rover (mkSensors false false false 100) 1100)
  = (if lastLinePosition rover <? 0 then NAV_TURN_LEFT else NAV_TURN_RIGHT)
  /\ lastLinePosition (update rover (mkSensors false false false 100) 1100)
     = (if lastLinePosition rover <? 0 then -2 else 2)
  /\ (motors rover = true ->
      last (directives (events (update rover (mkSensors false false false 100) 1100)))
      = Some (if lastLinePosition rover <? 0
              then turnLeft (turnSpeed rover) else turnRight (turnSpeed rover))).
Proof.
  apply (clear_way_turns rover (mkSensors false false false 100) 1100).
  - repeat split; reflexivity.
  - reflexivity.
  - reflexivity.
  - repeat split; reflexivity.
Defined.

(** X19. With the sensors attached, a tick that runs while only the ranger
    reports the obstacle (below 20 cm, no proximity sensor triggered)
    chooses no avoidance state and skips line following: the rover keeps
    driving the state it was in, until the watchdog acts. When the watchdog
    acts (safety on, check due, obstacle older than [maxObstacleTime]) the
    tick ends in Stop, the motor call is [motors->stop()] and the siren is
    played. *)
Theorem ranger_only_obstacle (m : AutonomousMode) (s : Sensors) (now : Z) :
  running m now ->
  sensors m = true ->
  rangerOnly s ->
  currentState (update m s now)
  = (if watchdogFires m now then NAV_STOP
     else if avoiding (currentState m) && isStateTimeout m now then NAV_FORWARD
          else currentState m)
  /\ (motors m = true ->
      last (directives (events (update m s now)))
      = Some (directive m (if watchdogFires m now then NAV_STOP else currentState m)))
  /\ (watchdogFires m now = true -> audio m = true ->
      In (playSystemSound SOUND_SIREN) (events (update m s now))).
Proof.
  intros Ru Se Ro.
  destruct (beforeUpdateState_rangerOnly m s now Se Ro) as (B1 & B2 & B3).
  pose proof (drives_update_running m s now Ru) as [_ E].
  destruct Ru as (A & P & G). rewrite (update_running _ _ _ A P G).
  rewrite (update_running _ _ _ A P G) in E.
  cbn [set_lastUpdate currentState events] in *.
  split; [| split].
  - rewrite currentState_updateState, B1.
    destruct (watchdogFires m now) eqn:W; [done |].
    destruct (B2 eq_refl) as [T1 T2].
    unfold isStateTimeout. now rewrite T1, T2.
  - intros M. rewrite M, B1 in E. now rewrite E, last_snoc.
  - intros W Au. specialize (B3 W Au).
    rewrite updateState_keeps; [exact B3 |]. rewrite B1, W. reflexivity.
Qed.

Lemma ranger_only_obstacle_witness :
  watchdogFires (ticks rover (mkSensors false false false 10) (every100ms 1000 105))
                11600 = true
  /\ currentState (update (ticks rover (mkSensors false false false 10)
                                 (every100ms 1000 105))
                          (mkSensors false false false 10) 11600)
     = NAV_STOP.
Proof.
  split; [reflexivity |].
  destruct (ranger_only_obstacle
              (ticks rover (mkSensors false false false 10) (every100ms 1000 105))
              (mkSensors false false false 10) 11600) as (E & _).
  - repeat split; reflexivity.
  - reflexivity.
  - repeat split; reflexivity.
  - exact E.
Defined.

Lemma u32_elapsed (t0 e : Z) :
  0 <= t0 < 2 ^ 32 -> 0 <= e < 2 ^ 32 -> u32 (u32 (t0 + e) - t0) = e.
Proof.
  intros Ht He. unfold u32.
  rewrite Zminus_mod_idemp_l.
  replace (t0 + e - t0) with e by lia.
  now apply Z.mod_small.
Qed.

(** The timers count elapsed time modulo 2^32, so they keep working
    across the wrap of [millis()]: [e] milliseconds after a state was
    entered the state timeout has expired exactly when [e] exceeds
    [stateTimeout], and [e] milliseconds after the last tick that ran an
    active, unpaused mode runs the next tick exactly when [e] has reached
    [updateInterval], whatever the clock readings were. *)
Theorem timers_survive_wrap (m : AutonomousMode) (e : Z) :
  0 <= e < 2 ^ 32 ->
  0 <= stateStartTime m < 2 ^ 32 ->
  0 <= lastUpdate m < 2 ^ 32 ->
  0 <= stateTimeout m < 2 ^ 32 ->
  0 <= updateInterval m < 2 ^ 32 ->
  isStateTimeout m (u32 (stateStartTime m + e)) = (e >? stateTimeout m)
  /\ (running m (u32 (lastUpdate m + e))
      <-> isActive m = true /\ isPaused m = false /\ updateInterval m <= e).
Proof.
  intros He Hs Hl Ht Hu. split.
  - unfold isStateTimeout. rewrite u32_elapsed by done.
    unfold u32 at 1. now rewrite Z.mod_small.
  - unfold running. rewrite u32_elapsed by done.
    unfold u32. rewrite (Z.mod_small (updateInterval m)) by done.
    rewrite Z.ltb_ge. tauto.
Qed.

Lemma timers_survive_wrap_witness :
  isStateTimeout (setState rover NAV_BACKWARD (2 ^ 32 - 100))
                 (u32 (stateStartTime (setState rover NAV_BACKWARD (2 ^ 32 - 100)) + 3100))
  = (3100 >? stateTimeout (setState rover NAV_BACKWARD (2 ^ 32 - 100)))
  /\ (running (setState rover NAV_BACKWARD (2 ^ 32 - 100))
              (u32 (lastUpdate (setState rover NAV_BACKWARD (2 ^ 32 - 100)) + 3100))
      <-> isActive (setState rover NAV_BACKWARD (2 ^ 32 - 100)) = true
          /\ isPaused (setState rover NAV_BACKWARD (2 ^ 32 - 100)) = false
          /\ updateInterval (setState rover NAV_BACKWARD (2 ^ 32 - 100)) <= 3100).
Proof.
  apply (timers_survive_wrap (setState rover NAV_BACKWARD (2 ^ 32 - 100)) 3100);
    vm_compute; split; discriminate || reflexivity.
Defined.

End ModeFacts.

(** ** actuators/motor_controller *)

Module MotorFacts.

Import Arduino ArduinoFacts MacroFacts Motor.

(** *** Bounds of the outputs *)

Lemma constrainSpeed_range (m : MotorController) (speed : Z) :
  0 <= maxSpeed m -> - maxSpeed m <= constrainSpeed m speed <= maxSpeed m.
Proof. intros M. unfold constrainSpeed. apply constrain_range. lia. Qed.

Lemma constrainSpeed_id (m : MotorController) (speed : Z) :
  - maxSpeed m <= speed <= maxSpeed m -> constrainSpeed m speed = speed.
Proof. intros M. unfold constrainSpeed. now apply constrain_id. Qed.

Lemma outputsSafe_updateMotors (m : MotorController) :
  - 255 <= leftSpeed m <= 255 -> - 255 <= rightSpeed m <= 255 ->
  outputsSafe (updateMotors m).
Proof.
  intros L R. unfold outputsSafe, updateMotors. cbv zeta.
  cbn [ena enb in1 in2 in3 in4 write_pins].
  destruct (leftSpeed m >? 0) eqn:L1; [| destruct (leftSpeed m <? 0) eqn:L2];
    (destruct (rightSpeed m >? 0) eqn:R1; [| destruct (rightSpeed m <? 0) eqn:R2]);
    cbn [fst snd andb]; repeat split; lia.
Qed.

Lemma frame_updateMotors (m : MotorController) :
  leftSpeed (updateMotors m) = leftSpeed m
  /\ rightSpeed (updateMotors m) = rightSpeed m
  /\ currentDirection (updateMotors m) = currentDirection m
  /\ isMoving (updateMotors m) = isMoving m
  /\ maxSpeed (updateMotors m) = maxSpeed m
  /\ minSpeed (updateMotors m) = minSpeed m
  /\ safetyEnabled (updateMotors m) = safetyEnabled m
  /\ lastCommandTime (updateMotors m) = lastCommandTime m
  /\ commandTimeout (updateMotors m) = commandTimeout m.
Proof. now repeat split. Qed.

Lemma sound_moved (m : MotorController) (l r : Z) (d : MotorDirection)
      (moving : bool) (t : Z) :
  0 <= maxSpeed m <= 255 ->
  (moving = true <-> d <> MOTOR_STOP) ->
  sound (set_lastCommandTime (set_motion (setSpeeds m l r) d moving) t).
Proof.
  intros M C.
  pose proof (constrainSpeed_range m l ltac:(lia)).
  pose proof (constrainSpeed_range m r ltac:(lia)).
  unfold setSpeeds. split; [| split].
  - repeat split;
      cbn [maxSpeed leftSpeed rightSpeed updateMotors write_pins set_wheels
           set_motion set_lastCommandTime]; lia.
  - pose proof (outputsSafe_updateMotors
                  (set_wheels m (constrainSpeed m l) (constrainSpeed m r))) as O.
    cbn [leftSpeed rightSpeed set_wheels] in O. apply O; lia.
  - exact C.
Qed.

Lemma sound_setSpeeds (m : MotorController) (l r : Z) :
  sound m -> sound (setSpeeds m l r).
Proof.
  intros ((M & _ & _) & _ & C).
  destruct (sound_moved m l r (currentDirection m) (isMoving m) (lastCommandTime m) M C)
    as (B & O & _).
  split; [exact B |]. split; [exact O | exact C].
Qed.

Lemma sound_stop (m : MotorController) (now : Z) :
  0 <= maxSpeed m <= 255 -> sound (stop m now).
Proof. intros M. apply sound_moved; [exact M |]. split; [discriminate | now intros []]. Qed.

Lemma sound_setDirection (m : MotorController) (d : MotorDirection) (speed now : Z) :
  sound m -> sound (setDirection m d speed now).
Proof.
  intros S. pose proof S as ((M & _ & _) & _ & _).
  destruct d; cbn [setDirection];
    [unfold moveForward | unfold moveBackward | unfold turnLeft | unfold turnRight
     | now apply sound_stop];
    (destruct (negb (isCommandValid m now)); [exact S |]);
    cbv zeta; (apply sound_moved; [exact M |]); split; done.
Qed.

Lemma sound_call (m : MotorController) (c : Call) (now : Z) :
  sound m -> sound (call m c now).
Proof.
  intros S. destruct c; cbn [call].
  - now apply sound_setDirection.
  - now apply sound_setSpeeds.
  - destruct S as ((M & L & R) & O & C).
    pose proof (constrain_range speed 0 255 ltac:(lia)).
    split; [| split]; [| exact O | exact C]. now repeat split.
  - exact S.
  - destruct S as ((M & L & R) & O & C). unfold adjustSpeed. cbv zeta.
    pose proof (constrainSpeed_range m (i32 (leftSpeed m + deltaSpeed)) ltac:(lia)) as A1.
    set (l := constrainSpeed m (i32 (leftSpeed m + deltaSpeed))) in *.
    set (m1 := set_wheels m l (rightSpeed m)).
    pose proof (constrainSpeed_range m1 (i32 (rightSpeed m1 + deltaSpeed))
                  ltac:(cbn; lia)) as A2.
    set (r := constrainSpeed m1 (i32 (rightSpeed m1 + deltaSpeed))) in *.
    change (maxSpeed m1) with (maxSpeed m) in A2.
    clearbody l r. subst m1.
    split; [| split].
    + repeat split;
        cbn [maxSpeed leftSpeed rightSpeed updateMotors write_pins set_wheels]; lia.
    + apply outputsSafe_updateMotors; cbn [leftSpeed rightSpeed set_wheels]; lia.
    + exact C.
  - exact S.
  - exact S.
  - unfold checkSafety. destruct (negb (safetyEnabled m)); [exact S |].
    destruct (_ && _); [| exact S]. apply (sound_stop m now). now destruct S as ((M & _) & _).
  - apply (sound_stop m now). now destruct S as ((M & _) & _).
  - destruct S as (B & _ & _). split; [exact B |]. split.
    + unfold outputsSafe. cbn. lia.
    + split; [discriminate | now intros []].
  - unfold brake. apply sound_stop. now destruct S as ((M & _) & _).
Qed.

(** X20. After construction, [begin] and any run of calls of the public
    functions with any arguments, at the end of every call: the duties
    written to the two enable pins lie within 0..255, no motor has both of
    its direction pins high, the two wheel speeds lie within -255..255, the
    speed limit within 0..255, and the controller reports moving exactly
    when its direction is not Stop. *)
Theorem outputs_stay_safe (t0 : Z) (l : list (Call * Z)) :
  outputsSafe (calls (begin MotorController_new t0) l)
  /\ speedsBounded (calls (begin MotorController_new t0) l)
  /\ motionConsistent (calls (begin MotorController_new t0) l).
Proof.
  assert (G : forall l m, sound m -> sound (calls m l)).
  { unfold calls. intros k. induction k as [| [c now] k IH]; intros m S; [exact S |].
    cbn [fold_left fst snd]. apply IH. now apply sound_call. }
  destruct (G l (begin MotorController_new t0)) as (B & O & C).
  - apply sound_stop. cbn. lia.
  - split; [exact O | split; [exact B | exact C]].
Qed.

(** *** The dead-man lock *)

Lemma locked_refuses (m : MotorController) (d : MotorDirection) (speed now : Z) :
  locked m now -> d <> MOTOR_STOP -> setDirection m d speed now = m.
Proof.
  intros [S G] N.
  assert (V : isCommandValid m now = false).
  { unfold isCommandValid. now rewrite S, G. }
  destruct d; cbn [setDirection]; try done;
    [unfold moveForward | unfold moveBackward | unfold turnLeft | unfold turnRight];
    now rewrite V.
Qed.

(** X21. The dead-man lock: with the safety features on, once the time
    since the last accepted command has reached [commandTimeout], every
    movement command ([moveForward], [moveBackward], [turnLeft],
    [turnRight], directly or through [setDirection]) is ignored and leaves
    the controller exactly as it was; being ignored, it does not restart
    the clock, so the commands that follow are ignored as well. *)
Theorem silent_controller_refuses (m : MotorController)
        (l : list (MotorDirection * Z * Z)) :
  Forall (fun c => fst (fst c) <> MOTOR_STOP /\ locked m (snd c)) l ->
  commands m l = m.
Proof.
  unfold commands. induction l as [| [[d speed] now] l IH]; intros F; [done |].
  apply Forall_cons in F as [[N L] F]. cbn [fst snd] in N, L.
  cbn [fold_left fst snd]. rewrite (locked_refuses m d speed now L N).
  now apply IH.
Qed.

Lemma silent_controller_refuses_witness :
  commands (begin MotorController_new 1000)
           [(MOTOR_FORWARD, 150, 6000); (MOTOR_LEFT, 120, 6100); (MOTOR_BACKWARD, 100, 9000)]
  = begin MotorController_new 1000.
Proof.
  apply (silent_controller_refuses (begin MotorController_new 1000)).
  repeat constructor; discriminate.
Defined.

Lemma halted_stop (m : MotorController) (now : Z) :
  0 <= maxSpeed m -> halted (stop m now) /\ lastCommandTime (stop m now) = now.
Proof.
  intros M. unfold stop, setSpeeds.
  rewrite (constrainSpeed_id m 0) by lia.
  split; [| reflexivity]. unfold halted. cbn. now repeat split.
Qed.

(** The watchdog of [checkSafety]: with the safety features on, a
    moving controller whose last accepted command is older than
    [commandTimeout] is halted (wheel speeds 0, direction pins low, duties
    0, not moving, direction Stop), and the halt restarts the clock, so
    movement commands are accepted again for the next [commandTimeout]
    milliseconds. *)
Theorem watchdog_halts (m : MotorController) (now : Z) :
  safetyEnabled m = true ->
  isMoving m = true ->
  (u32 (now - lastCommandTime m) >? u32 (commandTimeout m)) = true ->
  0 <= maxSpeed m ->
  halted (checkSafety m now)
  /\ (forall later, u32 (later - now) < u32 (commandTimeout m) ->
        isCommandValid (checkSafety m now) later = true).
Proof.
  intros S Mv G M. unfold checkSafety. rewrite S, Mv, G. cbn [negb andb].
  change (emergencyStop m now) with (stop m now).
  destruct (halted_stop m now M) as [Ha T]. split; [exact Ha |].
  intros later L. unfold isCommandValid. rewrite T.
  change (commandTimeout (stop m now)) with (commandTimeout m).
  apply orb_true_iff. right. now apply Z.ltb_lt.
Qed.

Lemma watchdog_halts_witness :
  halted (checkSafety (moveForward (begin MotorController_new 1000) 150 1200) 6300)
  /\ (forall later,
        u32 (later - 6300)
        < u32 (commandTimeout (moveForward (begin MotorController_new 1000) 150 1200)) ->
        isCommandValid
          (checkSafety (moveForward (begin MotorController_new 1000) 150 1200) 6300)
          later = true).
Proof.
  apply (watchdog_halts (moveForward (begin MotorController_new 1000) 150 1200) 6300);
    try reflexivity.
  vm_compute. discriminate.
Defined.

(** *** The outputs of a command *)

Lemma outputs_setSpeeds (m : MotorController) (l r : Z) :
  outputs (setSpeeds m l r)
  = (constrainSpeed m l >? 0, constrainSpeed m l <? 0,
     constrainSpeed m r >? 0, constrainSpeed m r <? 0,
     Z.abs (constrainSpeed m l), Z.abs (constrainSpeed m r)).
Proof.
  unfold setSpeeds, outputs, updateMotors. cbv zeta.
  cbn [in1 in2 in3 in4 ena enb write_pins leftSpeed rightSpeed set_wheels].
  set (a := constrainSpeed m l). set (b := constrainSpeed m r).
  destruct (a >? 0) eqn:A1; [| destruct (a <? 0) eqn:A2];
    (destruct (b >? 0) eqn:B1; [| destruct (b <? 0) eqn:B2]);
    cbn [fst snd]; repeat f_equal; lia.
Qed.

Lemma constrainSpeed_pos (m : MotorController) (speed : Z) :
  0 < maxSpeed m -> 0 < speed -> constrainSpeed m speed = Z.min speed (maxSpeed m).
Proof.
  intros M S. unfold constrainSpeed, constrain.
  destruct (speed <? - maxSpeed m) eqn:A; [lia |].
  destruct (speed >? maxSpeed m) eqn:B; lia.
Qed.

Lemma constrainSpeed_opp (m : MotorController) (speed : Z) :
  0 <= maxSpeed m -> constrainSpeed m (- speed) = - constrainSpeed m speed.
Proof.
  intros M. unfold constrainSpeed, constrain.
  destruct (speed <? - maxSpeed m) eqn:A; destruct (speed >? maxSpeed m) eqn:B;
    destruct (- speed <? - maxSpeed m) eqn:C; destruct (- speed >? maxSpeed m) eqn:D;
    lia.
Qed.

Lemma outputs_moved (m : MotorController) (l r : Z) (d : MotorDirection)
      (moving : bool) (t : Z) :
  outputs (set_lastCommandTime (set_motion (setSpeeds m l r) d moving) t)
  = outputs (setSpeeds m l r).
Proof. reflexivity. Qed.

(** X22. What an accepted movement command with a positive speed writes,
    with a positive speed limit: both duties are the speed cut to
    [maxSpeed]; forward sets [in1], [in3] high, backward [in2], [in4],
    left [in2], [in3], right [in1], [in4], the other two low. A negative
    speed is not rejected: [moveForward] with [- speed] writes the outputs
    of [moveBackward] with [speed] while reporting direction Forward. *)
Theorem accepted_command_outputs (m : MotorController) (speed now : Z) :
  isCommandValid m now = true ->
  0 < maxSpeed m ->
  0 < speed ->
  outputs (moveForward m speed now)
  = (true, false, true, false, Z.min speed (maxSpeed m), Z.min speed (maxSpeed m))
  /\ outputs (moveBackward m speed now)
     = (false, true, false, true, Z.min speed (maxSpeed m), Z.min speed (maxSpeed m))
  /\ outputs (turnLeft m speed now)
     = (false, true, true, false, Z.min speed (maxSpeed m), Z.min speed (maxSpeed m))
  /\ outputs (turnRight m speed now)
     = (true, false, false, true, Z.min speed (maxSpeed m), Z.min speed (maxSpeed m))
  /\ outputs (moveForward m (- speed) now) = outputs (moveBackward m speed now)
  /\ currentDirection (moveForward m (- speed) now) = MOTOR_FORWARD.
Proof.
  intros V M S.
  pose proof (constrainSpeed_pos m speed M S) as E.
  assert (I : forall v, - maxSpeed m <= v <= maxSpeed m -> constrainSpeed m v = v)
    by (intros v; apply constrainSpeed_id).
  assert (O : constrainSpeed m (- speed) = - Z.min speed (maxSpeed m))
    by (rewrite constrainSpeed_opp, E; lia).
  unfold moveForward, moveBackward, turnLeft, turnRight. rewrite V. cbn [negb].
  cbv zeta. rewrite !outputs_moved, !outputs_setSpeeds, O, E.
  set (d := Z.min speed (maxSpeed m)) in *.
  assert (D : 0 < d <= maxSpeed m) by lia.
  rewrite !(I d), !(I (- d)) by lia.
  repeat split; repeat f_equal; lia.
Qed.

Lemma accepted_command_outputs_witness :
  outputs (moveForward (begin MotorController_new 1000) 300 1200)
  = (true, false, true, false,
     Z.min 300 (maxSpeed (begin MotorController_new 1000)),
     Z.min 300 (maxSpeed (begin MotorController_new 1000)))
  /\ outputs (moveBackward (begin MotorController_new 1000) 300 1200)
     = (false, true, false, true,
        Z.min 300 (maxSpeed (begin MotorController_new 1000)),
        Z.min 300 (maxSpeed (begin MotorController_new 1000)))
  /\ outputs (turnLeft (begin MotorController_new 1000) 300 1200)
     = (false, true, true, false,
        Z.min 300 (maxSpeed (begin MotorController_new 1000)),
        Z.min 300 (maxSpeed (begin MotorController_new 1000)))
  /\ outputs (turnRight (begin MotorController_new 1000) 300 1200)
     = (true, false, false, true,
        Z.min 300 (maxSpeed (begin MotorController_new 1000)),
        Z.min 300 (maxSpeed (begin MotorController_new 1000)))
  /\ outputs (moveForward (begin MotorController_new 1000) (- 300) 1200)
     = outputs (moveBackward (begin MotorController_new 1000) 300 1200)
  /\ currentDirection (moveForward (begin MotorController_new 1000) (- 300) 1200)
     = MOTOR_FORWARD.
Proof.
  apply (accepted_command_outputs (begin MotorController_new 1000) 300 1200);
    reflexivity.
Defined.

(** *** The lower speed limit *)

Lemma forget_call (m : MotorController) (c : Call) (now : Z) :
  forgetMinSpeed (call m c now) = forgetMinSpeed (call (forgetMinSpeed m) c now).
Proof.
  destruct m as [a1 a2 a3 a4 ea eb ls rs cd mv hi lo se lt ct].
  destruct c as [[] speed | l r | speed | speed | delta | enable | timeoutMs | | | |];
    cbn [call setDirection];
    unfold moveForward, moveBackward, turnLeft, turnRight, stop, brake, brakePins,
      emergencyStop, checkSafety, coast, adjustSpeed, setSpeeds, setMaxSpeed,
      setMinSpeed, enableSafety, setCommandTimeout, isCommandValid, constrainSpeed,
      forgetMinSpeed, updateMotors;
    cbv zeta;
    cbn [in1 in2 in3 in4 ena enb leftSpeed rightSpeed currentDirection isMoving
         maxSpeed minSpeed safetyEnabled lastCommandTime commandTimeout
         write_pins set_wheels set_motion set_lastCommandTime set_limits set_safety];
    repeat match goal with
           | |- context [if ?b then _ else _] => destruct b eqn:?
           end;
    reflexivity.
Qed.

(** X23. The lower speed limit is never applied: [setMinSpeed] stores its
    argument cut to 0..255, and through any run of calls of the public
    functions the controller behaves as if it had not been called; every
    other field, pin level and duty is the same. *)
Theorem minSpeed_is_never_applied (m : MotorController) (speed : Z)
        (l : list (Call * Z)) :
  forgetMinSpeed (calls (setMinSpeed m speed) l) = forgetMinSpeed (calls m l)
  /\ 0 <= minSpeed (setMinSpeed m speed) <= 255.
Proof.
  split; [| apply constrain_range; lia].
  assert (G : forall k a b,
             forgetMinSpeed a = forgetMinSpeed b ->
             forgetMinSpeed (calls a k) = forgetMinSpeed (calls b k)).
  { unfold calls. intros k. induction k as [| [c now] k IH]; intros a b E; [exact E |].
    cbn [fold_left fst snd]. apply IH.
    now rewrite (forget_call a), (forget_call b), E. }
  apply G. reflexivity.
Qed.

Lemma i32_id (z : Z) : - 2 ^ 31 <= z < 2 ^ 31 -> i32 z = z.
Proof.
  intros Hz. unfold i32.
  change (2 ^ 31) with 2147483648 in *. change (2 ^ 32) with 4294967296.
  rewrite Z.mod_small; lia.
Qed.

(** X24. [adjustSpeed] and [setSpeeds] start the motors behind the back of
    the watchdog: on a stopped controller a positive adjustment drives both
    motors forward at the adjustment cut to [maxSpeed], the controller
    still reports not moving, and [checkSafety] leaves the motors running
    at every later clock reading. *)
Theorem unguarded_speed_calls (m : MotorController) (delta t0 : Z) :
  0 < maxSpeed m ->
  0 < delta < 2 ^ 31 ->
  outputs (adjustSpeed (stop m t0) delta)
  = (true, false, true, false, Z.min delta (maxSpeed m), Z.min delta (maxSpeed m))
  /\ outputs (setSpeeds (stop m t0) delta delta) = outputs (adjustSpeed (stop m t0) delta)
  /\ isMoving (adjustSpeed (stop m t0) delta) = false
  /\ isMoving (setSpeeds (stop m t0) delta delta) = false
  /\ (forall now,
        checkSafety (adjustSpeed (stop m t0) delta) now = adjustSpeed (stop m t0) delta
        /\ checkSafety (setSpeeds (stop m t0) delta delta) now
           = setSpeeds (stop m t0) delta delta).
Proof.
  intros M D.
  destruct (halted_stop m t0 ltac:(lia)) as [(L & R & _) _].
  assert (A : adjustSpeed (stop m t0) delta = setSpeeds (stop m t0) delta delta).
  { unfold adjustSpeed, setSpeeds, constrainSpeed. cbv zeta.
    cbn [leftSpeed rightSpeed maxSpeed set_wheels]. rewrite L, R.
    assert (I : i32 (0 + delta) = delta) by (apply i32_id; lia).
    rewrite I. reflexivity. }
  rewrite A.
  assert (Mv : isMoving (setSpeeds (stop m t0) delta delta) = false) by reflexivity.
  split.
  { rewrite outputs_setSpeeds.
    change (constrainSpeed (stop m t0) delta) with (constrainSpeed m delta).
    rewrite (constrainSpeed_pos m delta) by lia.
    repeat f_equal; lia. }
  split; [reflexivity |]. split; [exact Mv |]. split; [exact Mv |].
  intros now. unfold checkSafety. rewrite Mv. cbn [andb].
  split; now destruct (negb _).
Qed.

Lemma unguarded_speed_calls_witness :
  isMoving (adjustSpeed (stop MotorController_new 1000) 100) = false
  /\ outputs (adjustSpeed (stop MotorController_new 1000) 100)
     = (true, false, true, false, 100, 100).
Proof.
  destruct (unguarded_speed_calls MotorController_new 100 1000) as (O & _ & Mv & _).
  - reflexivity.
  - split; reflexivity.
  - split; [exact Mv | exact O].
Defined.

End MotorFacts.

(** ** sensors/ultrasonic_sensor *)

Module UltrasonicFacts.

Import Arduino ArduinoFacts MacroFacts Ultrasonic.

(** *** The echo pin *)

Lemma call_keeps_idle (m : UltrasonicSensor) (c : Call) (now : Z) :
  echoPin m = -1 ->
  echoPin (call m c now) = -1
  /\ distance (call m c now) = distance m
  /\ obstacleDetected (call m c now) = obstacleDetected m
  /\ lastUpdate (call m c now) = lastUpdate m.
Proof.
  intros E. destruct c; cbn [call]; try done.
  unfold update. rewrite E. cbn [Z.eqb]. now rewrite orb_true_r.
Qed.

Lemma calls_idle (l : list (Call * Z)) :
  echoPin (calls l) = -1
  /\ distance (calls l) = 0%Q
  /\ obstacleDetected (calls l) = false
  /\ lastUpdate (calls l) = 0.
Proof.
  unfold calls.
  assert (G : forall k m,
             echoPin m = -1 ->
             echoPin (fold_left (fun m' c => call m' (fst c) (snd c)) k m) = -1
             /\ distance (fold_left (fun m' c => call m' (fst c) (snd c)) k m)
                = distance m
             /\ obstacleDetected (fold_left (fun m' c => call m' (fst c) (snd c)) k m)
                = obstacleDetected m
             /\ lastUpdate (fold_left (fun m' c => call m' (fst c) (snd c)) k m)
                = lastUpdate m).
  { intros k. induction k as [| [c now] k IH]; intros m E; [done |].
    cbn [fold_left fst snd].
    destruct (call_keeps_idle m c now E) as (E1 & E2 & E3 & E4).
    destruct (IH _ E1) as (F1 & F2 & F3 & F4).
    repeat split; congruence. }
  now apply G.
Qed.

(** X25. The ranger never measures: [begin] assigns its parameter
    [echoPin] to itself, so the member keeps the -1 of the constructor and
    every [update] returns at its first test. After any run of [begin],
    [update], [setObstacleThreshold], [setMaxDistance] and [resetFilter] on
    a constructed sensor, [getDistance] is 0, [isObstacleDetected] is false
    and [update] changes nothing. *)
Theorem ranger_never_measures (l : list (Call * Z)) :
  echoPin (calls l) = -1
  /\ getDistance (calls l) = 0%Q
  /\ isObstacleDetected (calls l) = false
  /\ lastUpdate (calls l) = 0
  /\ (forall duration now, update (calls l) duration now = calls l).
Proof.
  destruct (calls_idle l) as (E & D & O & L).
  repeat split; try done.
  intros duration now. unfold update. rewrite E. cbn [Z.eqb]. now rewrite orb_true_r.
Qed.

End UltrasonicFacts.

(** ** sensors/ir_sensor *)

Module IRFacts.

Import Arduino ArduinoFacts MacroFacts IR.

(** *** Calibration *)

Lemma range_spec (readings : list Z) :
  forall acc : Z * Z,
    let res :=
      fold_left (fun acc value =>
                   (if value <? fst acc then value else fst acc,
                    if value >? snd acc then value else snd acc))
                readings acc in
    fst res <= fst acc /\ snd acc <= snd res
    /\ (forall v, In v readings -> fst res <= v <= snd res)
    /\ (fst res = fst acc \/ In (fst res) readings)
    /\ (snd res = snd acc \/ In (snd res) readings).
Proof.
  induction readings as [| x readings IH]; intros acc; cbn [fold_left].
  - cbv zeta. split; [lia |]. split; [lia |]. split; [intros v0 [] |].
    split; now left.
  - specialize (IH (if x <? fst acc then x else fst acc,
                    if x >? snd acc then x else snd acc)).
    cbv zeta in IH. cbn [fst snd] in IH.
    destruct IH as (I1 & I2 & I3 & I4 & I5).
    set (res := fold_left _ readings _) in *. clearbody res.
    cbv zeta. split; [| split; [| split; [| split]]].
    + destruct (x <? fst acc) eqn:A; lia.
    + destruct (x >? snd acc) eqn:B; lia.
    + intros v0 [<- | I]; [| now apply I3].
      destruct (x <? fst acc) eqn:A; destruct (x >? snd acc) eqn:B; lia.
    + destruct I4 as [I4 | I4]; [| right; now right].
      destruct (x <? fst acc) eqn:A; [right; left; lia | now left].
    + destruct I5 as [I5 | I5]; [| right; now right].
      destruct (x >? snd acc) eqn:B; [right; left; lia | now left].
Qed.

Lemma range_adc (readings : list Z) :
  readings <> [] ->
  Forall adc readings ->
  In (fst (range readings)) readings
  /\ In (snd (range readings)) readings
  /\ (forall v, In v readings -> fst (range readings) <= v <= snd (range readings)).
Proof.
  intros Ne F. rewrite List.Forall_forall in F.
  destruct (range_spec readings (4095, 0)) as (I1 & I2 & I3 & I4 & I5).
  cbn [fst snd] in *. fold (range readings) in *.
  destruct readings as [| v0 readings]; [done |].
  pose proof (I3 v0 ltac:(now left)) as B0.
  pose proof (F v0 ltac:(now left)) as A0. unfold adc in A0.
  split; [| split; [| exact I3]].
  - destruct I4 as [I4 | I4]; [| exact I4].
    assert (v0 = 4095) by lia. left. lia.
  - destruct I5 as [I5 | I5]; [| exact I5].
    assert (v0 = 0) by lia. left. lia.
Qed.

(** X27. [begin] discards its threshold argument: [calibrate] runs last
    and overwrites it. With readings of the converter (0..4095), the sensor
    ends calibrated, [minValue] and [maxValue] are the smallest and the
    largest of the readings taken, and the threshold is the lower limit
    plus 80 % of the range cut to an integer, between the two limits. *)
Theorem begin_discards_threshold (m : IRSensor) (sensorPin obstacleThreshold : Z)
        (readings : list Z) :
  readings <> [] ->
  Forall adc readings ->
  threshold (begin m sensorPin obstacleThreshold readings)
  = threshold (begin m sensorPin 500 readings)
  /\ isCalibrated (begin m sensorPin obstacleThreshold readings) = true
  /\ In (minValue (begin m sensorPin obstacleThreshold readings)) readings
  /\ In (maxValue (begin m sensorPin obstacleThreshold readings)) readings
  /\ (forall v, In v readings ->
        minValue (begin m sensorPin obstacleThreshold readings) <= v
        <= maxValue (begin m sensorPin obstacleThreshold readings))
  /\ minValue (begin m sensorPin obstacleThreshold readings)
     <= threshold (begin m sensorPin obstacleThreshold readings)
     <= maxValue (begin m sensorPin obstacleThreshold readings)
  /\ (5 * threshold (begin m sensorPin obstacleThreshold readings)
      <= minValue (begin m sensorPin obstacleThreshold readings)
         + 4 * maxValue (begin m sensorPin obstacleThreshold readings)
      < 5 * threshold (begin m sensorPin obstacleThreshold readings) + 5).
Proof.
  intros Ne F. destruct (range_adc readings Ne F) as (I1 & I2 & I3).
  unfold begin, calibrate. cbv zeta.
  cbn [threshold isCalibrated minValue maxValue set_calibration].
  set (lo := fst (range readings)) in *. set (hi := snd (range readings)) in *.
  assert (Le : lo <= hi) by (apply (I3 lo I1)).
  rewrite List.Forall_forall in F. pose proof (F lo I1) as Alo. unfold adc in Alo.
  assert (E : (inject_Z lo + inject_Z (hi - lo) * (8 # 10) == (lo + 4 * hi) # 5)%Q).
  { unfold inject_Z, Qeq, Qplus, Qmult. cbn [Qnum Qden]. lia. }
  assert (T : truncate (inject_Z lo + inject_Z (hi - lo) * (8 # 10))
              = (lo + 4 * hi) / 5).
  { rewrite MapperFacts.truncate_nonneg.
    - rewrite E. reflexivity.
    - rewrite E. unfold Qle. cbn [Qnum Qden]. lia. }
  rewrite T.
  pose proof (Z.div_mod (lo + 4 * hi) 5 ltac:(lia)) as DM.
  pose proof (Z.mod_pos_bound (lo + 4 * hi) 5 ltac:(lia)) as MB.
  split; [reflexivity |]. split; [reflexivity |]. split; [exact I1 |].
  split; [exact I2 |]. split; [exact I3 |]. lia.
Qed.

Lemma begin_discards_threshold_witness :
  threshold (begin IRSensor_new 34 700 [100; 900; 300]) = 740
  /\ threshold (begin IRSensor_new 34 500 [100; 900; 300]) = 740.
Proof.
  destruct (begin_discards_threshold IRSensor_new 34 700 [100; 900; 300])
    as (E & _).
  - discriminate.
  - repeat constructor; unfold adc; lia.
  - split; [rewrite E |]; reflexivity.
Defined.

(** *** The distance estimate *)

Lemma constrainQ_mono (a b lo hi : Q) :
  (lo <= hi)%Q -> (a <= b)%Q -> (constrainQ a lo hi <= constrainQ b lo hi)%Q.
Proof.
  intros L Le. unfold constrainQ.
  destruct (Qltb_spec a lo), (Qltb_spec b lo), (Qltb_spec hi a), (Qltb_spec hi b); lra.
Qed.

Lemma estimate_mono (lo hi raw raw' : Z) :
  lo < hi -> raw <= raw' ->
  (100 * (1 - inject_Z (raw' - lo) / inject_Z (hi - lo))
   <= 100 * (1 - inject_Z (raw - lo) / inject_Z (hi - lo)))%Q.
Proof.
  intros L Le.
  assert (P : (0 < / inject_Z (hi - lo))%Q).
  { apply Qinv_lt_0_compat. change 0%Q with (inject_Z 0). rewrite <- Zlt_Qlt. lia. }
  assert (A : (inject_Z (raw - lo) <= inject_Z (raw' - lo))%Q)
    by (rewrite <- Zle_Qle; lia).
  unfold Qdiv.
  pose proof (Qmult_le_compat_r _ _ (/ inject_Z (hi - lo)) A (Qlt_le_weak _ _ P)) as M.
  set (u := (inject_Z (raw - lo) * / inject_Z (hi - lo))%Q) in *.
  set (v := (inject_Z (raw' - lo) * / inject_Z (hi - lo))%Q) in *.
  clearbody u v. lra.
Qed.

(** X28. [getDistance] answers -1 exactly when the sensor is not
    calibrated or its two limits coincide; otherwise the estimate lies
    within 0..100, does not increase with the raw reading, is 100 at or
    below [minValue] and 0 at or above [maxValue]. *)
Theorem distance_estimate (m : IRSensor) :
  (isCalibrated m = false \/ maxValue m = minValue m -> getDistance m = (- 1)%Q)
  /\ (isCalibrated m = true -> maxValue m <> minValue m ->
      (0 <= getDistance m)%Q /\ (getDistance m <= 100)%Q)
  /\ (isCalibrated m = true -> minValue m < maxValue m ->
      (forall raw raw', raw <= raw' ->
         (getDistance (withRaw m raw') <= getDistance (withRaw m raw))%Q)
      /\ (forall raw, raw <= minValue m -> (getDistance (withRaw m raw) == 100)%Q)
      /\ (forall raw, maxValue m <= raw -> (getDistance (withRaw m raw) == 0)%Q)).
Proof.
  split; [| split].
  - unfold getDistance. intros [-> | ->]; [reflexivity |].
    rewrite Z.eqb_refl. now rewrite orb_true_r.
  - intros C N. unfold getDistance. rewrite C.
    apply Z.eqb_neq in N. rewrite N. cbn [negb orb]. cbv zeta.
    apply constrainQ_range. lra.
  - intros C L.
    assert (N : (maxValue m =? minValue m) = false) by (apply Z.eqb_neq; lia).
    assert (G : forall raw,
               getDistance (withRaw m raw)
               = constrainQ (100 * (1 - inject_Z (raw - minValue m)
                                         / inject_Z (maxValue m - minValue m))) 0 100).
    { intros raw. unfold getDistance.
      cbn [withRaw isCalibrated maxValue minValue rawValue]. now rewrite C, N. }
    assert (P : (0 < inject_Z (maxValue m - minValue m))%Q).
    { change 0%Q with (inject_Z 0). rewrite <- Zlt_Qlt. lia. }
    split; [| split].
    + intros raw raw' Le. rewrite !G. apply constrainQ_mono; [lra |].
      now apply estimate_mono.
    + intros raw Le. rewrite G.
      pose proof (estimate_mono (minValue m) (maxValue m) raw (minValue m) L Le) as M.
      rewrite Z.sub_diag in M. unfold Qdiv in M at 1.
      change (inject_Z 0) with 0%Q in M. rewrite Qmult_0_l in M.
      set (e := (100 * (1 - inject_Z (raw - minValue m)
                           / inject_Z (maxValue m - minValue m)))%Q) in *.
      clearbody e. unfold constrainQ.
      destruct (Qltb_spec e 0); [lra |]. destruct (Qltb_spec 100 e); lra.
    + intros raw Le. rewrite G.
      pose proof (estimate_mono (minValue m) (maxValue m) (maxValue m) raw L Le) as M.
      assert (One : (inject_Z (maxValue m - minValue m)
                     / inject_Z (maxValue m - minValue m) == 1)%Q).
      { unfold Qdiv. apply Qmult_inv_r. lra. }
      set (w := (inject_Z (maxValue m - minValue m)
                 / inject_Z (maxValue m - minValue m))%Q) in *.
      set (e := (100 * (1 - inject_Z (raw - minValue m)
                           / inject_Z (maxValue m - minValue m)))%Q) in *.
      clearbody e w. unfold constrainQ.
      destruct (Qltb_spec e 0); [lra |]. destruct (Qltb_spec 100 e); lra.
Qed.

End IRFacts.

(** ** The mode with its ranger and its controller *)

Module RoverFacts.

Import Arduino ArduinoFacts MacroFacts Nav NavFacts ModeFacts Rover.

(** *** The ranger as wired *)

Lemma sameLine_refl (m : AutonomousMode) : sameLine m m.
Proof. now repeat split. Qed.

Lemma sameLine_trans (a b c : AutonomousMode) :
  sameLine a b -> sameLine b c -> sameLine a c.
Proof. intros (A1 & A2 & A3) (B1 & B2 & B3). repeat split; congruence. Qed.

Lemma sameLine_setState (m : AutonomousMode) (st : NavigationState) (now : Z) :
  sameLine m (setState m st now).
Proof. unfold setState. now destruct (NavigationState_eqb _ _). Qed.

Lemma sameLine_checkSafety (m : AutonomousMode) (now : Z) :
  sameLine m (checkSafety m now).
Proof.
  unfold checkSafety.
  destruct (u32 (now - lastSafetyCheck m) <? u32 (safetyCheckInterval m));
    [apply sameLine_refl |].
  destruct (_ && _); [| now repeat split].
  destruct (_ >? _); [| now repeat split].
  pose proof (sameLine_setState m NAV_STOP now) as S.
  destruct (audio (setState m NAV_STOP now)); exact S.
Qed.

Lemma sameLine_avoidObstacles (m : AutonomousMode) (s : Sensors) (now : Z) :
  sameLine m (avoidObstacles m s now).
Proof.
  unfold avoidObstacles.
  repeat match goal with
         | |- sameLine _ (if ?b then _ else _) => destruct b
         end; try apply sameLine_setState; apply sameLine_refl.
Qed.

Lemma sameLine_updateState (m : AutonomousMode) (now : Z) :
  sameLine m (updateState m now).
Proof.
  unfold updateState. destruct (isStateTimeout m now); [| apply sameLine_refl].
  destruct (currentState m); try apply sameLine_refl; apply sameLine_setState.
Qed.

Lemma sameLine_navigate_obstacle (m : AutonomousMode) (s : Sensors) (now : Z) :
  obstacleDetected m = true -> sameLine m (navigate m s now).
Proof.
  intros O. unfold navigate, processObstacles. rewrite O.
  pose proof (sameLine_avoidObstacles m s now) as S.
  set (m1 := avoidObstacles m s now) in *.
  assert (E : (if lineFollowingEnabled m1 then processLineFollowing m1 s now else m1)
              = m1).
  { unfold processLineFollowing. destruct S as (S1 & _). rewrite S1, O.
    now destruct (lineFollowingEnabled m1). }
  rewrite E. unfold executeState. destruct (motors m1); exact S.
Qed.

(** X29. With the ranger as [UltrasonicSensor] implements it (its
    distance stays 0, below the 20 cm of the obstacle test), every tick of
    the mode that runs with the sensors attached finds the obstacle
    condition true whatever the proximity sensors say: line following is
    never executed (the line positions are never written), and with no
    proximity sensor triggered the tick is the ranger-only case. *)
Theorem stuck_ranger_blocks_line_following (l : list (Ultrasonic.Call * Z))
        (m : AutonomousMode) (left center right : bool) (now : Z) :
  running m now ->
  sensors m = true ->
  obstacleDetected (update m (readings left center right (Ultrasonic.calls l)) now)
  = true
  /\ linePosition (update m (readings left center right (Ultrasonic.calls l)) now)
     = linePosition m
  /\ lastLinePosition (update m (readings left center right (Ultrasonic.calls l)) now)
     = lastLinePosition m
  /\ (left = false -> center = false -> right = false ->
      rangerOnly (readings left center right (Ultrasonic.calls l))).
Proof.
  intros (A & P & G) Se.
  assert (D : distance (readings left center right (Ultrasonic.calls l)) = 0%Q).
  { unfold readings. cbn [distance]. unfold Ultrasonic.getDistance.
    apply (UltrasonicFacts.calls_idle l). }
  set (s := readings left center right (Ultrasonic.calls l)) in *.
  assert (Q0 : Qltb (distance s) 20 = true) by now rewrite D.
  split; [| split; [| split]].
  4: { intros -> -> ->. now repeat split. }
  all: rewrite (update_running _ _ _ A P G);
    cbn [set_lastUpdate obstacleDetected linePosition lastLinePosition];
    unfold beforeUpdateState;
    set (m1 := updateSensors m s now);
    assert (S1 : obstacleDetected m1 = true /\ linePosition m1 = linePosition m
                 /\ lastLinePosition m1 = lastLinePosition m)
      by (subst m1; unfold updateSensors; rewrite Se, Q0, !orb_true_r; now cbn);
    destruct S1 as (O1 & L1 & K1);
    set (m2 := if safetyEnabled m1 then checkSafety m1 now else m1);
    assert (S2 : sameLine m1 m2)
      by (subst m2; destruct (safetyEnabled m1);
          [apply sameLine_checkSafety | apply sameLine_refl]);
    pose proof S2 as (O2 & L2 & K2);
    assert (S3 : sameLine m2 (navigate m2 s now))
      by (apply sameLine_navigate_obstacle; congruence);
    pose proof (sameLine_updateState (navigate m2 s now) now) as S4;
    destruct (sameLine_trans _ _ _ S3 S4) as (O & Li & La);
    congruence.
Qed.

Lemma stuck_ranger_blocks_line_following_witness :
  obstacleDetected
    (update rover
            (readings false false false
                      (Ultrasonic.calls
                         [(Ultrasonic.CallBegin 5 18 20 400 1166, 0);
                          (Ultrasonic.CallUpdate 2915, 200)]))
            1100)
  = true.
Proof.
  destruct (stuck_ranger_blocks_line_following
              [(Ultrasonic.CallBegin 5 18 20 400 1166, 0);
               (Ultrasonic.CallUpdate 2915, 200)]
              rover false false false 1100) as (O & _).
  - repeat split; reflexivity.
  - reflexivity.
  - exact O.
Defined.

(** *** The mode on a locked controller *)

Lemma deliver_directive_locked (m : AutonomousMode) (mc : Motor.MotorController)
      (st : NavigationState) (now : Z) :
  Motor.locked mc now ->
  deliver mc now (directive m st)
  = if NavigationState_eqb st NAV_STOP then Motor.stop mc now else mc.
Proof.
  intros L.
  destruct st; cbn [directive deliver NavigationState_eqb]; try reflexivity.
  - apply (MotorFacts.locked_refuses mc Motor.MOTOR_FORWARD _ now L). discriminate.
  - apply (MotorFacts.locked_refuses mc Motor.MOTOR_LEFT _ now L). discriminate.
  - apply (MotorFacts.locked_refuses mc Motor.MOTOR_RIGHT _ now L). discriminate.
  - apply (MotorFacts.locked_refuses mc Motor.MOTOR_BACKWARD _ now L). discriminate.
  - apply (MotorFacts.locked_refuses mc Motor.MOTOR_LEFT _ now L). discriminate.
  - apply (MotorFacts.locked_refuses mc Motor.MOTOR_RIGHT _ now L). discriminate.
Qed.

(** X30. The mode on a locked controller: when the dead-man lock of the
    controller has engaged (safety on, [commandTimeout] elapsed since its
    last accepted command, as after a pause of that length), a tick of the
    mode changes the mode as usual but its motor call is ignored and the
    controller, pins and duties included, stays as it was, unless the tick
    drives Stop, which is carried out and releases the lock. *)
Theorem locked_rover_stays_put (m : AutonomousMode) (mc : Motor.MotorController)
        (s : Sensors) (now : Z) :
  running m now ->
  motors m = true ->
  Motor.locked mc now ->
  fst (tick (m, mc) s now) = update m s now
  /\ (currentState (beforeUpdateState m s now) <> NAV_STOP ->
      snd (tick (m, mc) s now) = mc)
  /\ (currentState (beforeUpdateState m s now) = NAV_STOP ->
      snd (tick (m, mc) s now) = Motor.stop mc now).
Proof.
  intros Ru M L. split; [reflexivity |].
  pose proof (drives_update_running m s now Ru) as [_ E]. rewrite M in E.
  assert (T : snd (tick (m, mc) s now)
              = deliver mc now (directive m (currentState (beforeUpdateState m s now)))).
  { unfold tick. cbn [fst snd]. rewrite E.
    rewrite drop_app_length. reflexivity. }
  rewrite T, (deliver_directive_locked m mc _ now L).
  split.
  - intros N. now destruct (currentState (beforeUpdateState m s now)).
  - intros ->. reflexivity.
Qed.

Lemma locked_rover_stays_put_witness :
  snd (tick (resume (pause rover) 8000,
             Motor.stop (Motor.begin Motor.MotorController_new 0) 2000)
            (mkSensors false false false 100) 8100)
  = Motor.stop (Motor.begin Motor.MotorController_new 0) 2000.
Proof.
  destruct (locked_rover_stays_put
              (resume (pause rover) 8000)
              (Motor.stop (Motor.begin Motor.MotorController_new 0) 2000)
              (mkSensors false false false 100) 8100) as (_ & K & _).
  - repeat split; reflexivity.
  - reflexivity.
  - split; reflexivity.
  - apply K. vm_compute. discriminate.
Defined.

End RoverFacts.
